(** * Constructive reals (ripta/reals, pkg/constructive): a shallow embedding

    The Go package evaluates an expression DAG of constructive reals: every
    node answers [approximate(p)] with a big integer and carries a one-entry
    cache, the precision tracker.  This file embeds the integer helpers, the
    tracker, the nodes with their [approximate] methods and the top-level
    drivers ([Approximate], [PreciseCmp], [Cmp], [Text], [Ln], [Sqrt],
    [ContinuedFraction]) and proves properties of them.

    Conventions.
    - [*big.Int] is [bigInt := option Z]; [None] is the nil pointer.
    - Go's [int] is a 64-bit two's complement integer ([IntSize] = 64): a [Z]
      in the range of [int_range], every arithmetic result passed through
      [wrap].
    - A node is identified by the number of its tracker; the trackers live in
      a store that every evaluation threads through. *)

From Stdlib Require Import ZArith QArith Qabs Qpower Lia Lqa String Ascii List Bool.
From Stdlib Require Import Floats.SpecFloat.
From stdpp Require Import gmap strings.

Local Open Scope Z_scope.

(** ** Machine integers *)

Module GoInt.

(** [const IntSize = 32 << (^uint(0) >> 63)] on a 64-bit platform. *)
Definition IntSize : Z := 64.

Definition MinInt : Z := - 2 ^ (IntSize - 1).
Definition MaxInt : Z := 2 ^ (IntSize - 1) - 1.

Definition int_range (z : Z) : Prop := MinInt <= z <= MaxInt.

(** Two's complement wrap-around of an exact result. *)
Definition wrap (z : Z) : Z := (z + 2 ^ (IntSize - 1)) mod 2 ^ IntSize - 2 ^ (IntSize - 1).

(** [uint(n)]: reinterpretation of the bits of an [int]. *)
Definition uint (n : Z) : Z := n mod 2 ^ IntSize.

Definition add (a b : Z) : Z := wrap (a + b).
Definition sub (a b : Z) : Z := wrap (a - b).
Definition mul (a b : Z) : Z := wrap (a * b).
Definition neg (a : Z) : Z := wrap (- a).
(** [a / b] on [int]: truncated division. *)
Definition quot (a b : Z) : Z := wrap (Z.quot a b).

End GoInt.

Import GoInt.

(** ** Validity of a precision (constructive.go, lines 12-25) *)

Definition IsIntWithinBitTolerance (value tolerance : Z) : bool :=
  let highBits := Z.shiftr value (IntSize - 4) in
  let topBits := Z.shiftr value (IntSize - 3) in
  Z.lxor highBits topBits =? 0.

Definition IsPrecisionValid (p : Z) : bool := IsIntWithinBitTolerance p 4.

(** ** Big integers (the wrappers over math/big) *)

(** [*big.Int]: a pointer, possibly nil. *)
Definition bigInt : Type := option Z.

(** [big.Int.Div]: Euclidean division, the remainder is never negative.  The
    caller checks the divisor against zero (Go panics there). *)
Definition bigDiv (a b : Z) : Z :=
  if 0 <? b then a / b else - (a / - b).

Definition bigLsh (a n : Z) : Z := Z.shiftl a n.
Definition bigRsh (a n : Z) : Z := Z.shiftr a n.

(** [big.Int.BitLen]: the length of the absolute value in bits, 0 for 0. *)
Definition BitLen (a : Z) : Z :=
  if a =? 0 then 0 else Z.log2 (Z.abs a) + 1.

(** [signedShift] (lines 246-255). *)
Definition signedShift (i n : Z) : Z :=
  if n <? 0 then bigRsh i (uint (neg n))
  else if 0 <? n then bigLsh i (uint n)
  else i.

(** [scale] (lines 236-243): a rounded multiplication by 2^n. *)
Definition scale (i n : Z) : Z :=
  if 0 <=? n then bigLsh i (uint n)
  else
    let adj := signedShift i (add n 1) + 1 in
    bigRsh adj 1.

(** ** Outcomes: a result, a Go panic, or the evaluation budget used up *)

Inductive outcome (A : Type) : Type :=
| Ok (a : A)
| Panic (msg : string)
| OutOfFuel.

Arguments Ok {A} a.
Arguments Panic {A} msg.
Arguments OutOfFuel {A}.

(** The text [%v] prints for the two run-time panics the package can raise. *)
Definition nilDeref : string :=
  "runtime error: invalid memory address or nil pointer dereference".
Definition divisionByZero : string := "division by zero".

(** ** The precision tracker (precision_tracker.go) *)

Record precisionTracker : Type := mkTracker {
  IsValid : bool;
  MaxApproximation : bigInt;
  MinPrecision : Z
}.

(** The zero value every freshly allocated node embeds. *)
Definition zeroTracker : precisionTracker := mkTracker false None 0.

(** [t.Get(p)]: [scale] dereferences the cached pointer. *)
Definition tracker_Get (t : precisionTracker) (p : Z) : outcome (bigInt * bool) :=
  if IsValid t && (MinPrecision t <=? p) then
    match MaxApproximation t with
    | Some m => Ok (Some (scale m (sub (MinPrecision t) p)), true)
    | None => Panic nilDeref
    end
  else Ok (None, false).

(** [t.Set(p, i)]: the updated tracker and the returned pointer. *)
Definition tracker_Set (t : precisionTracker) (p : Z) (i : bigInt) : bigInt * precisionTracker :=
  (i, mkTracker true i p).

(** ** Nodes of the expression graph *)

(** The Go interface [Real].  Each struct embeds its own tracker, named here
    by the number [t]; two occurrences of one number are one shared object.
    [named] embeds the interface itself and so has the tracker and the
    [approximate] method of its inner node. *)
Inductive Real : Type :=
| Nil
| constructiveInteger (t : nat) (i : Z)
| constructiveAddition (t : nat) (a b : Real)
| constructiveMultiplication (t : nat) (a b : Real)
| constructiveMultiplicativeInverse (t : nat) (r : Real)
| constructiveShift (t : nat) (r : Real) (n : Z)
| constructiveNegation (t : nat) (r : Real)
| constructiveCondsign (t : nat) (a b r : Real)
| prescaledExponential (t : nat) (r : Real)
| prescaledNaturalLog (t : nat) (r : Real)
| integralArctan (t : nat) (a : Real)
| prescaledSqrt (t : nat) (r : Real)
| prescaledCosine (t : nat) (r : Real)
| named (inner : Real) (Name : string).

(** [c.tracker()]: the address of the tracker, [None] for the nil interface
    (where the call panics). *)
Fixpoint trackerOf (c : Real) : option nat :=
  match c with
  | Nil => None
  | constructiveInteger t _ | constructiveAddition t _ _
  | constructiveMultiplication t _ _ | constructiveMultiplicativeInverse t _
  | constructiveShift t _ _ | constructiveNegation t _
  | constructiveCondsign t _ _ _ | prescaledExponential t _
  | prescaledNaturalLog t _ | integralArctan t _ | prescaledSqrt t _
  | prescaledCosine t _ => Some t
  | named inner _ => trackerOf inner
  end.

(** ** The heap: trackers, the allocation counter and the once-cells *)

Record store : Type := mkStore {
  next : nat;
  trackers : gmap nat precisionTracker;
  onceZero : option Real;
  onceOne : option Real
}.

Definition emptyStore : store := mkStore 0 ∅ None None.

Definition trackerAt (st : store) (k : nat) : precisionTracker :=
  default zeroTracker (trackers st !! k).

Definition setTracker (st : store) (k : nat) (t : precisionTracker) : store :=
  mkStore (next st) (<[k := t]> (trackers st)) (onceZero st) (onceOne st).

(** ** The evaluation monad: state passing with panics *)

Definition M (A : Type) : Type := store -> outcome A * store.

Definition ret {A} (a : A) : M A := fun st => (Ok a, st).
Definition panic {A} (msg : string) : M A := fun st => (Panic msg, st).
Definition outOfFuel {A} : M A := fun st => (OutOfFuel, st).

Definition bind {A B} (m : M A) (k : A -> M B) : M B :=
  fun st =>
    match m st with
    | (Ok a, st') => k a st'
    | (Panic msg, st') => (Panic msg, st')
    | (OutOfFuel, st') => (OutOfFuel, st')
    end.

Notation "'do' x <- m ; k" := (bind m (fun x => k))
  (at level 10, x name, m at level 100, k at level 200).

Definition lift {A} (o : outcome A) : M A := fun st => (o, st).

(** Reading through a [*big.Int]. *)
Definition deref (i : bigInt) : M Z :=
  match i with
  | Some z => ret z
  | None => panic nilDeref
  end.

Definition load (k : nat) : M precisionTracker := fun st => (Ok (trackerAt st k), st).

(** [t.Set(p, s)] on the tracker stored at [k]. *)
Definition storeSet (k : nat) (p : Z) (s : bigInt) : M bigInt :=
  fun st =>
    let '(i, t') := tracker_Set (trackerAt st k) p s in
    (Ok i, setTracker st k t').

(** The receiver of a method call on the interface: nil panics. *)
Definition receiver (c : Real) : M nat :=
  match trackerOf c with
  | Some k => ret k
  | None => panic nilDeref
  end.

(** [bigDiv] with Go's panic on a zero divisor. *)
Definition bigDivM (a b : Z) : M Z :=
  if b =? 0 then panic divisionByZero else ret (bigDiv a b).

(** ** The gatekeeper [Approximate] (lines 67-79)

    It is written over the two methods it calls through the interface:
    [tr] is [c.tracker()] and [approximate] is [c.approximate]. *)
Definition Approximate_with (tr : option nat) (approximate : Z -> M bigInt) (p : Z) : M bigInt :=
  if negb (IsPrecisionValid p) then ret None
  else
    match tr with
    | None => panic nilDeref
    | Some k =>
        do t <- load k;
        do g <- lift (tracker_Get t p);
        if snd g then ret (fst g)
        else
          do s <- approximate p;
          storeSet k p s
    end.

(** [knownMSD] (lines 185-192), on the tracker it reads. *)
Definition knownMSD_of (t : precisionTracker) : outcome Z :=
  match MaxApproximation t with
  | None => Panic nilDeref
  | Some m =>
      if 0 <=? m then Ok (sub (add (MinPrecision t) (BitLen m)) 1)
      else Ok (sub (add (MinPrecision t) (BitLen (- m))) 1)
  end.

Definition knownMSD_at (tr : option nat) : M Z :=
  match tr with
  | None => panic nilDeref
  | Some k => do t <- load k; lift (knownMSD_of t)
  end.

(** [msd] (lines 194-204); [A] is [Approximate(c, _)]. *)
Definition msd_with (A : Z -> M bigInt) (tr : option nat) (n : Z) : M Z :=
  match tr with
  | None => panic nilDeref
  | Some k =>
      do t <- load k;
      do small <-
        (if negb (IsValid t) then ret true
         else do m <- deref (MaxApproximation t); ret ((m <=? 1) && (-1 <=? m)));
      if (small : bool) then
        do _ <- A (sub n 1);
        do t' <- load k;
        do m <- deref (MaxApproximation t');
        if Z.abs m <=? 1 then ret MinInt else lift (knownMSD_of t')
      else lift (knownMSD_of t)
  end.

(** [PreciseSign] (lines 207-221) and the loop of [Sign] (lines 227-233). *)
Definition PreciseSign_with (A : Z -> M bigInt) (tr : option nat) (p : Z) : M Z :=
  match tr with
  | None => panic nilDeref
  | Some k =>
      do t <- load k;
      do v <- (if IsValid t then do m <- deref (MaxApproximation t); ret (Z.sgn m) else ret 0);
      if negb (v =? 0) then ret v
      else
        do ic <- A (sub p 1);
        match ic with
        | None => ret 0
        | Some z => ret (Z.sgn z)
        end
  end.

Fixpoint Sign_loop (fuel : nat) (A : Z -> M bigInt) (tr : option nat) (p : Z) : M Z :=
  match fuel with
  | O => outOfFuel
  | S fuel' =>
      do r <- PreciseSign_with A tr (sub p 1);
      if negb (r =? 0) then ret r else Sign_loop fuel' A tr (mul p 2)
  end.

Definition Sign_with (fuel : nat) (A : Z -> M bigInt) (tr : option nat) : M Z :=
  Sign_loop fuel A tr (-20).

(** ** The series kernels *)

(** [boundLog2] (big-integer helpers): ceil(log2(|n| + 1)), taken exactly;
    the Go code goes through float64, which agrees for |n| < 2^47. *)
Definition boundLog2 (n : Z) : Z := Z.log2_up (Z.abs n + 1).

(** The loop of [prescaledExponential.approximate] (lines 676-681). *)
Fixpoint expLoop (fuel : nat) (opAppr : bigInt) (opPrec maxTruncError term sum n : Z) : M Z :=
  if Z.abs term <? maxTruncError then ret sum
  else
    match fuel with
    | O => outOfFuel
    | S fuel' =>
        let n := add n 1 in
        do x <- deref opAppr;
        let term := scale (term * x) opPrec in
        do term <- bigDivM term n;
        expLoop fuel' opAppr opPrec maxTruncError term (sum + term) n
    end.

(** The loop of [prescaledNaturalLog.approximate] (lines 735-741). *)
Fixpoint lnLoop (fuel : nat) (opAppr : bigInt) (opPrec maxTruncError xToTheN term sum n sign : Z) : M Z :=
  if Z.abs term <? maxTruncError then ret sum
  else
    match fuel with
    | O => outOfFuel
    | S fuel' =>
        let n := add n 1 in
        let sign := neg sign in
        do x <- deref opAppr;
        let xToTheN := scale (xToTheN * x) opPrec in
        do term <- bigDivM xToTheN (mul sign n);
        lnLoop fuel' opAppr opPrec maxTruncError xToTheN term (sum + term) n sign
    end.

(** The loop of [integralArctan.approximate] (lines 778-785). *)
Fixpoint arctanLoop (fuel : nat) (isq maxTruncError power term sum n sign : Z) : M Z :=
  if Z.abs term <? maxTruncError then ret sum
  else
    match fuel with
    | O => outOfFuel
    | S fuel' =>
        let n := add n 2 in
        do power <- bigDivM power isq;
        let sign := neg sign in
        do term <- bigDivM power (sign * n);
        arctanLoop fuel' isq maxTruncError power term (sum + term) n sign
    end.

(** The loop of [prescaledCosine.approximate] (lines 902-909). *)
Fixpoint cosLoop (fuel : nat) (opAppr : bigInt) (opPrec maxTruncError term sum n : Z) : M Z :=
  if Z.abs term <? maxTruncError then ret sum
  else
    match fuel with
    | O => outOfFuel
    | S fuel' =>
        let n := add n 2 in
        do x <- deref opAppr;
        let term := scale (term * x) opPrec in
        let term := scale (term * x) opPrec in
        do term <- bigDivM term (mul (neg n) (sub n 1));
        cosLoop fuel' opAppr opPrec maxTruncError term (sum + term) n
    end.

(** ** The float64 seed of the square root (lines 832-833) *)

(** [ir.Float64()]: the nearest binary64 value, ties to even. *)
Definition Float64 (i : Z) : spec_float := binary_normalize 53 1024 i 0 false.

(** [int64(f)] for a finite [f]: truncation toward zero. *)
Definition int64_of_float (f : spec_float) : Z :=
  match f with
  | S754_finite s m e =>
      let a := if 0 <=? e then Z.pos m * 2 ^ e else Z.pos m / 2 ^ (- e) in
      wrap (if s then - a else a)
  | _ => 0
  end.

Definition floatSqrtSeed (ir : Z) : Z := int64_of_float (SFsqrt 53 1024 (Float64 ir)).


(** ** The [approximate] methods

    [fuel] bounds the iteration count of every loop that has no bound of
    its own in the source (the series loops, the loop of [Sign], the descent of
    the square root into itself); the algebraic nodes never consume it. *)
Fixpoint approximate (fuel : nat) (c : Real) (p : Z) {struct c} : M bigInt :=
  let A (x : Real) : Z -> M bigInt := Approximate_with (trackerOf x) (approximate fuel x) in
  let msd (x : Real) : Z -> M Z := msd_with (A x) (trackerOf x) in
  match c with
  | Nil => panic nilDeref
  | named inner _ => approximate fuel inner p

  (* lines 370-372 *)
  | constructiveInteger _ i => ret (Some (scale i (neg p)))

  (* lines 401-404 *)
  | constructiveAddition _ a b =>
      do x <- A a (sub p 2);
      do y <- A b (sub p 2);
      do x <- deref x;
      do y <- deref y;
      ret (Some (scale (x + y) (-2)))

  (* lines 433-456 *)
  | constructiveMultiplication _ a b =>
      let hp := sub (Z.shiftr p 1) 1 in
      do ma <- msd a hp;
      do ma <-
        (if ma =? MinInt then
           do mb <- msd b hp;
           if mb =? MinInt then ret None else ret (Some mb)
         else ret (Some ma));
      match ma with
      | None => ret (Some 0)
      | Some ma =>
          let p2 := sub (sub p ma) 3 in
          do ib <- A b p2;
          do ib <- deref ib;
          if ib =? 0 then ret (Some 0)
          else
            do mb <- knownMSD_at (trackerOf b);
            let p1 := sub (sub p mb) 3 in
            do ia <- A a p1;
            do ia <- deref ia;
            ret (Some (scale (ia * ib) (sub (add p1 p2) p)))
      end

  (* lines 484-506 *)
  | constructiveMultiplicativeInverse _ r =>
      do mr <- msd r p;
      let ir := sub 1 mr in
      let digits := add (sub ir p) 3 in
      let pn := sub mr digits in
      let lsf := sub (neg p) pn in
      if lsf <? 0 then ret (Some 0)
      else
        let dividend := bigLsh 1 (uint lsf) in
        do divisor <- A r pn;
        do divisor <- deref divisor;
        let absolute := Z.abs divisor in
        let adj := dividend + bigRsh absolute 1 in
        do res <- bigDivM adj divisor;
        if res <? 0 then ret (Some (- res)) else ret (Some res)

  (* lines 535-537 *)
  | constructiveShift _ r n => A r (sub p n)

  (* lines 569-571 *)
  | constructiveNegation _ r =>
      do x <- A r p;
      do x <- deref x;
      ret (Some (- x))

  (* lines 607-628 *)
  | constructiveCondsign _ a b r =>
      do s <- A r (-20);
      do s <- deref s;
      if s <? 0 then A a p
      else if 0 <? s then A b p
      else
        do ia <- A a (sub p 1);
        do ib <- A b (sub p 1);
        do ia <- deref ia;
        do ib <- deref ib;
        let delta := Z.abs (ia - ib) in
        if delta <=? 1 then ret (Some (scale ia (-1)))
        else
          do sg <- Sign_with fuel (A r) (trackerOf r);
          if sg <? 0 then ret (Some (scale ia (-1)))
          else ret (Some (scale ib (-1)))

  (* lines 662-683 *)
  | prescaledExponential _ r =>
      if 1 <=? p then ret (Some 0)
      else
        let iters := add (quot (neg p) 2) 2 in
        let calcPrec := sub (sub p (boundLog2 (mul 2 iters))) 4 in
        let opPrec := sub p 3 in
        do opAppr <- A r opPrec;
        let term := bigLsh 1 (uint (neg calcPrec)) in
        let maxTruncError := bigLsh 1 (uint (sub (sub p 4) calcPrec)) in
        do sum <- expLoop fuel opAppr opPrec maxTruncError term term 0;
        ret (Some (scale sum (sub calcPrec p)))

  (* lines 719-743 *)
  | prescaledNaturalLog _ r =>
      if 0 <=? p then ret (Some 0)
      else
        let iters := sub (neg p) 1 in
        let calcPrec := sub (sub p (boundLog2 (mul 2 iters))) 4 in
        let opPrec := sub p 3 in
        do opAppr <- A r opPrec;
        do x <- deref opAppr;
        let xToTheN := scale x (sub opPrec calcPrec) in
        let maxTruncError := bigLsh 1 (uint (sub (sub p 4) calcPrec)) in
        do sum <- lnLoop fuel opAppr opPrec maxTruncError xToTheN xToTheN xToTheN 1 1;
        ret (Some (scale sum (sub calcPrec p)))

  (* lines 760-787 *)
  | integralArctan _ a =>
      if 1 <=? p then ret (Some 0)
      else
        let iters := add (quot (neg p) 2) 2 in
        let calcPrec := sub (sub p (boundLog2 (mul 2 iters))) 4 in
        do ia <- A a 0;
        do ia <- deref ia;
        let isq := ia * ia in
        do power <- bigDivM (bigLsh 1 (uint (neg calcPrec))) ia;
        let maxTruncError := bigLsh 1 (uint (sub (sub p 4) calcPrec)) in
        do sum <- arctanLoop fuel isq maxTruncError power power power 1 1;
        ret (Some (scale sum (sub calcPrec p)))

  (* lines 809-834 *)
  | prescaledSqrt t r =>
      (fix self (n : nat) (p : Z) {struct n} : M bigInt :=
         let pn := sub (mul 2 p) 1 in
         do mr <- msd r pn;
         if mr <=? pn then ret (Some 0)
         else
           let digits := sub (quot mr 2) p in
           if 40 <? digits then
             let pa := sub (quot mr 2) (add (quot digits 2) 6) in
             match n with
             | O => outOfFuel
             | S n' =>
                 do ic <- Approximate_with (Some t) (self n') pa;
                 do ir <- A r (mul 2 pa);
                 do ic <- deref ic;
                 do ir <- deref ir;
                 let numerator := scale (ic * ic + ir) (sub pa p) in
                 do q <- bigDivM numerator ic;
                 ret (Some (bigRsh (q + 1) 1))
             end
           else
             let pa := Z.ldiff (sub mr 60) 1 in
             do a <- A r pa;
             do a <- deref a;
             let ir := bigLsh a 60 in
             if ir <? 0 then ret None
             else ret (Some (signedShift (floatSqrtSeed ir) (sub (quot (sub pa 60) 2) p))))
        fuel p

  (* lines 888-912 *)
  | prescaledCosine _ r =>
      if 1 <=? p then ret (Some 0)
      else
        let iters := sub (quot (neg p) 2) 2 in
        let calcPrec := sub (sub p (boundLog2 (mul 2 iters))) 4 in
        let opPrec := sub p 3 in
        do opAppr <- A r opPrec;
        let term := bigLsh 1 (uint (neg calcPrec)) in
        let maxTruncError := bigLsh 1 (uint (sub (sub p 4) calcPrec)) in
        do sum <- cosLoop fuel opAppr opPrec maxTruncError term term 0;
        ret (Some (scale sum (sub calcPrec p)))
  end.

(** [Approximate(c, p)]. *)
Definition Approximate (fuel : nat) (c : Real) (p : Z) : M bigInt :=
  Approximate_with (trackerOf c) (approximate fuel c) p.

Definition msd (fuel : nat) (c : Real) (n : Z) : M Z :=
  msd_with (Approximate fuel c) (trackerOf c) n.

Definition knownMSD (c : Real) : M Z := knownMSD_at (trackerOf c).

Definition PreciseSign (fuel : nat) (c : Real) (p : Z) : M Z :=
  PreciseSign_with (Approximate fuel c) (trackerOf c) p.

Definition Sign (fuel : nat) (c : Real) : M Z :=
  Sign_with fuel (Approximate fuel c) (trackerOf c).

(** ** Constructors

    [&T{...}] allocates a struct whose embedded tracker is the zero value. *)
Definition alloc : M nat :=
  fun st =>
    (Ok (next st),
     mkStore (S (next st)) (delete (next st) (trackers st)) (onceZero st) (onceOne st)).

Definition newInteger (i : Z) : M Real := do t <- alloc; ret (constructiveInteger t i).
Definition FromInt64 (i : Z) : M Real := newInteger i.
Definition FromInt (i : Z) : M Real := FromInt64 i.

(** [FromBigInt] (lines 264-274). *)
Definition FromBigInt (i : bigInt) : M Real :=
  match i with
  | None => ret Nil
  | Some z => if z =? 0 then FromInt64 0 else newInteger z
  end.

Definition newAddition (a b : Real) : M Real := do t <- alloc; ret (constructiveAddition t a b).
Definition newNegation (r : Real) : M Real := do t <- alloc; ret (constructiveNegation t r).
Definition newMultiplication (a b : Real) : M Real :=
  do t <- alloc; ret (constructiveMultiplication t a b).
Definition newMultiplicativeInverse (r : Real) : M Real :=
  do t <- alloc; ret (constructiveMultiplicativeInverse t r).
Definition newShift (r : Real) (n : Z) : M Real := do t <- alloc; ret (constructiveShift t r n).
Definition newPrescaledSqrt (c : Real) : M Real := do t <- alloc; ret (prescaledSqrt t c).
Definition newPrescaledNaturalLog (c : Real) : M Real :=
  do t <- alloc; ret (prescaledNaturalLog t c).
Definition newNamed (name : string) (c : Real) : M Real := ret (named c name).

Definition Add (a b : Real) : M Real := newAddition a b.
Definition Negate (c : Real) : M Real := newNegation c.
Definition Subtract (a b : Real) : M Real := do nb <- Negate b; newAddition a nb.
Definition Multiply (a b : Real) : M Real := newMultiplication a b.
Definition Square (c : Real) : M Real := newMultiplication c c.
Definition Inverse (c : Real) : M Real := newMultiplicativeInverse c.
Definition Divide (a b : Real) : M Real := do ib <- Inverse b; Multiply a ib.
Definition ShiftLeft (c : Real) (n : Z) : M Real := newShift c n.
Definition ShiftRight (c : Real) (n : Z) : M Real := newShift c (neg n).

(** [Sqrt] (lines 794-796). *)
Definition Sqrt (c : Real) : M Real := newPrescaledSqrt c.

(** [sync.OnceValue]: the first call builds the value, every call returns
    that one object (constructive_constants.go). *)
Definition Zero : M Real :=
  fun st =>
    match onceZero st with
    | Some r => (Ok r, st)
    | None =>
        match (do i <- FromInt 0; newNamed "0" i) st with
        | (Ok r, st') => (Ok r, mkStore (next st') (trackers st') (Some r) (onceOne st'))
        | other => other
        end
    end.

Definition One : M Real :=
  fun st =>
    match onceOne st with
    | Some r => (Ok r, st)
    | None =>
        match (do i <- FromInt 1; newNamed "1" i) st with
        | (Ok r, st') => (Ok r, mkStore (next st') (trackers st') (onceZero st') (Some r))
        | other => other
        end
    end.

(** [SimpleLn] (lines 704-706). *)
Definition SimpleLn (c : Real) : M Real :=
  do one <- One;
  do d <- Subtract c one;
  newPrescaledNaturalLog d.

(** [Ln] (lines 689-701); [depth] bounds the recursion of the wrapper. *)
Fixpoint Ln_rec (depth fuel : nat) (c : Real) : M Real :=
  match depth with
  | O => outOfFuel
  | S depth' =>
      do rough <- Approximate fuel c (-4);
      do rough <- deref rough;
      if rough <? 0 then ret Nil
      else if rough <? 8 then
        do ic <- Inverse c;
        do l <- Ln_rec depth' fuel ic;
        Negate l
      else if 24 <? rough then
        do s1 <- Sqrt c;
        do s2 <- Sqrt s1;
        do l <- Ln_rec depth' fuel s2;
        ShiftLeft l 2
      else SimpleLn c
  end.

Definition Ln (fuel : nat) (c : Real) : M Real := Ln_rec fuel fuel c.

(** ** Continued fractions (lines 955-981) *)

(** The loop [for i := len(fracs) - 2; i >= 0; i--], entered with [k = i + 1]. *)
Fixpoint ContinuedFraction64_loop (fracs : list Z) (k : nat) (c : Real) : M Real :=
  match k with
  | O => ret c
  | S i =>
      do x <- FromInt64 (nth i fracs 0);
      do ic <- Inverse c;
      do c' <- Add x ic;
      ContinuedFraction64_loop fracs i c'
  end.

Definition ContinuedFraction64 (fracs : list Z) : M Real :=
  if (length fracs =? 0)%nat then Zero
  else
    do c <- FromInt64 (nth (length fracs - 1) fracs 0);
    ContinuedFraction64_loop fracs (length fracs - 1) c.

Fixpoint ContinuedFraction_loop (fracs : list Real) (k : nat) (c : Real) : M Real :=
  match k with
  | O => ret c
  | S i =>
      do ic <- Inverse c;
      do c' <- Add (nth i fracs Nil) ic;
      ContinuedFraction_loop fracs i c'
  end.

Definition ContinuedFraction (fracs : list Real) : M Real :=
  if (length fracs =? 0)%nat then Zero
  else ContinuedFraction_loop fracs (length fracs - 1) (nth (length fracs - 1) fracs Nil).

(** ** Comparison (lines 143-174) *)

Definition isNil (c : Real) : bool := match c with Nil => true | _ => false end.

Definition PreciseCmp (fuel : nat) (a b : Real) (p : Z) : M Z :=
  if isNil a || isNil b then ret 0
  else
    do ia <- Approximate fuel a (sub p 1);
    do ib <- Approximate fuel b (sub p 1);
    match ia, ib with
    | Some ia, Some ib =>
        if ib + 1 <? ia then ret 1
        else if ia <? ib - 1 then ret (-1)
        else ret 0
    | _, _ => ret 0
    end.

(** The loop [for p := -20; ; p *= 2]. *)
Fixpoint Cmp_loop (n fuel : nat) (a b : Real) (p : Z) : M Z :=
  match n with
  | O => outOfFuel
  | S n' =>
      if negb (IsPrecisionValid p) then ret 0
      else
        do v <- PreciseCmp fuel a b p;
        if negb (v =? 0) then ret v else Cmp_loop n' fuel a b (mul p 2)
  end.

Definition Cmp (fuel : nat) (a b : Real) : M Z := Cmp_loop fuel fuel a b (-20).

(** ** Text (lines 30-62) *)

(** [big.Int.Exp(x, y, nil)]: x**y, and 1 for y <= 0. *)
Definition bigExp (x y : Z) : Z := if y <=? 0 then 1 else x ^ y.

(** The digits of [big.Int.Text]: lower case first, then upper case. *)
Definition digitChars : string :=
  "0123456789abcdefghijklmnopqrstuvwxyzABCDEFGHIJKLMNOPQRSTUVWXYZ".

Definition digitChar (d : Z) : ascii :=
  match String.get (Z.to_nat d) digitChars with
  | Some ch => ch
  | None => "0"%char
  end.

Fixpoint itoa_aux (fuel : nat) (base n : Z) (acc : string) : string :=
  match fuel with
  | O => acc
  | S fuel' =>
      let acc' := String (digitChar (n mod base)) acc in
      if n <? base then acc' else itoa_aux fuel' base (n / base) acc'
  end.

(** The digits of a natural number; it has at most log2 n + 1 of them. *)
Definition itoa (base n : Z) : string :=
  itoa_aux (S (Z.to_nat (Z.log2 n))) base n "".

(** [x.Text(base)] on a non-nil [x]; the conversion panics outside 2..62. *)
Definition bigText (x base : Z) : M string :=
  if (base <? 2) || (62 <? base) then panic "invalid base"
  else if x <? 0 then ret ("-" +:+ itoa base (- x))
  else ret (itoa base x).

Fixpoint repeatString (s : string) (n : nat) : string :=
  match n with
  | O => ""
  | S n' => s +:+ repeatString s n'
  end.

(** [strings.Repeat]. *)
Definition stringsRepeat (s : string) (count : Z) : M string :=
  if count <? 0 then panic "strings: negative Repeat count"
  else ret (repeatString s (Z.to_nat count)).

(** The scaled value [sc] of [Text] (lines 37-43). *)
Definition Text_scaled (c : Real) (dec radix : Z) : M Real :=
  if radix =? 16 then ShiftLeft c (mul 4 dec)
  else
    let sf := bigExp radix dec in
    do i <- newInteger sf;
    Multiply c i.

(** The body of [Text], before the deferred [recover]. *)
Definition Text_body (fuel : nat) (c : Real) (dec radix : Z) : M string :=
  do sc <- Text_scaled c dec radix;
  do si <- Approximate fuel sc 0;
  do a <- deref si;
  do ss <- bigText (Z.abs a) radix;
  do out <-
    (if 0 <? dec then
       let sl := Z.of_nat (String.length ss) in
       do ss <-
         (if sl <=? dec then
            do zeros <- stringsRepeat "0" (sub (add dec 1) sl);
            ret (zeros +:+ ss)
          else ret ss);
       let cut := (String.length ss - Z.to_nat dec)%nat in
       ret (substring 0 cut ss +:+ "." +:+ substring cut (Z.to_nat dec) ss)
     else ret ss);
  if a <? 0 then ret ("-" +:+ out) else ret out.

(** [Text]: the deferred function turns a panic into the returned text. *)
Definition Text (fuel : nat) (c : Real) (dec radix : Z) : M string :=
  fun st =>
    match Text_body fuel c dec radix st with
    | (Panic msg, st') => (Ok ("<undefined: " +:+ msg +:+ ">"), st')
    | other => other
    end.

(** ** Running a computation from the empty heap *)

Definition run {A} (m : M A) : outcome A := fst (m emptyStore).

(** ** Reference notions the statements compare the code with *)

(** The wording of the specification for [scale] with n < 0: i * 2^n rounded
    to the nearest integer, a tie going away from zero. *)
Definition roundHalfAwayFromZero (i n : Z) : Z :=
  Z.sgn i * ((Z.abs i + 2 ^ (- n - 1)) / 2 ^ (- n)).

(** The top four bits of a 64-bit integer all equal [b]. *)
Definition topBitsAll (b : bool) (v : Z) : Prop :=
  Z.testbit v 63 = b /\ Z.testbit v 62 = b /\ Z.testbit v 61 = b /\ Z.testbit v 60 = b.

(** The wording of the specification for [Cmp]: the precisions -20, -40,
    -80, ... are tried in turn and the first nonzero [PreciseCmp] is the
    answer; 0 when none is left. *)
Fixpoint firstNonzeroCmp (fuel : nat) (a b : Real) (ps : list Z) : M Z :=
  match ps with
  | [] => ret 0
  | p :: ps' =>
      do v <- PreciseCmp fuel a b p;
      if negb (v =? 0) then ret v else firstNonzeroCmp fuel a b ps'
  end.

(** -20 * 2^k for k = j, ..., j + n - 1. *)
Definition doublings (j n : nat) : list Z :=
  map (fun k => -20 * 2 ^ Z.of_nat k) (seq j n).

(** The 56 valid precisions of the doubling sequence. *)
Definition cmpPrecisions : list Z := doublings 0 56.

(** The wording for the continued fractions: starting from the last element,
    c <- x + 1/c over the earlier elements, from right to left ([xs] is the
    list of the earlier elements, reversed). *)
Fixpoint foldFractions64 (xs : list Z) (c : Real) : M Real :=
  match xs with
  | [] => ret c
  | x :: xs' =>
      do x' <- FromInt64 x;
      do ic <- Inverse c;
      do c' <- Add x' ic;
      foldFractions64 xs' c'
  end.

Fixpoint foldFractions (xs : list Real) (c : Real) : M Real :=
  match xs with
  | [] => ret c
  | x :: xs' =>
      do ic <- Inverse c;
      do c' <- Add x ic;
      foldFractions xs' c'
  end.

(** The once-cell of [Zero] is empty or holds the value its constructor
    builds. *)
Definition onceZeroBuilt (st : store) : Prop :=
  match onceZero st with
  | None => True
  | Some r => exists k, r = named (constructiveInteger k 0) "0"
  end.

(** ** The approximation contract *)

(** 2^p as a rational, for any integer p. *)
Definition pow2 (p : Z) : Q := (2 ^ p)%Q.

(** [a] approximates [v] at precision [p]: |a * 2^p - v| < 2^p. *)
Definition approximates (v : Q) (p a : Z) : Prop :=
  (Qabs (inject_Z a * pow2 p - v) < pow2 p)%Q.

(** The exact value of an expression over integers, sum, negation, product,
    inverse and shift (0 on the transcendental nodes, which have no rational
    value). *)
Fixpoint value (c : Real) : Q :=
  match c with
  | constructiveInteger _ i => inject_Z i
  | constructiveAddition _ a b => (value a + value b)%Q
  | constructiveMultiplication _ a b => (value a * value b)%Q
  | constructiveMultiplicativeInverse _ r => (/ value r)%Q
  | constructiveShift _ r n => (value r * pow2 n)%Q
  | constructiveNegation _ r => (- value r)%Q
  | named inner _ => value inner
  | _ => 0%Q
  end.

(** Expressions built from integer leaves with [Add], [Negate] (hence
    [Subtract]), [ShiftLeft]/[ShiftRight] and [Multiply], possibly named. *)
Fixpoint algebraic (c : Real) : Prop :=
  match c with
  | constructiveInteger _ _ => True
  | constructiveAddition _ a b => algebraic a /\ algebraic b
  | constructiveMultiplication _ a b => algebraic a /\ algebraic b
  | constructiveShift _ r _ => algebraic r
  | constructiveNegation _ r => algebraic r
  | named inner _ => algebraic inner
  | _ => False
  end.

(** A bound on the magnitude: |value c| < 2^(ubits c). *)
Fixpoint ubits (c : Real) : Z :=
  match c with
  | constructiveInteger _ i => BitLen i
  | constructiveAddition _ a b => Z.max (ubits a) (ubits b) + 1
  | constructiveMultiplication _ a b => ubits a + ubits b
  | constructiveShift _ r n => Z.max 0 (ubits r + n)
  | constructiveNegation _ r => ubits r
  | named inner _ => ubits inner
  | _ => 0
  end.

(** A bound on the denominator: value c * 2^(dbits c) is an integer. *)
Fixpoint dbits (c : Real) : Z :=
  match c with
  | constructiveAddition _ a b => Z.max (dbits a) (dbits b)
  | constructiveMultiplication _ a b => dbits a + dbits b
  | constructiveShift _ r n => Z.max 0 (dbits r - n)
  | constructiveNegation _ r => dbits r
  | named inner _ => dbits inner
  | _ => 0
  end.

(** How far the precisions requested below a node can move away from the
    precision requested of the node. *)
Fixpoint slack (c : Real) : Z :=
  match c with
  | constructiveAddition _ a b => 2 + Z.max (slack a) (slack b)
  | constructiveMultiplication _ a b =>
      4 + Z.max (ubits a) (ubits b) + Z.max (dbits a) (dbits b) + Z.max (slack a) (slack b)
  | constructiveShift _ r n => Z.abs n + slack r
  | constructiveNegation _ r => slack r
  | named inner _ => slack inner
  | _ => 0
  end.

(** [D] gives every tracker the value of the node that owns it: two nodes
    that share a tracker are one object and have one value. *)
Fixpoint consistent (D : nat -> Q) (c : Real) : Prop :=
  match c with
  | constructiveInteger t _ => (D t == value c)%Q
  | constructiveAddition t a b => (D t == value c)%Q /\ consistent D a /\ consistent D b
  | constructiveMultiplication t a b => (D t == value c)%Q /\ consistent D a /\ consistent D b
  | constructiveShift t r _ => (D t == value c)%Q /\ consistent D r
  | constructiveNegation t r => (D t == value c)%Q /\ consistent D r
  | named inner _ => consistent D inner
  | _ => True
  end.

(** Every valid tracker of the heap holds, at a valid precision, an
    approximation of the value of its node. *)
Definition trackerInv (D : nat -> Q) (st : store) : Prop :=
  forall k, IsValid (trackerAt st k) = true ->
    IsPrecisionValid (MinPrecision (trackerAt st k)) = true /\
    exists m, MaxApproximation (trackerAt st k) = Some m /\
              approximates (D k) (MinPrecision (trackerAt st k)) m.

(** What a successful [Approximate], at precision [p], of the node that owns
    tracker [k] and has value [v] returns and leaves behind: an approximation
    that is the cached one rescaled, the cache being the old entry (a hit) or a
    new entry at [p] (a miss). *)
Definition approxPost (D : nat -> Q) (k : nat) (v : Q) (p : Z) (st : store)
    (res : outcome bigInt * store) : Prop :=
  exists a st',
    res = (Ok (Some a), st') /\ approximates v p a /\ trackerInv D st' /\
    IsValid (trackerAt st' k) = true /\
    MinPrecision (trackerAt st' k) <= p /\
    exists m,
      MaxApproximation (trackerAt st' k) = Some m /\
      a = scale m (MinPrecision (trackerAt st' k) - p) /\
      ((trackerAt st' k = trackerAt st k /\ IsValid (trackerAt st k) = true) \/
       (MinPrecision (trackerAt st' k) = p /\
        (IsValid (trackerAt st k) = false \/ p < MinPrecision (trackerAt st k)))).

(** [A] is an [Approximate] of that node which keeps the contract at every
    precision of magnitude at most [L]. *)
Definition evaluates (D : nat -> Q) (k : nat) (v : Q) (L : Z) (A : Z -> M bigInt) : Prop :=
  forall q st, Z.abs q <= L -> trackerInv D st -> approxPost D k v q st (A q st).

(** What [msd] returns and leaves behind: the sentinel over a cached
    approximation of magnitude at most 1 at precision at most n - 1, or the
    position read off a cached approximation of magnitude at least 2. *)
Definition msdPost (D : nat -> Q) (k : nat) (n : Z) (res : outcome Z * store) : Prop :=
  exists m st',
    res = (Ok m, st') /\ trackerInv D st' /\
    IsValid (trackerAt st' k) = true /\
    exists am,
      MaxApproximation (trackerAt st' k) = Some am /\
      ((m = MinInt /\ Z.abs am <= 1 /\ MinPrecision (trackerAt st' k) <= n - 1) \/
       (m = MinPrecision (trackerAt st' k) + BitLen am - 1 /\ 2 <= Z.abs am)).

(** [constructiveMultiplication.approximate] over the [Approximate] functions
    and the trackers of its two operands: the part after the most significant
    digit [ma] is settled, and the whole body. *)
Definition mulTail (Aa Ab : Z -> M bigInt) (tb : option nat) (p ma : Z) : M bigInt :=
  let p2 := sub (sub p ma) 3 in
  do ib <- Ab p2;
  do ib <- deref ib;
  if ib =? 0 then ret (Some 0)
  else
    do mb <- knownMSD_at tb;
    let p1 := sub (sub p mb) 3 in
    do ia <- Aa p1;
    do ia <- deref ia;
    ret (Some (scale (ia * ib) (sub (add p1 p2) p))).

Definition mulBody (Aa Ab : Z -> M bigInt) (ta tb : option nat) (p : Z) : M bigInt :=
  let hp := sub (Z.shiftr p 1) 1 in
  do ma <- msd_with Aa ta hp;
  do ma <-
    (if ma =? MinInt then
       do mb <- msd_with Ab tb hp;
       if mb =? MinInt then ret None else ret (Some mb)
     else ret (Some ma));
  match ma with
  | None => ret (Some 0)
  | Some ma => mulTail Aa Ab tb p ma
  end.

(** ** Expressions built on a heap *)

(** Every tracker of the expression was allocated before the counter reached
    [n]. *)
Fixpoint allocated (n : nat) (c : Real) : Prop :=
  match c with
  | Nil => True
  | constructiveInteger t _ => (t < n)%nat
  | constructiveAddition t a b | constructiveMultiplication t a b =>
      (t < n)%nat /\ allocated n a /\ allocated n b
  | constructiveCondsign t a b r =>
      (t < n)%nat /\ allocated n a /\ allocated n b /\ allocated n r
  | constructiveMultiplicativeInverse t r | constructiveShift t r _
  | constructiveNegation t r | prescaledExponential t r | prescaledNaturalLog t r
  | integralArctan t r | prescaledSqrt t r | prescaledCosine t r =>
      (t < n)%nat /\ allocated n r
  | named inner _ => allocated n inner
  end.

(** An algebraic expression that lives on the heap [st], its trackers
    described by [D]. *)
Definition built (D : nat -> Q) (st : store) (c : Real) : Prop :=
  algebraic c /\ consistent D c /\ allocated (next st) c.

(** The description of the trackers once the node allocated next has the
    value [v]. *)
Definition describe (D : nat -> Q) (st : store) (v : Q) : nat -> Q :=
  fun k => if (k =? next st)%nat then v else D k.

(** The constructor call [m] returns an expression of value [v] that is built
    on the heap it leaves, and keeps what was built before. *)
Definition builds (D : nat -> Q) (st : store) (m : M Real) (v : Q) : Prop :=
  exists c st' D',
    m st = (Ok c, st') /\ (value c == v)%Q /\ built D' st' c /\ trackerInv D' st' /\
    (forall x, built D st x -> built D' st' x).

(** The value of the continued fraction [x0; x1, x2, ...]: the last element
    alone, and x + 1/(the rest) before it; 0 for no element. *)
Fixpoint cfValue (xs : list Q) : Q :=
  match xs with
  | [] => 0%Q
  | x :: rest =>
      match rest with
      | [] => x
      | _ => (x + / cfValue rest)%Q
      end
  end.

(** ** Conversion from float64 (lines 328-348)

    A [float64] is given by its IEEE 754 bit pattern, [math.Float64bits(f)],
    a 64-bit unsigned integer. *)

(** [math.IsNaN(f) || math.IsInf(f, 0)]: the exponent field is all ones. *)
Definition float64IsNaNOrInf (f : Z) : bool :=
  Z.land (Z.shiftr f 52) (Z.shiftl 1 11 - 1) =? Z.shiftl 1 11 - 1.

(** [f < 0] on a float that is not a NaN: the sign is set and the number is
    not the negative zero. *)
Definition float64Negative (f : Z) : bool :=
  Z.testbit f 63 && negb (Z.ldiff f (Z.shiftl 1 63) =? 0).

Definition FromFloat64 (f : Z) : M Real :=
  if float64IsNaNOrInf f then ret Nil
  else
    let bits := Z.ldiff f (Z.shiftl 1 63) in
    let mantissa := Z.land bits (Z.shiftl 1 52 - 1) in
    let exponent := sub (Z.land (Z.shiftr bits 52) (Z.shiftl 1 11 - 1)) 1075 in
    let mantissa :=
      if negb (exponent =? 0) then uint (mantissa + Z.shiftl 1 52)
      else uint (Z.shiftl mantissa 1) in
    do i <- newInteger (wrap mantissa);
    do r <- ShiftLeft i exponent;
    if float64Negative f then newNegation r else ret r.

(** The bit pattern with sign [s], biased exponent [e] and fraction [m], and
    the number IEEE 754 assigns to it when [e] is not 2047. *)
Definition float64Bits (s e m : Z) : Z := s * 2 ^ 63 + e * 2 ^ 52 + m.

Definition float64Value (s e m : Z) : Q :=
  ((if s =? 1 then - (1) else 1) *
   (if e =? 0 then inject_Z m * pow2 (-1074)
    else inject_Z (2 ^ 52 + m) * pow2 (e - 1075)))%Q.

(** ** The precision limit carried by a context (precision_limit.go) *)

(** A [context.Context] as a chain of [context.WithValue]s; only the key
    [precisionLimitKey{}] and values of type [int] are told apart. *)
Inductive ctxKey : Type :=
| precisionLimitKey
| otherKey (id : nat).

Inductive ctxValue : Type :=
| intValue (i : Z)
| otherValue.

Inductive Context : Type :=
| Background
| WithValue (parent : Context) (key : ctxKey) (val : ctxValue).

Definition ctxKey_eqb (a b : ctxKey) : bool :=
  match a, b with
  | precisionLimitKey, precisionLimitKey => true
  | otherKey x, otherKey y => (x =? y)%nat
  | _, _ => false
  end.

(** [ctx.Value(key)]: the innermost value stored under the key. *)
Fixpoint Value (ctx : Context) (key : ctxKey) : option ctxValue :=
  match ctx with
  | Background => None
  | WithValue parent k v => if ctxKey_eqb k key then Some v else Value parent key
  end.

Definition WithoutPrecisionLimit (parent : Context) : Context :=
  WithValue parent precisionLimitKey (intValue MaxInt).

Definition WithPrecisionLimit (parent : Context) (limit : Z) : Context :=
  let limit := if limit <? 0 then neg limit else limit in
  WithValue parent precisionLimitKey (intValue limit).

(** The type assertion [.(int)] gives the zero value and false on a miss. *)
Definition PrecisionLimit (ctx : Context) : Z * bool :=
  match Value ctx precisionLimitKey with
  | Some (intValue limit) => (limit, true)
  | _ => (0, false)
  end.

Inductive error : Type :=
| PrecisionOverflow.

Definition CheckPrecisionOverflow (ctx : Context) (p : Z) : option error :=
  let '(limit, ok) := PrecisionLimit ctx in
  if ok && (0 <=? limit) then
    if limit <? p then Some PrecisionOverflow else None
  else None.

(** [Abs], [Max] and [Min] (lines 578-605): the arguments are built before
    the selecting node is allocated. *)
Definition newCondsign (r a b : Real) : M Real :=
  do t <- alloc; ret (constructiveCondsign t a b r).

Definition Abs (c : Real) : M Real := do n <- Negate c; newCondsign c n c.
Definition Max (a b : Real) : M Real := do d <- Subtract a b; newCondsign d b a.
Definition Min (a b : Real) : M Real := do d <- Subtract a b; newCondsign d a b.

(** The value a selecting node stands for: [a] where the selector [r] is
    negative, [b] elsewhere. *)
Definition selected (r a b : Q) : Q := if Qlt_le_dec r 0 then a else b.

(** * Properties *)

(** ** The model on entries of the test suite *)

Example scale_one_down : scale 1 (-1) = 1.
Proof. reflexivity. Qed.

Example scale_minus_one_down : scale (-1) (-1) = 0.
Proof. reflexivity. Qed.

Example floatSqrtSeed_exact : floatSqrtSeed (2 ^ 120) = 2 ^ 60.
Proof. vm_compute. reflexivity. Qed.

Section Examples.

(** Entries of [TestText] and [TestApproximate] that need no series. *)
Example text_ten : run (do c <- FromInt 10; Text 0 c 5 10) = Ok "10.00000".
Proof. vm_compute. reflexivity. Qed.

Example text_minus_ten_hex :
  run (do c <- FromInt 10; do n <- Negate c; Text 0 n 5 16) = Ok "-a.00000".
Proof. vm_compute. reflexivity. Qed.

Example text_ninth_binary :
  run (do c <- FromInt 9; do i <- Inverse c; Text 0 i 20 2) = Ok "0.00011100011100011101".
Proof. vm_compute. reflexivity. Qed.

Example text_ninth_base12 :
  run (do c <- FromInt 9; do i <- Inverse c; Text 0 i 20 12) = Ok "0.14000000000000000000".
Proof. vm_compute. reflexivity. Qed.

Example text_4096 :
  run (do a <- FromInt 1; do b <- FromInt 4096; do q <- Divide a b;
       do one <- FromInt 1; do s <- Add one q; Text 0 s 15 10) = Ok "1.000244140625000".
Proof. vm_compute. reflexivity. Qed.

Example approximate_one_at_1 : run (do c <- FromInt64 1; Approximate 0 c 1) = Ok (Some 1).
Proof. vm_compute. reflexivity. Qed.

Example text_sqrt11 :
  run (do c <- FromInt 11; do s <- Sqrt c; Text 5 s 5 10) = Ok "3.31662".
Proof. vm_compute. reflexivity. Qed.

Example text_inverse_zero :
  run (do c <- FromInt 0; do i <- Inverse c; Text 0 i 5 10) = Ok "<undefined: division by zero>".
Proof. vm_compute. reflexivity. Qed.

End Examples.

(** ** Machine arithmetic without overflow *)

Lemma wrap_id z : int_range z -> wrap z = z.
Proof.
  unfold int_range, wrap, MinInt, MaxInt, IntSize. intros H.
  rewrite Z.mod_small; lia.
Qed.

Lemma wrap_range z : int_range (wrap z).
Proof.
  unfold int_range, wrap, MinInt, MaxInt, IntSize.
  pose proof (Z.mod_pos_bound (z + 2 ^ (64 - 1)) (2 ^ 64) ltac:(lia)). lia.
Qed.

Lemma MinInt_val : MinInt = -9223372036854775808.
Proof. reflexivity. Qed.

Lemma MaxInt_val : MaxInt = 9223372036854775807.
Proof. reflexivity. Qed.

Lemma int_range_iff z : int_range z <-> -9223372036854775808 <= z <= 9223372036854775807.
Proof. unfold int_range. rewrite MinInt_val, MaxInt_val. tauto. Qed.

Lemma wrap_small z : -9223372036854775808 <= z <= 9223372036854775807 -> wrap z = z.
Proof. intros H. apply wrap_id, int_range_iff, H. Qed.

Lemma uint_small z : 0 <= z <= 9223372036854775807 -> uint z = z.
Proof. intros H. unfold uint, IntSize. apply Z.mod_small. lia. Qed.

(** Rewrites every machine operation whose exact result is in range. *)
Ltac int_simpl :=
  unfold add, sub, mul, neg, quot;
  repeat match goal with
         | |- context [wrap ?z] => rewrite (wrap_small z) by lia
         | |- context [uint ?z] => rewrite (uint_small z) by lia
         end.

(** ** Rounding of [scale] *)

Lemma signedShift_right i n :
  -9223372036854775807 <= n <= 0 -> signedShift i n = i / 2 ^ (- n).
Proof.
  intros Hn. unfold signedShift.
  destruct (Z.ltb_spec n 0) as [Hlt | Hge].
  - int_simpl. unfold bigRsh. now rewrite Z.shiftr_div_pow2 by lia.
  - assert (n = 0) by lia. subst n. simpl. now rewrite Z.div_1_r.
Qed.

Lemma signedShift_left i n :
  0 <= n <= 9223372036854775807 -> signedShift i n = i * 2 ^ n.
Proof.
  intros Hn. unfold signedShift.
  destruct (Z.ltb_spec n 0) as [Hlt | Hge]; [lia |].
  destruct (Z.ltb_spec 0 n) as [Hpos | Hz].
  - int_simpl. unfold bigLsh. now rewrite Z.shiftl_mul_pow2 by lia.
  - assert (n = 0) by lia. subst n. simpl. lia.
Qed.

(** For a negative [n], [scale i n] is the floor of (i + 2^(-n-1)) / 2^(-n). *)
Lemma scale_down_div i n :
  -9223372036854775808 <= n < 0 -> scale i n = (i + 2 ^ (- n - 1)) / 2 ^ (- n).
Proof.
  intros Hn. unfold scale.
  destruct (Z.leb_spec 0 n) as [Hge | Hlt]; [lia |].
  replace (add n 1) with (n + 1) by (int_simpl; reflexivity).
  rewrite signedShift_right by lia.
  unfold bigRsh. rewrite Z.shiftr_div_pow2 by lia.
  replace (- (n + 1)) with (- n - 1) by lia.
  replace (2 ^ (- n)) with (2 ^ (- n - 1) * 2 ^ 1)
    by (rewrite <- Z.pow_add_r by lia; f_equal; lia).
  assert (Hpos : 0 < 2 ^ (- n - 1)) by (apply Z.pow_pos_nonneg; lia).
  rewrite <- Z.div_div by lia.
  f_equal.
  replace (i + 2 ^ (- n - 1)) with (i + 1 * 2 ^ (- n - 1)) by lia.
  rewrite Z.div_add by lia. reflexivity.
Qed.

Lemma scale_up i n : 0 <= n <= 9223372036854775807 -> scale i n = i * 2 ^ n.
Proof.
  intros Hn. unfold scale.
  destruct (Z.leb_spec 0 n) as [Hge | Hlt]; [| lia].
  int_simpl. unfold bigLsh. now rewrite Z.shiftl_mul_pow2 by lia.
Qed.

(** The result is a nearest integer, the tie going up. *)
Lemma scale_down_bounds i n :
  -9223372036854775808 <= n < 0 ->
  scale i n * 2 ^ (- n) - 2 ^ (- n - 1) <= i < scale i n * 2 ^ (- n) + 2 ^ (- n - 1).
Proof.
  intros Hn. rewrite scale_down_div by lia.
  assert (Hpos : 0 < 2 ^ (- n - 1)) by (apply Z.pow_pos_nonneg; lia).
  assert (Hk : 2 ^ (- n) = 2 * 2 ^ (- n - 1)).
  { replace (- n) with (1 + (- n - 1)) at 1 by lia.
    rewrite Z.pow_add_r by lia. reflexivity. }
  pose proof (Z.div_mod (i + 2 ^ (- n - 1)) (2 ^ (- n)) ltac:(lia)) as Hdm.
  pose proof (Z.mod_pos_bound (i + 2 ^ (- n - 1)) (2 ^ (- n)) ltac:(lia)) as Hmod.
  lia.
Qed.

(** C3, as stated, fails: [scale (-1) (-1)] is 0, while -1/2 rounded half
    away from zero is -1. *)
Lemma scale_not_half_away_from_zero :
  scale (-1) (-1) <> roundHalfAwayFromZero (-1) (-1).
Proof. vm_compute. discriminate. Qed.

(** C3, amended: for every integer i and every negative machine integer n,
    [scale i n] is i * 2^n rounded to the nearest integer with a tie going up
    (toward plus infinity); it agrees with rounding half away from zero
    whenever i is not negative or i * 2^n is not a tie. *)
Theorem scale_rounds_half_up (i n : Z) :
  -9223372036854775808 <= n < 0 ->
  scale i n = (i + 2 ^ (- n - 1)) / 2 ^ (- n) /\
  scale i n * 2 ^ (- n) - 2 ^ (- n - 1) <= i < scale i n * 2 ^ (- n) + 2 ^ (- n - 1) /\
  (0 <= i \/ (i + 2 ^ (- n - 1)) mod 2 ^ (- n) <> 0 ->
   scale i n = roundHalfAwayFromZero i n).
Proof.
  intros Hn. split; [now apply scale_down_div |].
  split; [now apply scale_down_bounds |].
  intros Hcase. rewrite scale_down_div by lia. unfold roundHalfAwayFromZero.
  assert (Hpos : 0 < 2 ^ (- n - 1)) by (apply Z.pow_pos_nonneg; lia).
  assert (Hk : 2 ^ (- n) = 2 * 2 ^ (- n - 1)).
  { replace (- n) with (1 + (- n - 1)) at 1 by lia.
    rewrite Z.pow_add_r by lia. reflexivity. }
  destruct (Z.lt_trichotomy i 0) as [Hneg | [Hzero | Hpos']].
  - destruct Hcase as [Hge | Htie]; [lia |].
    rewrite Z.sgn_neg, Z.abs_neq by lia.
    set (h := 2 ^ (- n - 1)) in *. set (k := 2 ^ (- n)) in *.
    pose proof (Z.div_mod (i + h) k ltac:(lia)) as Hdm.
    pose proof (Z.mod_pos_bound (i + h) k ltac:(lia)) as Hmod.
    set (q := (i + h) / k) in *. set (r := (i + h) mod k) in *.
    assert (Hq : (- i + h) / k = - q).
    { symmetry. apply (Z.div_unique_pos _ _ _ (k - r)); lia. }
    rewrite Hq. lia.
  - subst i. rewrite Z.add_0_l. simpl Z.sgn. simpl Z.abs. rewrite Z.add_0_l.
    rewrite Z.div_small by lia. reflexivity.
  - rewrite Z.sgn_pos, Z.abs_eq by lia. lia.
Qed.

Lemma scale_rounds_half_up_witness :
  scale (-3) (-1) = (-3 + 2 ^ (- -1 - 1)) / 2 ^ (- -1) /\
  scale (-3) (-1) * 2 ^ (- -1) - 2 ^ (- -1 - 1) <= -3
    < scale (-3) (-1) * 2 ^ (- -1) + 2 ^ (- -1 - 1) /\
  (0 <= -3 \/ (-3 + 2 ^ (- -1 - 1)) mod 2 ^ (- -1) <> 0 ->
   scale (-3) (-1) = roundHalfAwayFromZero (-3) (-1)).
Proof. apply (scale_rounds_half_up (-3) (-1)). lia. Defined.
(** ** Validity of a precision *)

Lemma IsIntWithinBitTolerance_range value tolerance :
  IsIntWithinBitTolerance value tolerance = true <-> - 2 ^ 60 <= value < 2 ^ 60.
Proof.
  unfold IsIntWithinBitTolerance.
  change (IntSize - 4) with 60. change (IntSize - 3) with 61.
  rewrite Z.eqb_eq, Z.lxor_eq_0_iff, !Z.shiftr_div_pow2 by lia.
  replace (2 ^ 61) with (2 ^ 60 * 2) by reflexivity.
  rewrite <- Z.div_div by lia.
  pose proof (Z.div_mod value (2 ^ 60) ltac:(lia)) as Hdm.
  pose proof (Z.mod_pos_bound value (2 ^ 60) ltac:(lia)) as Hmod.
  set (h := value / 2 ^ 60) in *.
  pose proof (Z.div_mod h 2 ltac:(lia)) as Hdm2.
  pose proof (Z.mod_pos_bound h 2 ltac:(lia)) as Hmod2.
  split; intros H; lia.
Qed.

Lemma IsPrecisionValid_range p : IsPrecisionValid p = true <-> - 2 ^ 60 <= p < 2 ^ 60.
Proof. exact (IsIntWithinBitTolerance_range p 4). Qed.

Lemma topBits_of_quotient v j :
  0 <= j -> Z.testbit v (60 + j) = Z.testbit (v / 2 ^ 60) j.
Proof.
  intros Hj. rewrite <- Z.shiftr_div_pow2 by lia.
  rewrite Z.shiftr_spec by lia. f_equal. lia.
Qed.

Lemma topBitsAll_range v :
  int_range v ->
  (topBitsAll false v \/ topBitsAll true v) <-> - 2 ^ 60 <= v < 2 ^ 60.
Proof.
  intros Hr. pose proof (proj1 (int_range_iff v) Hr) as Hr'. unfold topBitsAll.
  change 63 with (60 + 3). change 62 with (60 + 2). change 61 with (60 + 1).
  replace 60 with (60 + 0) at 4 8 by reflexivity.
  rewrite !topBits_of_quotient by lia.
  pose proof (Z.div_mod v (2 ^ 60) ltac:(lia)) as Hdm.
  pose proof (Z.mod_pos_bound v (2 ^ 60) ltac:(lia)) as Hmod.
  change (2 ^ 60) with 1152921504606846976 in *.
  set (h := v / 1152921504606846976) in *.
  assert (Hh : -8 <= h <= 7) by lia.
  assert (Hcases : h = -8 \/ h = -7 \/ h = -6 \/ h = -5 \/ h = -4 \/ h = -3 \/ h = -2 \/
                   h = -1 \/ h = 0 \/ h = 1 \/ h = 2 \/ h = 3 \/ h = 4 \/ h = 5 \/
                   h = 6 \/ h = 7) by lia.
  split.
  - intros Hbits.
    repeat (destruct Hcases as [Hc | Hcases]; [rewrite Hc in Hbits; cbn in Hbits |]);
      try rewrite Hcases in Hbits; cbn in Hbits;
      try (destruct Hbits as [[? [? [? ?]]] | [? [? [? ?]]]]; discriminate);
      lia.
  - intros Hrange. assert (Hc : h = 0 \/ h = -1) by lia.
    destruct Hc as [Hc | Hc]; rewrite Hc; cbn; tauto.
Qed.

(** C9: [IsIntWithinBitTolerance] does not depend on its tolerance; whatever
    tolerance is passed, it tests that the top four bits of the (64-bit) value
    all agree, that is, are all 0 or all 1. *)
Theorem IsIntWithinBitTolerance_ignores_tolerance (value t1 t2 : Z) :
  int_range value ->
  IsIntWithinBitTolerance value t1 = IsIntWithinBitTolerance value t2 /\
  (IsIntWithinBitTolerance value t1 = true <->
   topBitsAll false value \/ topBitsAll true value).
Proof.
  intros Hr. split; [reflexivity |].
  rewrite IsIntWithinBitTolerance_range. symmetry. now apply topBitsAll_range.
Qed.

Lemma IsIntWithinBitTolerance_ignores_tolerance_witness :
  IsIntWithinBitTolerance (2 ^ 60) 4 = IsIntWithinBitTolerance (2 ^ 60) 60 /\
  (IsIntWithinBitTolerance (2 ^ 60) 4 = true <->
   topBitsAll false (2 ^ 60) \/ topBitsAll true (2 ^ 60)).
Proof.
  apply (IsIntWithinBitTolerance_ignores_tolerance (2 ^ 60) 4 60).
  apply int_range_iff. change (2 ^ 60) with 1152921504606846976. lia.
Defined.

(** A tolerance of 60 bits is reported as met by a value that leaves only
    three bits unused. *)
Example IsIntWithinBitTolerance_doc_mismatch :
  IsIntWithinBitTolerance (2 ^ 59) 60 = true /\ IsIntWithinBitTolerance (2 ^ 60) 1 = false.
Proof. split; reflexivity. Qed.
(** ** The gatekeeper at an invalid precision *)

Lemma Approximate_with_invalid tr f p st :
  IsPrecisionValid p = false -> Approximate_with tr f p st = (Ok None, st).
Proof. intros H. unfold Approximate_with. rewrite H. reflexivity. Qed.

(** C5: a precision is valid exactly when its top four bits are all 0 or all
    1; at an invalid precision [Approximate] returns nil for every node and
    every heap, leaves the heap as it was, and does so whatever the tracker
    holds and whatever the node's [approximate] method would do. *)
Theorem Approximate_invalid_precision (p : Z) :
  int_range p ->
  (IsPrecisionValid p = true <-> topBitsAll false p \/ topBitsAll true p) /\
  (IsPrecisionValid p = false ->
   (forall fuel c st, Approximate fuel c p st = (Ok None, st)) /\
   (forall tr method st, Approximate_with tr method p st = (Ok None, st))).
Proof.
  intros Hr. split.
  - rewrite IsPrecisionValid_range. symmetry. now apply topBitsAll_range.
  - intros Hinv. split.
    + intros fuel c st. unfold Approximate. now apply Approximate_with_invalid.
    + intros tr method st. now apply Approximate_with_invalid.
Qed.

Lemma Approximate_invalid_precision_witness :
  (IsPrecisionValid (2 ^ 60) = true <-> topBitsAll false (2 ^ 60) \/ topBitsAll true (2 ^ 60)) /\
  (IsPrecisionValid (2 ^ 60) = false ->
   (forall fuel c st, Approximate fuel c (2 ^ 60) st = (Ok None, st)) /\
   (forall tr method st, Approximate_with tr method (2 ^ 60) st = (Ok None, st))).
Proof.
  apply (Approximate_invalid_precision (2 ^ 60)).
  apply int_range_iff. change (2 ^ 60) with 1152921504606846976. lia.
Defined.

Example IsPrecisionValid_boundaries :
  IsPrecisionValid (2 ^ 60 - 1) = true /\ IsPrecisionValid (2 ^ 60) = false /\
  IsPrecisionValid (- 2 ^ 60) = true /\ IsPrecisionValid (- 2 ^ 60 - 1) = false.
Proof. repeat split; reflexivity. Qed.

(** ** The precision tracker *)

(** C6, as stated, fails on a tracker that is valid and holds a nil
    approximation: [Get] does not report a hit there, it panics inside
    [scale].  [Set q nil] leaves such a tracker, and the program reaches it:
    the square root of -4 answers nil at precision 0, the answer is cached,
    and the next request panics. *)
Lemma tracker_Get_after_Set_nil_panics :
  let t := snd (tracker_Set zeroTracker 0 None) in
  IsValid t = true /\ MinPrecision t <= 0 /\
  tracker_Get t 0 = Panic nilDeref /\
  run (do c <- FromInt (-4); do s <- Sqrt c; Approximate 0 s 0) = Ok None /\
  run (do c <- FromInt (-4); do s <- Sqrt c; do _ <- Approximate 0 s 0; Approximate 0 s 0)
    = Panic nilDeref.
Proof. cbv zeta. repeat split; vm_compute; first [reflexivity | discriminate]. Qed.

(** C6, amended: for every tracker, the zero value of a fresh node
    included, [Get p] misses, returning (nil, false), exactly when the tracker
    is not valid or p < MinPrecision; it reports a hit exactly when the
    tracker is valid, p >= MinPrecision and the cached approximation is not
    nil, and then returns [scale MaxApproximation (MinPrecision - p)]; when
    the tracker is valid, p >= MinPrecision and the cached approximation is
    nil, it panics with a nil pointer dereference.  [Set q v] replaces the
    entry by (true, v, q) whatever it was and whatever v is, and returns v;
    after [Set q v], [Get p] misses for every p < q, and for every p >= q it
    hits with [scale v (q - p)] when v is not nil and panics when v is nil. *)
Theorem tracker_Get_Set (t : precisionTracker) :
  (forall p,
     (tracker_Get t p = Ok (None, false) <->
      ~ (IsValid t = true /\ MinPrecision t <= p)) /\
     ((exists r, tracker_Get t p = Ok (r, true)) <->
      IsValid t = true /\ MinPrecision t <= p /\ MaxApproximation t <> None) /\
     (forall m, IsValid t = true -> MinPrecision t <= p -> MaxApproximation t = Some m ->
                tracker_Get t p = Ok (Some (scale m (sub (MinPrecision t) p)), true)) /\
     (IsValid t = true -> MinPrecision t <= p -> MaxApproximation t = None ->
      tracker_Get t p = Panic nilDeref)) /\
  (forall q v, tracker_Set t q v = (v, mkTracker true v q)) /\
  (forall q v p,
     let t' := snd (tracker_Set t q v) in
     (p < q -> tracker_Get t' p = Ok (None, false)) /\
     (q <= p ->
      match v with
      | Some z => tracker_Get t' p = Ok (Some (scale z (sub q p)), true)
      | None => tracker_Get t' p = Panic nilDeref
      end)).
Proof.
  split; [| split].
  - intros p. unfold tracker_Get.
    destruct (IsValid t) eqn:Hv; [rewrite andb_true_l | rewrite andb_false_l].
    + destruct (Z.leb_spec (MinPrecision t) p) as [Hle | Hgt].
      * destruct (MaxApproximation t) as [m |] eqn:Hm.
        -- split; [| split; [| split]].
           ++ split; [discriminate | intros Hn; exfalso; apply Hn; auto].
           ++ split; [intros _; repeat split; [exact Hle | discriminate] | intros _; eauto].
           ++ intros m' _ _ E. inversion E. reflexivity.
           ++ intros _ _ E. discriminate E.
        -- split; [| split; [| split]].
           ++ split; [discriminate | intros Hn; exfalso; apply Hn; auto].
           ++ split; [intros [r E]; discriminate E | intros (_ & _ & Hn); contradiction].
           ++ intros m' _ _ E. discriminate E.
           ++ intros _ _ _. reflexivity.
      * split; [| split; [| split]].
        -- split; [intros _ [_ H]; lia | reflexivity].
        -- split; [intros [r E]; discriminate E | intros (_ & H & _); lia].
        -- intros m' _ H _. lia.
        -- intros _ H _. lia.
    + split; [| split; [| split]].
      * split; [intros _ [H _]; discriminate H | reflexivity].
      * split; [intros [r E]; discriminate E | intros (H & _); discriminate H].
      * intros m' H. discriminate H.
      * intros H. discriminate H.
  - intros q v. reflexivity.
  - intros q v p. cbv zeta. unfold tracker_Set, tracker_Get.
    cbn [snd IsValid MaxApproximation MinPrecision]. rewrite andb_true_l.
    split; intros Hp.
    + destruct (Z.leb_spec q p); [lia | reflexivity].
    + destruct (Z.leb_spec q p); [| lia]. destruct v; reflexivity.
Qed.

(** Between valid precisions the subtraction does not wrap, and the hit is
    the cached value rescaled by 2^(MinPrecision - p), rounded. *)
Lemma tracker_Get_hit_valid t m p :
  MaxApproximation t = Some m -> IsValid t = true ->
  IsPrecisionValid (MinPrecision t) = true -> IsPrecisionValid p = true ->
  MinPrecision t <= p ->
  tracker_Get t p = Ok (Some (scale m (MinPrecision t - p)), true).
Proof.
  intros Hm Hv Hq Hp Hle.
  pose proof (proj1 (IsPrecisionValid_range _) Hq) as Hq'.
  pose proof (proj1 (IsPrecisionValid_range _) Hp) as Hp'.
  change (2 ^ 60) with 1152921504606846976 in *.
  unfold tracker_Get. rewrite Hm, Hv, andb_true_l.
  destruct (Z.leb_spec (MinPrecision t) p); [| lia].
  unfold sub. rewrite wrap_small by lia. reflexivity.
Qed.

(** A cached nil makes the next hit panic. *)
Example tracker_Get_nil : tracker_Get (mkTracker true None 0) 0 = Panic nilDeref.
Proof. reflexivity. Qed.
(** ** Comparison *)

Lemma doubling_valid k : (k <= 55)%nat -> IsPrecisionValid (-20 * 2 ^ Z.of_nat k) = true.
Proof.
  intros Hk. apply IsPrecisionValid_range.
  assert (H1 : 1 <= 2 ^ Z.of_nat k)
    by (pose proof (Z.pow_pos_nonneg 2 (Z.of_nat k) ltac:(lia) ltac:(lia)); lia).
  assert (H2 : 2 ^ Z.of_nat k <= 2 ^ 55) by (apply Z.pow_le_mono_r; lia).
  change (2 ^ 55) with 36028797018963968 in H2.
  change (2 ^ 60) with 1152921504606846976. lia.
Qed.

Lemma doubling_step k :
  (k <= 55)%nat -> mul (-20 * 2 ^ Z.of_nat k) 2 = -20 * 2 ^ Z.of_nat (S k).
Proof.
  intros Hk.
  assert (H1 : 1 <= 2 ^ Z.of_nat k)
    by (pose proof (Z.pow_pos_nonneg 2 (Z.of_nat k) ltac:(lia) ltac:(lia)); lia).
  assert (H2 : 2 ^ Z.of_nat k <= 2 ^ 55) by (apply Z.pow_le_mono_r; lia).
  change (2 ^ 55) with 36028797018963968 in H2.
  rewrite Nat2Z.inj_succ, Z.pow_succ_r by lia.
  unfold mul. rewrite wrap_small by lia. lia.
Qed.

(** With a budget of at least 57 iterations the loop of [Cmp] leaves through
    one of its two [return]s. *)
Lemma Cmp_loop_doublings fuel a b :
  forall m j n, (j + m = 56)%nat -> (m < n)%nat ->
    forall st, Cmp_loop n fuel a b (-20 * 2 ^ Z.of_nat j) st =
               firstNonzeroCmp fuel a b (doublings j m) st.
Proof.
  induction m as [| m IH]; intros j n Hj Hn st.
  - destruct n as [| n]; [lia |]. assert (j = 56)%nat by lia. subst j.
    reflexivity.
  - destruct n as [| n]; [lia |].
    unfold doublings. cbn [seq map firstNonzeroCmp Cmp_loop].
    rewrite doubling_valid by lia. cbn [negb].
    unfold bind. destruct (PreciseCmp fuel a b _ st) as [[v | msg |] st']; try reflexivity.
    destruct (negb (v =? 0)); [reflexivity |].
    rewrite doubling_step by lia.
    apply (IH (S j) n); lia.
Qed.

(** C7: [PreciseCmp a b p] asks for both approximations at p - 1, [b] after
    [a] on the heap [a] left; it answers 1 when [a]'s approximation exceeds
    [b]'s by more than 1, -1 when it is below by more than 1, and 0 otherwise,
    in particular when one of the two is nil.  [Cmp] tries -20, -40, -80, ...
    by doubling, answers with the first nonzero [PreciseCmp] and with 0 once
    the precision is no longer valid, which happens after 56 precisions. *)
Theorem PreciseCmp_Cmp_spec (fuel n : nat) (a b : Real) (p : Z) (st st1 st2 : store)
    (ia ib : bigInt) :
  isNil a = false -> isNil b = false ->
  Approximate fuel a (sub p 1) st = (Ok ia, st1) ->
  Approximate fuel b (sub p 1) st1 = (Ok ib, st2) ->
  (57 <= n)%nat ->
  (exists r, PreciseCmp fuel a b p st = (Ok r, st2) /\
     (r = 1 \/ r = -1 \/ r = 0) /\
     (r = 1 <-> exists x y, ia = Some x /\ ib = Some y /\ 1 < x - y) /\
     (r = -1 <-> exists x y, ia = Some x /\ ib = Some y /\ 1 < y - x)) /\
  (forall st0, Cmp_loop n fuel a b (-20) st0 = firstNonzeroCmp fuel a b cmpPrecisions st0) /\
  Forall (fun q => IsPrecisionValid q = true) cmpPrecisions /\
  IsPrecisionValid (-20 * 2 ^ 56) = false.
Proof.
  intros Ha Hb HA HB Hn. split; [| split; [| split]].
  - unfold PreciseCmp. rewrite Ha, Hb. cbn [orb]. unfold bind. rewrite HA, HB.
    destruct ia as [x |], ib as [y |].
    + destruct (Z.ltb_spec (y + 1) x) as [H1 | H1].
      * exists 1. split; [reflexivity |]. split; [tauto |]. split.
        -- split; [intros _; exists x, y; repeat split; lia | reflexivity].
        -- split; [discriminate |]. intros (x' & y' & Hx & Hy & Hlt).
           inversion Hx; inversion Hy; subst. lia.
      * destruct (Z.ltb_spec x (y - 1)) as [H2 | H2].
        -- exists (-1). split; [reflexivity |]. split; [tauto |]. split.
           ++ split; [discriminate |]. intros (x' & y' & Hx & Hy & Hlt).
              inversion Hx; inversion Hy; subst. lia.
           ++ split; [intros _; exists x, y; repeat split; lia | reflexivity].
        -- exists 0. split; [reflexivity |]. split; [tauto |].
           split; (split; [discriminate |]); intros (x' & y' & Hx & Hy & Hlt);
             inversion Hx; inversion Hy; subst; lia.
    + exists 0. split; [reflexivity |]. split; [tauto |].
      split; (split; [discriminate |]); intros (x' & y' & Hx & Hy & Hlt); discriminate.
    + exists 0. split; [reflexivity |]. split; [tauto |].
      split; (split; [discriminate |]); intros (x' & y' & Hx & Hy & Hlt); discriminate.
    + exists 0. split; [reflexivity |]. split; [tauto |].
      split; (split; [discriminate |]); intros (x' & y' & Hx & Hy & Hlt); discriminate.
  - intros st0. apply (Cmp_loop_doublings fuel a b 56 0 n); lia.
  - unfold cmpPrecisions, doublings. apply Stdlib.Lists.List.Forall_forall. intros q Hq.
    apply in_map_iff in Hq. destruct Hq as (k & <- & Hk).
    apply in_seq in Hk. apply doubling_valid. lia.
  - reflexivity.
Qed.

Lemma PreciseCmp_Cmp_spec_witness :
  let a := constructiveInteger 0 1 in
  let b := constructiveInteger 1 2 in
  let st1 := setTracker emptyStore 0%nat (mkTracker true (Some (2 ^ 51)) (-51)) in
  let st2 := setTracker st1 1%nat (mkTracker true (Some (2 ^ 52)) (-51)) in
  (exists r, PreciseCmp 0 a b (-50) emptyStore = (Ok r, st2) /\
     (r = 1 \/ r = -1 \/ r = 0) /\
     (r = 1 <-> exists x y, Some (2 ^ 51) = Some x /\ Some (2 ^ 52) = Some y /\ 1 < x - y) /\
     (r = -1 <-> exists x y, Some (2 ^ 51) = Some x /\ Some (2 ^ 52) = Some y /\ 1 < y - x)) /\
  (forall st0, Cmp_loop 57 0 a b (-20) st0 = firstNonzeroCmp 0 a b cmpPrecisions st0) /\
  Forall (fun q => IsPrecisionValid q = true) cmpPrecisions /\
  IsPrecisionValid (-20 * 2 ^ 56) = false.
Proof.
  intros a b st1 st2.
  apply (PreciseCmp_Cmp_spec 0 57 a b (-50) emptyStore st1 st2 (Some (2 ^ 51)) (Some (2 ^ 52)));
    reflexivity.
Defined.

(** A nil operand is answered with 0 before anything is approximated. *)
Lemma PreciseCmp_nil fuel a b p st :
  isNil a = true \/ isNil b = true -> PreciseCmp fuel a b p st = (Ok 0, st).
Proof.
  intros H. unfold PreciseCmp.
  destruct H as [H | H]; rewrite H; [reflexivity |].
  rewrite orb_true_r. reflexivity.
Qed.
(** ** Continued fractions *)

Lemma ContinuedFraction64_loop_fold init :
  forall rest c st,
    ContinuedFraction64_loop (init ++ rest) (length init) c st =
    foldFractions64 (rev init) c st.
Proof.
  induction init as [| x init IH] using rev_ind; intros rest c st.
  - reflexivity.
  - rewrite length_app, Nat.add_comm. cbn [length Nat.add ContinuedFraction64_loop].
    rewrite rev_unit. cbn [foldFractions64].
    rewrite <- app_assoc. rewrite app_nth2 by lia. rewrite Nat.sub_diag. cbn [app nth].
    unfold bind.
    destruct (FromInt64 x st) as [[x' | msg |] st1]; try reflexivity.
    destruct (Inverse c st1) as [[ic | msg |] st2]; try reflexivity.
    destruct (Add x' ic st2) as [[c' | msg |] st3]; try reflexivity.
    apply IH.
Qed.

Lemma ContinuedFraction_loop_fold init :
  forall rest c st,
    ContinuedFraction_loop (init ++ rest) (length init) c st =
    foldFractions (rev init) c st.
Proof.
  induction init as [| x init IH] using rev_ind; intros rest c st.
  - reflexivity.
  - rewrite length_app, Nat.add_comm. cbn [length Nat.add ContinuedFraction_loop].
    rewrite rev_unit. cbn [foldFractions].
    rewrite <- app_assoc. rewrite app_nth2 by lia. rewrite Nat.sub_diag. cbn [app nth].
    unfold bind.
    destruct (Inverse c st) as [[ic | msg |] st2]; try reflexivity.
    destruct (Add x ic st2) as [[c' | msg |] st3]; try reflexivity.
    apply IH.
Qed.

Lemma Zero_built st :
  onceZeroBuilt st ->
  exists k st', Zero st = (Ok (named (constructiveInteger k 0) "0"), st') /\ onceZeroBuilt st'.
Proof.
  unfold onceZeroBuilt, Zero. intros H.
  destruct (onceZero st) as [r |] eqn:Hz.
  - destruct H as [k ->]. exists k, st. rewrite Hz. split; [reflexivity | eauto].
  - exists (next st). eexists. split; [reflexivity |]. cbn. eauto.
Qed.

(** C10: on the empty slice both functions return what [Zero()] returns, the
    named constant 0, not nil and without failing; on a slice with a last
    element they start from that element and fold c <- fracs[i] + 1/c over
    the earlier ones from right to left. *)
Theorem ContinuedFraction_empty_and_fold (st : store) :
  onceZeroBuilt st ->
  ContinuedFraction64 [] st = Zero st /\
  ContinuedFraction [] st = Zero st /\
  (exists k st', Zero st = (Ok (named (constructiveInteger k 0) "0"), st')) /\
  (forall init last,
     ContinuedFraction64 (init ++ [last]) st =
     (do c <- FromInt64 last; foldFractions64 (rev init) c) st) /\
  (forall init last,
     ContinuedFraction (init ++ [last]) st = foldFractions (rev init) last st).
Proof.
  intros Hst. split; [reflexivity |]. split; [reflexivity |]. split.
  - destruct (Zero_built st Hst) as (k & st' & Hz & _). eauto.
  - split; intros init last.
    + unfold ContinuedFraction64. rewrite length_app, Nat.add_comm. cbn [length Nat.add Nat.eqb].
      replace (S (length init) - 1)%nat with (length init) by lia. rewrite app_nth2 by lia. rewrite Nat.sub_diag. cbn [nth].
      unfold bind. destruct (FromInt64 last st) as [[c | msg |] st1]; try reflexivity.
      apply ContinuedFraction64_loop_fold.
    + unfold ContinuedFraction. rewrite length_app, Nat.add_comm. cbn [length Nat.add Nat.eqb].
      replace (S (length init) - 1)%nat with (length init) by lia. rewrite app_nth2 by lia. rewrite Nat.sub_diag. cbn [nth].
      apply ContinuedFraction_loop_fold.
Qed.

Lemma ContinuedFraction_empty_and_fold_witness :
  ContinuedFraction64 [] emptyStore = Zero emptyStore /\
  ContinuedFraction [] emptyStore = Zero emptyStore /\
  (exists k st', Zero emptyStore = (Ok (named (constructiveInteger k 0) "0"), st')) /\
  (forall init last,
     ContinuedFraction64 (init ++ [last]) emptyStore =
     (do c <- FromInt64 last; foldFractions64 (rev init) c) emptyStore) /\
  (forall init last,
     ContinuedFraction (init ++ [last]) emptyStore = foldFractions (rev init) last emptyStore).
Proof. apply (ContinuedFraction_empty_and_fold emptyStore). exact I. Defined.

(** [2; 1, 3, 4], the slice of the test suite: the graph that is built. *)
Example ContinuedFraction64_2134 :
  run (ContinuedFraction64 [2; 1; 3; 4]) =
  Ok (constructiveAddition 9 (constructiveInteger 7 2)
        (constructiveMultiplicativeInverse 8
           (constructiveAddition 6 (constructiveInteger 4 1)
              (constructiveMultiplicativeInverse 5
                 (constructiveAddition 3 (constructiveInteger 1 3)
                    (constructiveMultiplicativeInverse 2 (constructiveInteger 0 4))))))).
Proof. reflexivity. Qed.
(** ** The multiplicative inverse *)

(** C2 (the code departs from the claim): the approximation of 1/(-2) at
    precision -5 should be -16; the quotient by the signed divisor is already
    negative, the sign test negates it, and 16 is returned. *)
Theorem Inverse_negative_argument :
  run (do c <- FromInt (-2); do i <- Inverse c; Approximate 0 i (-7)) = Ok (Some 64) /\
  run (do c <- FromInt (-2); do i <- Inverse c; Approximate 0 i (-5)) = Ok (Some 16) /\
  run (do c <- FromInt (-2); Approximate 0 c (-7)) = Ok (Some (-256)) /\
  run (do c <- FromInt (-2); do i <- Inverse c; Text 0 i 5 10) = Ok "0.50000".
Proof. repeat split; vm_compute; reflexivity. Qed.
(** ** Domain errors of [Ln] and [Sqrt] *)

(** C4, as stated, fails: the probe of 0 at precision -4 is 0, which is not
    positive, and [Ln] does not return nil but goes on to [Inverse] and panics;
    [Sqrt] of -4 returns a node. *)
Lemma Ln_zero_probe_and_Sqrt_negative_not_nil :
  run (do c <- FromInt 0; Approximate 10 c (-4)) = Ok (Some 0) /\
  run (do c <- FromInt 0; Ln 10 c) = Panic divisionByZero /\
  run (do c <- FromInt (-4); Sqrt c) = Ok (prescaledSqrt 1 (constructiveInteger 0 (-4))).
Proof. repeat split; vm_compute; reflexivity. Qed.

Lemma msd_unfold fuel r n :
  msd fuel r n = msd_with (Approximate_with (trackerOf r) (approximate fuel r)) (trackerOf r) n.
Proof. unfold msd, Approximate. reflexivity. Qed.

Lemma Approximate_unfold fuel r p :
  Approximate fuel r p = Approximate_with (trackerOf r) (approximate fuel r) p.
Proof. reflexivity. Qed.

Lemma prescaledSqrt_seed_nil fuel t r p st mr st1 a st2 :
  msd fuel r (sub (mul 2 p) 1) st = (Ok mr, st1) ->
  sub (mul 2 p) 1 < mr ->
  sub (quot mr 2) p <= 40 ->
  Approximate fuel r (Z.ldiff (sub mr 60) 1) st1 = (Ok (Some a), st2) ->
  a < 0 ->
  approximate fuel (prescaledSqrt t r) p st = (Ok None, st2).
Proof.
  intros Hmsd Hmr Hdig Happr Ha.
  pose proof Hmsd as Hmsd'. rewrite msd_unfold in Hmsd'.
  pose proof Happr as Happr'. rewrite Approximate_unfold in Happr'.
  clear Hmsd Happr.
  assert (Hir : (bigLsh a 60 <? 0) = true).
  { apply Z.ltb_lt. unfold bigLsh. rewrite Z.shiftl_mul_pow2 by lia. lia. }
  destruct fuel; cbn [approximate]; unfold bind; rewrite Hmsd';
    (destruct (Z.leb_spec mr (sub (mul 2 p) 1)); [lia |]);
    (destruct (Z.ltb_spec 40 (sub (quot mr 2) p)); [lia |]);
    rewrite Happr'; cbn [deref]; unfold ret; rewrite Hir; reflexivity.
Qed.

(** C4, amended: [Ln c] returns nil at wrap time whenever its probe of [c] at
    precision -4 is negative, and allocates nothing then; [Sqrt c] never fails
    at wrap time, it returns a fresh square-root node for every [c]; a negative
    argument shows when that node is approximated: when the float-seeded branch
    is taken and the argument's approximation is negative, the approximation
    of the square root is nil. *)
Theorem Ln_negative_probe_Sqrt_wrap (fuel depth : nat) (c : Real) (st st1 : store) (rough : Z)
    (t : nat) (p mr a : Z) (sa sb sc : store) :
  Approximate fuel c (-4) st = (Ok (Some rough), st1) ->
  rough < 0 ->
  msd fuel c (sub (mul 2 p) 1) sa = (Ok mr, sb) ->
  sub (mul 2 p) 1 < mr ->
  sub (quot mr 2) p <= 40 ->
  Approximate fuel c (Z.ldiff (sub mr 60) 1) sb = (Ok (Some a), sc) ->
  a < 0 ->
  Ln_rec (S depth) fuel c st = (Ok Nil, st1) /\
  (forall x s, exists s', Sqrt x s = (Ok (prescaledSqrt (next s) x), s') /\
                          trackerAt s' (next s) = zeroTracker) /\
  approximate fuel (prescaledSqrt t c) p sa = (Ok None, sc).
Proof.
  intros Hprobe Hneg Hmsd Hmr Hdig Happr Ha. split; [| split].
  - cbn [Ln_rec]. unfold bind. rewrite Hprobe. cbn [deref]. unfold ret.
    destruct (Z.ltb_spec rough 0); [reflexivity | lia].
  - intros x s. eexists. split; [reflexivity |].
    unfold trackerAt. cbn [trackers]. rewrite lookup_delete_eq. reflexivity.
  - eapply prescaledSqrt_seed_nil; eassumption.
Qed.

Lemma Ln_negative_probe_Sqrt_wrap_witness :
  let c := constructiveInteger 0 (-4) in
  let s2 := setTracker emptyStore 0%nat (mkTracker true (Some (- 2 ^ 60)) (-58)) in
  Ln_rec 1 0 c emptyStore =
    (Ok Nil, setTracker emptyStore 0%nat (mkTracker true (Some (-64)) (-4))) /\
  (forall x s, exists s', Sqrt x s = (Ok (prescaledSqrt (next s) x), s') /\
                          trackerAt s' (next s) = zeroTracker) /\
  approximate 0 (prescaledSqrt 1 c) 0 emptyStore = (Ok None, s2).
Proof.
  intros c s2.
  apply (Ln_negative_probe_Sqrt_wrap 0 0 c emptyStore
           (setTracker emptyStore 0%nat (mkTracker true (Some (-64)) (-4))) (-64)
           1%nat 0 2 (- 2 ^ 60) emptyStore
           (setTracker emptyStore 0%nat (mkTracker true (Some (-16)) (-2))) s2);
    vm_compute; first [reflexivity | discriminate].
Defined.
(** ** Laws of the evaluation monad *)

Lemma bind_ok {A B} (m : M A) (k : A -> M B) st a st' :
  m st = (Ok a, st') -> bind m k st = k a st'.
Proof. intros H. unfold bind. now rewrite H. Qed.

Lemma bind_panic {A B} (m : M A) (k : A -> M B) st msg st' :
  m st = (Panic msg, st') -> bind m k st = (Panic msg, st').
Proof. intros H. unfold bind. now rewrite H. Qed.

Lemma bind_ret {A B} (a : A) (k : A -> M B) st : bind (ret a) k st = k a st.
Proof. reflexivity. Qed.

(** ** Text *)

Lemma append_cons ch (s1 s2 : string) : String ch s1 +:+ s2 = String ch (s1 +:+ s2).
Proof. reflexivity. Qed.

Lemma append_nil (s : string) : "" +:+ s = s.
Proof. reflexivity. Qed.

Lemma string_length_append (s1 s2 : string) :
  String.length (s1 +:+ s2) = (String.length s1 + String.length s2)%nat.
Proof.
  induction s1 as [| ch s1 IH]; [reflexivity |].
  rewrite append_cons. cbn [String.length]. rewrite IH. reflexivity.
Qed.

Lemma substring_length (s : string) :
  forall n m, (n + m <= String.length s)%nat -> String.length (substring n m s) = m.
Proof.
  induction s as [| ch s IH]; intros n m H; cbn in H.
  - assert (n = 0%nat) by lia. assert (m = 0%nat) by lia. subst. reflexivity.
  - destruct n as [| n]; cbn.
    + destruct m as [| m]; cbn; [reflexivity |]. rewrite (IH 0%nat m) by lia. reflexivity.
    + apply IH. lia.
Qed.

Lemma substring_split (s : string) :
  forall n, (n <= String.length s)%nat ->
    substring 0 n s +:+ substring n (String.length s - n) s = s.
Proof.
  induction s as [| ch s IH]; intros n H; cbn in H.
  - assert (n = 0%nat) by lia. subst. reflexivity.
  - destruct n as [| n].
    + rewrite append_nil. cbn. f_equal. specialize (IH 0%nat ltac:(lia)).
      rewrite Nat.sub_0_r in IH. destruct s; [reflexivity | exact IH].
    + cbn [substring String.length Nat.sub]. rewrite append_cons. f_equal. apply IH. lia.
Qed.

Lemma repeatString_length_1 ch n :
  String.length (repeatString (String ch "") n) = n.
Proof.
  induction n as [| n IH]; [reflexivity |].
  cbn [repeatString]. rewrite append_cons, append_nil. cbn [String.length]. now rewrite IH.
Qed.

Lemma itoa_aux_S fuel base n acc :
  itoa_aux (S fuel) base n acc =
  if n <? base then String (digitChar (n mod base)) acc
  else itoa_aux fuel base (n / base) (String (digitChar (n mod base)) acc).
Proof. reflexivity. Qed.

Lemma itoa_aux_length fuel : forall base n acc,
  (String.length acc + 1 <= String.length (itoa_aux (S fuel) base n acc))%nat.
Proof.
  induction fuel as [| fuel IH]; intros base n acc; rewrite itoa_aux_S.
  - destruct (n <? base); cbn [itoa_aux String.length]; lia.
  - destruct (n <? base); [cbn [String.length]; lia |].
    specialize (IH base (n / base) (String (digitChar (n mod base)) acc)).
    cbn [String.length] in IH. lia.
Qed.

Lemma itoa_nonempty base n : (1 <= String.length (itoa base n))%nat.
Proof.
  unfold itoa. pose proof (itoa_aux_length (Z.to_nat (Z.log2 n)) base n "") as H.
  cbn [String.length] in H. lia.
Qed.

(** The fixed-point layout of a digit string for [dec] > 0. *)
Lemma Text_layout (ss : string) (dec : Z) :
  0 < dec < 9223372036854775807 -> (1 <= String.length ss)%nat ->
  exists ip fp,
    (let sl := Z.of_nat (String.length ss) in
     do ss' <-
       (if sl <=? dec then
          do zeros <- stringsRepeat "0" (sub (add dec 1) sl);
          ret (zeros +:+ ss)
        else ret ss);
     let cut := (String.length ss' - Z.to_nat dec)%nat in
     ret (substring 0 cut ss' +:+ "." +:+ substring cut (Z.to_nat dec) ss')) =
    ret (ip +:+ "." +:+ fp) /\
    String.length fp = Z.to_nat dec /\ (1 <= String.length ip)%nat /\
    ip +:+ fp =
      repeatString "0" (Z.to_nat (dec + 1 - Z.of_nat (String.length ss))) +:+ ss.
Proof.
  intros Hdec Hss. cbv zeta.
  set (pad := repeatString "0" (Z.to_nat (dec + 1 - Z.of_nat (String.length ss)))).
  assert (Hbody : (if Z.of_nat (String.length ss) <=? dec
                   then do zeros <- stringsRepeat "0" (sub (add dec 1) (Z.of_nat (String.length ss)));
                        ret (zeros +:+ ss)
                   else ret ss) = ret (pad +:+ ss)).
  { destruct (Z.leb_spec (Z.of_nat (String.length ss)) dec) as [Hle | Hgt].
    - unfold stringsRepeat. int_simpl.
      destruct (Z.ltb_spec (dec + 1 - Z.of_nat (String.length ss)) 0); [lia |].
      reflexivity.
    - unfold pad. replace (Z.to_nat _) with 0%nat by lia. reflexivity. }
  rewrite Hbody.
  assert (Hlen : (Z.to_nat dec + 1 <= String.length (pad +:+ ss))%nat).
  { rewrite string_length_append. unfold pad. rewrite repeatString_length_1. lia. }
  set (s' := pad +:+ ss) in *.
  exists (substring 0 (String.length s' - Z.to_nat dec) s'),
         (substring (String.length s' - Z.to_nat dec) (Z.to_nat dec) s').
  split; [reflexivity |]. split; [apply substring_length; lia |].
  split; [rewrite substring_length by lia; lia |].
  pose proof (substring_split s' (String.length s' - Z.to_nat dec) ltac:(lia)) as Hsplit.
  replace (String.length s' - (String.length s' - Z.to_nat dec))%nat with (Z.to_nat dec)
    in Hsplit by lia.
  exact Hsplit.
Qed.

(** C8, as stated, fails: with no decimals the output has no radix point. *)
Lemma Text_without_decimals_has_no_point :
  run (do c <- FromInt 10; Text 0 c 0 10) = Ok "10".
Proof. vm_compute. reflexivity. Qed.

(** C8, amended: [Text c dec radix] approximates at precision 0 the node
    [c * radix^dec] (for radix 16, [c] shifted left by 4 * dec bits).  When
    that gives an integer [si] and the radix is one [big.Int.Text] accepts,
    the output is, for dec > 0: a '-' when [si] is negative, at least one
    integer digit, a '.', and exactly [dec] fractional digits, the digits being
    those of |si| left-padded with zeros to dec + 1 digits; for dec = 0: the
    sign and the digits of |si|, with no radix point.  When the computation
    panics with a message, the output is "<undefined: message>". *)
Theorem Text_format (fuel : nat) (c sc : Real) (dec radix si : Z) (st st0 st1 : store) :
  0 <= dec < 9223372036854775807 ->
  2 <= radix <= 62 ->
  Text_scaled c dec radix st = (Ok sc, st0) ->
  Approximate fuel sc 0 st0 = (Ok (Some si), st1) ->
  let digits := itoa radix (Z.abs si) in
  let sign := if si <? 0 then "-" else "" in
  (dec = 0 -> Text fuel c dec radix st = (Ok (sign +:+ digits), st1)) /\
  (0 < dec ->
   exists ip fp,
     Text fuel c dec radix st = (Ok (sign +:+ ip +:+ "." +:+ fp), st1) /\
     String.length fp = Z.to_nat dec /\ (1 <= String.length ip)%nat /\
     ip +:+ fp = repeatString "0" (Z.to_nat (dec + 1 - Z.of_nat (String.length digits))) +:+ digits) /\
  (forall fuel' c' dec' radix' s msg s',
     Text_body fuel' c' dec' radix' s = (Panic msg, s') ->
     Text fuel' c' dec' radix' s = (Ok ("<undefined: " +:+ msg +:+ ">"), s')).
Proof.
  intros Hdec Hradix Hsc Happr digits sign.
  assert (Htext : bigText (Z.abs si) radix = ret digits).
  { unfold bigText.
    destruct (Z.ltb_spec radix 2); [lia |]. destruct (Z.ltb_spec 62 radix); [lia |].
    cbn [orb]. destruct (Z.ltb_spec (Z.abs si) 0); [lia | reflexivity]. }
  split; [| split].
  - intros ->. unfold Text, Text_body.
    rewrite (bind_ok _ _ _ _ _ Hsc), (bind_ok _ _ _ _ _ Happr). cbn [deref].
    rewrite bind_ret, Htext, bind_ret. cbn [Z.ltb Z.compare]. rewrite bind_ret.
    unfold sign. destruct (si <? 0); reflexivity.
  - intros Hpos.
    destruct (Text_layout digits dec ltac:(lia) (itoa_nonempty _ _)) as (ip & fp & Hlay & Hfp & Hip & Hcat).
    exists ip, fp. split; [| auto].
    unfold Text, Text_body.
    rewrite (bind_ok _ _ _ _ _ Hsc), (bind_ok _ _ _ _ _ Happr). cbn [deref].
    rewrite bind_ret, Htext, bind_ret.
    destruct (Z.ltb_spec 0 dec); [| lia].
    cbv zeta in Hlay. cbv zeta. rewrite Hlay, bind_ret.
    unfold sign. destruct (si <? 0); reflexivity.
  - intros fuel' c' dec' radix' s msg s' Hbody. unfold Text. rewrite Hbody. reflexivity.
Qed.

Lemma Text_format_witness :
  let c := constructiveInteger 0 (-10) in
  let sc := constructiveMultiplication 2 c (constructiveInteger 1 100000) in
  let st := mkStore 1 ∅ None None in
  let st1 := snd (Approximate 0 sc 0 (mkStore 3 ∅ None None)) in
  let digits := itoa 10 (Z.abs (-1000000)) in
  let sign := if -1000000 <? 0 then "-" else "" in
  (5 = 0 -> Text 0 c 5 10 st = (Ok (sign +:+ digits), st1)) /\
  (0 < 5 ->
   exists ip fp,
     Text 0 c 5 10 st = (Ok (sign +:+ ip +:+ "." +:+ fp), st1) /\
     String.length fp = Z.to_nat 5 /\ (1 <= String.length ip)%nat /\
     ip +:+ fp = repeatString "0" (Z.to_nat (5 + 1 - Z.of_nat (String.length digits))) +:+ digits) /\
  (forall fuel' c' dec' radix' s msg s',
     Text_body fuel' c' dec' radix' s = (Panic msg, s') ->
     Text fuel' c' dec' radix' s = (Ok ("<undefined: " +:+ msg +:+ ">"), s')).
Proof.
  intros c sc st st1.
  apply (Text_format 0 c sc 5 10 (-1000000) st (mkStore 3 ∅ None None) st1);
    [lia | lia | vm_compute; reflexivity | vm_compute; reflexivity].
Defined.

(** ** The approximation contract: rationals and rounding *)

Local Open Scope Q_scope.

Lemma pow2_pos p : 0 < pow2 p.
Proof. unfold pow2. apply Qpower_0_lt. reflexivity. Qed.

Lemma pow2_add a b : pow2 (a + b) == pow2 a * pow2 b.
Proof. unfold pow2. apply Qpower_plus. discriminate. Qed.

Lemma pow2_le a b : (a <= b)%Z -> pow2 a <= pow2 b.
Proof. intros H. unfold pow2. apply Qpower_le_compat_l; [exact H | discriminate]. Qed.

Lemma pow2_lt a b : (a < b)%Z -> pow2 a < pow2 b.
Proof. intros H. unfold pow2. apply Qpower_lt_compat_l; [exact H | reflexivity]. Qed.

Lemma pow2_inject k : (0 <= k)%Z -> inject_Z (2 ^ k) == pow2 k.
Proof. intros H. unfold pow2. rewrite Zpower_Qpower by exact H. reflexivity. Qed.

Lemma pow2_0 : pow2 0 == 1.
Proof. reflexivity. Qed.

Lemma pow2_succ p : pow2 (p + 1) == 2 * pow2 p.
Proof. rewrite pow2_add. change (pow2 1) with 2. ring. Qed.

Lemma pow2_pred p : pow2 p == 2 * pow2 (p - 1).
Proof. rewrite <- pow2_succ. replace (p - 1 + 1)%Z with p by lia. reflexivity. Qed.

Lemma approximates_iff v p a :
  approximates v p a <-> - pow2 p < inject_Z a * pow2 p - v < pow2 p.
Proof. unfold approximates. apply Qabs_Qlt_condition. Qed.

Lemma pow2_neg_mul n : pow2 n * pow2 (- n) == 1.
Proof. rewrite <- pow2_add. replace (n + - n)%Z with 0%Z by lia. reflexivity. Qed.

Lemma pow2_lt_inv a b : pow2 a < pow2 b -> (a < b)%Z.
Proof. unfold pow2. intros H. apply (Qpower_lt_compat_l_inv 2); [exact H | reflexivity]. Qed.

Lemma inject_Z_sub x y : inject_Z (x - y) = inject_Z x - inject_Z y.
Proof. unfold Z.sub, Qminus. now rewrite inject_Z_plus, inject_Z_opp. Qed.

(** [scale] in the rationals: the rounding error is at most one half. *)
Lemma scale_down_Q i n :
  (-9223372036854775808 <= n < 0)%Z ->
  inject_Z (scale i n) - (1 # 2) <= inject_Z i * pow2 n < inject_Z (scale i n) + (1 # 2).
Proof.
  intros Hn. pose proof (scale_down_bounds i n Hn) as [Hlo Hhi].
  set (s := scale i n) in *.
  assert (Hk : inject_Z (2 ^ (- n)) == pow2 (- n)) by (apply pow2_inject; lia).
  assert (Hk1 : inject_Z (2 ^ (- n - 1)) == pow2 (- n) * (1 # 2)).
  { rewrite pow2_inject by lia. rewrite (pow2_pred (- n)). ring. }
  rewrite Zle_Qle in Hlo. rewrite Zlt_Qlt in Hhi.
  rewrite inject_Z_sub, inject_Z_mult, Hk, Hk1 in Hlo.
  rewrite inject_Z_plus, inject_Z_mult, Hk, Hk1 in Hhi.
  pose proof (pow2_pos n) as Hp. pose proof (pow2_pos (- n)) as Hp'.
  pose proof (pow2_neg_mul n) as Hinv.
  set (K := pow2 (- n)) in *. set (K' := pow2 n) in *.
  set (S := inject_Z s) in *. set (I := inject_Z i) in *.
  split.
  - assert (H : (S * K - K * (1 # 2)) * K' <= I * K').
    { apply Qmult_le_compat_r; [exact Hlo | apply Qlt_le_weak, Hp]. }
    assert (E : (S * K - K * (1 # 2)) * K' == (S - (1 # 2)) * (K' * K)) by ring.
    rewrite E, Hinv in H. lra.
  - assert (H : I * K' < (S * K + K * (1 # 2)) * K').
    { apply Qmult_lt_compat_r; [exact Hp | exact Hhi]. }
    assert (E : (S * K + K * (1 # 2)) * K' == (S + (1 # 2)) * (K' * K)) by ring.
    rewrite E, Hinv in H. lra.
Qed.

Lemma scale_up_Q i n :
  (0 <= n <= 9223372036854775807)%Z -> inject_Z (scale i n) == inject_Z i * pow2 n.
Proof.
  intros Hn. rewrite scale_up by exact Hn. rewrite inject_Z_mult, pow2_inject by lia.
  reflexivity.
Qed.

(** The integer [i], read at precision p + e and within half a unit of
    precision p from [v], scales to an approximation of [v] at precision p. *)
Lemma scale_approximates v i e p :
  (-9223372036854775808 <= e <= 9223372036854775807)%Z ->
  Qabs (inject_Z i * pow2 (p + e) - v) < pow2 p * (1 # 2) ->
  approximates v p (scale i e).
Proof.
  intros He Hw. apply approximates_iff. apply Qabs_Qlt_condition in Hw.
  pose proof (pow2_pos p) as Hp.
  assert (Hadd : pow2 (p + e) == pow2 p * pow2 e) by apply pow2_add.
  rewrite Hadd in Hw.
  destruct (Z_lt_le_dec e 0) as [Hneg | Hpos].
  - pose proof (scale_down_Q i e ltac:(lia)) as [Hlo Hhi].
    set (S := inject_Z (scale i e)) in *. set (I := inject_Z i) in *.
    set (P := pow2 p) in *. set (E := pow2 e) in *.
    assert (H1 : (S - (1 # 2)) * P <= I * E * P)
      by (apply Qmult_le_compat_r; [exact Hlo | apply Qlt_le_weak, Hp]).
    assert (H2 : I * E * P < (S + (1 # 2)) * P)
      by (apply Qmult_lt_compat_r; [exact Hp | exact Hhi]).
    split; lra.
  - rewrite scale_up_Q by lia.
    set (I := inject_Z i) in *. set (P := pow2 p) in *. set (E := pow2 e) in *.
    split; lra.
Qed.

(** Serving a cached approximation at a coarser precision keeps the contract. *)
Lemma rescale_approximates v q p m :
  (q <= p)%Z -> (-9223372036854775808 <= q - p)%Z ->
  approximates v q m -> approximates v p (scale m (q - p)).
Proof.
  intros Hle Hr Hm.
  destruct (Z.eq_dec q p) as [-> | Hne].
  - rewrite Z.sub_diag. rewrite scale_up by lia. now rewrite Z.mul_1_r.
  - apply scale_approximates; [lia |].
    replace (p + (q - p))%Z with q by lia.
    eapply Qlt_le_trans; [exact Hm |].
    rewrite (pow2_pred p). pose proof (pow2_le q (p - 1) ltac:(lia)). lra.
Qed.
Lemma Qabs_inject_Z i : Qabs (inject_Z i) = inject_Z (Z.abs i).
Proof. reflexivity. Qed.

Lemma BitLen_nonneg m : (0 <= BitLen m)%Z.
Proof.
  unfold BitLen. destruct (Z.eqb_spec m 0); [lia |].
  pose proof (Z.log2_nonneg (Z.abs m)). lia.
Qed.

Lemma BitLen_upper m : (Z.abs m < 2 ^ BitLen m)%Z.
Proof.
  unfold BitLen. destruct (Z.eqb_spec m 0) as [-> | Hne]; [reflexivity |].
  pose proof (Z.log2_spec (Z.abs m) ltac:(lia)) as [_ H].
  replace (Z.succ (Z.log2 (Z.abs m))) with (Z.log2 (Z.abs m) + 1)%Z in H by lia. exact H.
Qed.

Lemma BitLen_lower m : m <> 0%Z -> (1 <= BitLen m /\ 2 ^ (BitLen m - 1) <= Z.abs m)%Z.
Proof.
  intros Hne. unfold BitLen. destruct (Z.eqb_spec m 0); [contradiction |].
  pose proof (Z.log2_spec (Z.abs m) ltac:(lia)) as [H _].
  pose proof (Z.log2_nonneg (Z.abs m)).
  replace (Z.log2 (Z.abs m) + 1 - 1)%Z with (Z.log2 (Z.abs m)) by lia. lia.
Qed.

Lemma BitLen_opp m : BitLen (- m) = BitLen m.
Proof.
  unfold BitLen. rewrite Z.abs_opp.
  destruct (Z.eqb_spec m 0), (Z.eqb_spec (- m) 0); try reflexivity; lia.
Qed.

Lemma Qabs_lt_mult a b A B :
  Qabs a < A -> Qabs b < B -> Qabs (a * b) < A * B.
Proof.
  intros Ha Hb. rewrite Qabs_Qmult.
  pose proof (Qabs_nonneg a). pose proof (Qabs_nonneg b).
  set (x := Qabs a) in *. set (y := Qabs b) in *. nra.
Qed.

Lemma ubits_spec c : algebraic c -> (0 <= ubits c)%Z /\ Qabs (value c) < pow2 (ubits c).
Proof.
  induction c; cbn [algebraic ubits value]; intros Halg; try contradiction.
  - split; [apply BitLen_nonneg |].
    rewrite Qabs_inject_Z, <- pow2_inject by apply BitLen_nonneg.
    rewrite <- Zlt_Qlt. apply BitLen_upper.
  - destruct Halg as [Ha Hb]. destruct (IHc1 Ha) as [Hua Hva]. destruct (IHc2 Hb) as [Hub Hvb].
    split; [lia |].
    eapply Qle_lt_trans; [apply Qabs_triangle |].
    rewrite pow2_succ.
    pose proof (pow2_le (ubits c1) (Z.max (ubits c1) (ubits c2)) ltac:(lia)).
    pose proof (pow2_le (ubits c2) (Z.max (ubits c1) (ubits c2)) ltac:(lia)).
    lra.
  - destruct Halg as [Ha Hb]. destruct (IHc1 Ha) as [Hua Hva]. destruct (IHc2 Hb) as [Hub Hvb].
    split; [lia |]. rewrite pow2_add. now apply Qabs_lt_mult.
  - destruct (IHc Halg) as [Hu Hv]. split; [lia |].
    rewrite Qabs_Qmult. rewrite (Qabs_pos (pow2 n)) by (apply Qlt_le_weak, pow2_pos).
    eapply Qlt_le_trans with (pow2 (ubits c + n)).
    + rewrite pow2_add. apply Qmult_lt_compat_r; [apply pow2_pos | exact Hv].
    + apply pow2_le. lia.
  - destruct (IHc Halg) as [Hu Hv]. split; [lia |]. now rewrite Qabs_opp.
  - now apply IHc.
Qed.

Lemma dbits_spec c :
  algebraic c -> (0 <= dbits c)%Z /\ exists z, value c * pow2 (dbits c) == inject_Z z.
Proof.
  induction c; cbn [algebraic dbits value]; intros Halg; try contradiction.
  - split; [lia |]. exists i. rewrite pow2_0. ring.
  - destruct Halg as [Ha Hb].
    destruct (IHc1 Ha) as [Hda [za Hza]]. destruct (IHc2 Hb) as [Hdb [zb Hzb]].
    split; [lia |].
    set (d := Z.max (dbits c1) (dbits c2)).
    exists (za * 2 ^ (d - dbits c1) + zb * 2 ^ (d - dbits c2))%Z.
    rewrite inject_Z_plus, !inject_Z_mult, !pow2_inject by lia.
    rewrite <- Hza, <- Hzb.
    assert (E1 : pow2 d == pow2 (dbits c1) * pow2 (d - dbits c1))
      by (rewrite <- pow2_add; replace (dbits c1 + (d - dbits c1))%Z with d by lia; reflexivity).
    assert (E2 : pow2 d == pow2 (dbits c2) * pow2 (d - dbits c2))
      by (rewrite <- pow2_add; replace (dbits c2 + (d - dbits c2))%Z with d by lia; reflexivity).
    rewrite Qmult_plus_distr_l. rewrite E1 at 1. rewrite E2. ring.
  - destruct Halg as [Ha Hb].
    destruct (IHc1 Ha) as [Hda [za Hza]]. destruct (IHc2 Hb) as [Hdb [zb Hzb]].
    split; [lia |]. exists (za * zb)%Z.
    rewrite inject_Z_mult, <- Hza, <- Hzb, pow2_add. ring.
  - destruct (IHc Halg) as [Hd [z Hz]]. split; [lia |].
    set (d := Z.max 0 (dbits c - n)).
    exists (z * 2 ^ (n + d - dbits c))%Z.
    rewrite inject_Z_mult, pow2_inject by lia. rewrite <- Hz.
    assert (E : pow2 n * pow2 d == pow2 (dbits c) * pow2 (n + d - dbits c)).
    { rewrite <- !pow2_add. replace (dbits c + (n + d - dbits c))%Z with (n + d)%Z by lia.
      reflexivity. }
    rewrite <- Qmult_assoc, E. ring.
  - destruct (IHc Halg) as [Hd [z Hz]]. split; [lia |]. exists (- z)%Z.
    rewrite inject_Z_opp, <- Hz. ring.
  - now apply IHc.
Qed.

(** A nonzero value is at least 2^(-dbits) in magnitude. *)
Lemma dbits_lower c :
  algebraic c -> ~ value c == 0 -> pow2 (- dbits c) <= Qabs (value c).
Proof.
  intros Halg Hnz. destruct (dbits_spec c Halg) as [Hd [z Hz]].
  assert (Hz0 : z <> 0%Z).
  { intros ->. apply Hnz. pose proof (pow2_pos (dbits c)).
    assert (H0 : value c * pow2 (dbits c) == 0) by (rewrite Hz; reflexivity).
    apply Qmult_integral in H0. destruct H0 as [H0 | H0]; [exact H0 | lra]. }
  assert (H1 : 1 <= Qabs (value c) * pow2 (dbits c)).
  { rewrite <- (Qabs_pos (pow2 (dbits c))) at 1 by (apply Qlt_le_weak, pow2_pos).
    rewrite <- Qabs_Qmult, Hz, Qabs_inject_Z.
    change 1 with (inject_Z 1). rewrite <- Zle_Qle. lia. }
  pose proof (pow2_neg_mul (dbits c)) as Hinv.
  pose proof (pow2_pos (- dbits c)) as Hp.
  assert (H2 : 1 * pow2 (- dbits c) <= Qabs (value c) * pow2 (dbits c) * pow2 (- dbits c))
    by (apply Qmult_le_compat_r; [exact H1 | apply Qlt_le_weak, Hp]).
  rewrite <- Qmult_assoc, Hinv in H2. lra.
Qed.
(** What a cached approximation says about the magnitude of the value. *)
Lemma approximates_upper v q m :
  approximates v q m -> Qabs v < (inject_Z (Z.abs m) + 1) * pow2 q.
Proof.
  intros H. apply approximates_iff in H. pose proof (pow2_pos q) as Hq.
  rewrite <- Qabs_inject_Z.
  set (P := pow2 q) in *. set (I := inject_Z m) in *.
  apply Qabs_case; intros Hv; apply Qabs_case; intros Hi; nra.
Qed.

Lemma approximates_lower v q m :
  approximates v q m -> (inject_Z (Z.abs m) - 1) * pow2 q < Qabs v.
Proof.
  intros H. apply approximates_iff in H. pose proof (pow2_pos q) as Hq.
  rewrite <- Qabs_inject_Z.
  set (P := pow2 q) in *. set (I := inject_Z m) in *.
  apply Qabs_case; intros Hi; apply Qabs_case; intros Hv; nra.
Qed.

Lemma approximates_nonzero v q m : approximates v q m -> m <> 0%Z -> ~ v == 0.
Proof.
  intros H Hm Hv. pose proof (approximates_lower v q m H) as Hl.
  rewrite Hv in Hl. change (Qabs 0) with 0 in Hl.
  pose proof (pow2_pos q).
  assert (1 <= inject_Z (Z.abs m)) by (change 1 with (inject_Z 1); rewrite <- Zle_Qle; lia).
  set (I := inject_Z (Z.abs m)) in *. nra.
Qed.

(** The most significant digit read off a nonzero cached approximation. *)
Lemma msd_upper v q m :
  approximates v q m -> Qabs v < pow2 (q + BitLen m - 1 + 1).
Proof.
  intros H. eapply Qlt_le_trans; [apply approximates_upper, H |].
  replace (q + BitLen m - 1 + 1)%Z with (BitLen m + q)%Z by lia.
  rewrite pow2_add. apply Qmult_le_compat_r; [| apply Qlt_le_weak, pow2_pos].
  rewrite <- pow2_inject by apply BitLen_nonneg.
  change 1 with (inject_Z 1). rewrite <- inject_Z_plus, <- Zle_Qle.
  pose proof (BitLen_upper m). lia.
Qed.

Lemma msd_lower v q m :
  approximates v q m -> (2 <= Z.abs m)%Z -> pow2 (q + BitLen m - 1 - 1) < Qabs v.
Proof.
  intros H Hm. eapply Qle_lt_trans; [| apply approximates_lower, H].
  destruct (BitLen_lower m ltac:(lia)) as [Hb1 Hb2].
  assert (Hb : (2 <= BitLen m)%Z).
  { destruct (Z_lt_le_dec (BitLen m) 2%Z); [| lia].
    assert (BitLen m = 1%Z) by lia. pose proof (BitLen_upper m) as Hu.
    rewrite H0 in Hu. change (2 ^ 1)%Z with 2%Z in Hu. lia. }
  replace (q + BitLen m - 1 - 1)%Z with (BitLen m - 2 + q)%Z by lia.
  rewrite pow2_add. apply Qmult_le_compat_r; [| apply Qlt_le_weak, pow2_pos].
  rewrite <- pow2_inject by lia.
  change 1 with (inject_Z 1). rewrite <- inject_Z_sub, <- Zle_Qle.
  assert (2 ^ (BitLen m - 1) = 2 * 2 ^ (BitLen m - 2))%Z.
  { replace (BitLen m - 1)%Z with (1 + (BitLen m - 2))%Z by lia.
    rewrite Z.pow_add_r by lia. reflexivity. }
  assert (1 <= 2 ^ (BitLen m - 2))%Z
    by (pose proof (Z.pow_pos_nonneg 2%Z (BitLen m - 2)%Z ltac:(lia) ltac:(lia)); lia).
  lia.
Qed.

(** A nonzero rescaled value does not shift out more bits than there are. *)
Lemma scale_abs_bound m k :
  (0 <= k <= 9223372036854775808)%Z -> scale m (- k) <> 0%Z ->
  (k <= BitLen m /\ Z.abs (scale m (- k)) * 2 ^ k <= 2 ^ BitLen m)%Z.
Proof.
  intros Hk Hs. pose proof (BitLen_upper m) as Hu. pose proof (BitLen_nonneg m) as Hb.
  destruct (Z.eq_dec k 0%Z) as [-> | Hk0].
  - change (- 0)%Z with 0%Z in *. rewrite scale_up in * by lia.
    split; [lia |]. rewrite Z.mul_1_r. change (2 ^ 0)%Z with 1%Z. lia.
  - pose proof (scale_down_bounds m (- k) ltac:(lia)) as [Hlo Hhi].
    replace (- - k)%Z with k in * by lia.
    set (s := scale m (- k)) in *.
    assert (Hh : (2 ^ k = 2 * 2 ^ (k - 1))%Z).
    { replace k with (1 + (k - 1))%Z at 1 by lia. rewrite Z.pow_add_r by lia. reflexivity. }
    assert (Hhp : (0 < 2 ^ (k - 1))%Z) by (apply Z.pow_pos_nonneg; lia).
    assert (Hlt : (Z.abs s * 2 ^ k < 2 ^ BitLen m + 2 ^ (k - 1))%Z) by lia.
    assert (Hkb : (k <= BitLen m)%Z).
    { destruct (Z_lt_le_dec (BitLen m) k) as [Hc | Hc]; [| exact Hc]. exfalso.
      assert (2 ^ BitLen m <= 2 ^ (k - 1))%Z by (apply Z.pow_le_mono_r; lia).
      assert (Z.abs s * 2 ^ k < 1 * 2 ^ k)%Z by lia.
      assert (Z.abs s < 1)%Z by (apply (Z.mul_lt_mono_pos_r (2 ^ k)%Z); lia).
      lia. }
    split; [exact Hkb |].
    assert (Hsplit : (2 ^ BitLen m = 2 ^ (BitLen m - k) * 2 ^ k)%Z).
    { rewrite <- Z.pow_add_r by lia. f_equal. lia. }
    assert (Hd : (0 < 2 ^ (BitLen m - k))%Z) by (apply Z.pow_pos_nonneg; lia).
    rewrite Hsplit in *.
    assert (Z.abs s < 2 ^ (BitLen m - k) + 1)%Z.
    { apply (Z.mul_lt_mono_pos_r (2 ^ k)%Z); [lia |]. lia. }
    apply Z.mul_le_mono_nonneg_r; lia.
Qed.

(** The error of a product of two approximations, before the final rounding. *)
Lemma mul_error a b ia ib P1 P2 P :
  0 < P1 -> 0 < P2 -> 0 < P ->
  Qabs (ia * P1 - a) < P1 ->
  Qabs (ib * P2 - b) < P2 ->
  Qabs a * P2 <= P * (1 # 4) ->
  Qabs ib * P2 * P1 <= P * (1 # 4) ->
  Qabs (ia * ib * (P1 * P2) - a * b) < P * (1 # 2).
Proof.
  intros HP1 HP2 HP Ha Hb Hab Hib.
  assert (E : ia * ib * (P1 * P2) - a * b == (ia * P1 - a) * (ib * P2) + a * (ib * P2 - b))
    by ring.
  rewrite E. clear E.
  eapply Qle_lt_trans; [apply Qabs_triangle |].
  rewrite !Qabs_Qmult. rewrite (Qabs_pos P2) by lra.
  pose proof (Qabs_nonneg (ia * P1 - a)). pose proof (Qabs_nonneg (ib * P2 - b)).
  pose proof (Qabs_nonneg a). pose proof (Qabs_nonneg ib).
  set (x := Qabs (ia * P1 - a)) in *. set (y := Qabs (ib * P2 - b)) in *.
  set (A := Qabs a) in *. set (B := Qabs ib) in *.
  assert (HBP : 0 <= B * P2) by nra.
  assert (Hib' : B * P2 * P1 == P1 * (B * P2)) by ring.
  rewrite Hib' in Hib. clear Hib'.
  set (BP := B * P2) in *.
  assert (HxBP : x * BP <= P1 * BP) by nra.
  destruct (Qlt_le_dec 0 A) as [HA | HA].
  - assert (A * y < A * P2) by nra. lra.
  - assert (A * y <= 0) by nra. lra.
Qed.
(** ** The approximation contract: the tracker and the gatekeeper *)

Lemma approximates_proper v v' p a : v == v' -> approximates v p a -> approximates v' p a.
Proof. unfold approximates. intros E H. now rewrite <- E. Qed.

Lemma trackerAt_setTracker st k t k' :
  trackerAt (setTracker st k t) k' = if decide (k = k') then t else trackerAt st k'.
Proof.
  unfold trackerAt, setTracker. cbn [trackers].
  rewrite lookup_insert. destruct (decide (k = k')); reflexivity.
Qed.

Lemma valid_range p : IsPrecisionValid p = true -> (-1152921504606846976 <= p < 1152921504606846976)%Z.
Proof. intros H. apply IsPrecisionValid_range in H. exact H. Qed.

Lemma range_valid p : (-1152921504606846976 <= p < 1152921504606846976)%Z -> IsPrecisionValid p = true.
Proof. intros H. apply IsPrecisionValid_range. exact H. Qed.

Lemma trackerInv_set D st k p a :
  trackerInv D st -> IsPrecisionValid p = true -> approximates (D k) p a ->
  trackerInv D (setTracker st k (mkTracker true (Some a) p)).
Proof.
  intros Hinv Hp Ha k' Hv. rewrite trackerAt_setTracker in *.
  destruct (decide (k = k')) as [<- | Hne].
  - cbn. split; [exact Hp |]. exists a. split; [reflexivity | exact Ha].
  - apply Hinv, Hv.
Qed.

Lemma bind_load {B} k (f : precisionTracker -> M B) st :
  bind (load k) f st = f (trackerAt st k) st.
Proof. reflexivity. Qed.

Lemma bind_lift_ok {A B} (a : A) (f : A -> M B) st : bind (lift (Ok a)) f st = f a st.
Proof. reflexivity. Qed.

Lemma Approximate_with_spec D k v f p st :
  D k == v -> IsPrecisionValid p = true -> trackerInv D st ->
  (exists a st1, f p st = (Ok (Some a), st1) /\ approximates v p a /\ trackerInv D st1) ->
  approxPost D k v p st (Approximate_with (Some k) f p st).
Proof.
  intros HD Hp Hinv Hf. unfold Approximate_with. rewrite Hp. cbn [negb].
  rewrite bind_load.
  pose proof (valid_range p Hp) as Hpr.
  unfold tracker_Get.
  destruct (IsValid (trackerAt st k)) eqn:Hv.
  - destruct (Hinv k Hv) as [Hq [m [Hm Ham]]]. pose proof (valid_range _ Hq) as Hqr.
    rewrite andb_true_l.
    destruct (Z.leb_spec (MinPrecision (trackerAt st k)) p) as [Hle | Hgt].
    + rewrite Hm, bind_lift_ok. cbn [snd fst]. unfold ret.
      unfold sub. rewrite wrap_small by lia.
      exists (scale m (MinPrecision (trackerAt st k) - p)), st.
      split; [reflexivity |]. split.
      { apply (approximates_proper (D k)); [exact HD |].
        apply rescale_approximates; [exact Hle | lia | exact Ham]. }
      split; [exact Hinv |]. split; [exact Hv |]. split; [exact Hle |].
      exists m. split; [exact Hm |]. split; [reflexivity |]. left. split; [reflexivity | exact Hv].
    + rewrite bind_lift_ok. cbn [snd fst].
      destruct Hf as (a & st1 & Hfa & Ha & Hinv1).
      rewrite (bind_ok _ _ _ _ _ Hfa). unfold storeSet, tracker_Set.
      exists a, (setTracker st1 k (mkTracker true (Some a) p)).
      split; [reflexivity |]. split; [exact Ha |].
      split; [apply trackerInv_set; [exact Hinv1 | exact Hp |
                                     apply (approximates_proper v); [symmetry; exact HD | exact Ha]] |].
      rewrite trackerAt_setTracker. destruct (decide (k = k)); [| contradiction].
      cbn [IsValid MinPrecision MaxApproximation].
      split; [reflexivity |]. split; [lia |]. exists a. split; [reflexivity |].
      split; [rewrite Z.sub_diag, scale_up by lia; lia |].
      right. split; [reflexivity |]. right. exact Hgt.
  - rewrite andb_false_l, bind_lift_ok. cbn [snd fst].
    destruct Hf as (a & st1 & Hfa & Ha & Hinv1).
    rewrite (bind_ok _ _ _ _ _ Hfa). unfold storeSet, tracker_Set.
    exists a, (setTracker st1 k (mkTracker true (Some a) p)).
    split; [reflexivity |]. split; [exact Ha |].
    split; [apply trackerInv_set; [exact Hinv1 | exact Hp |
                                   apply (approximates_proper v); [symmetry; exact HD | exact Ha]] |].
    rewrite trackerAt_setTracker. destruct (decide (k = k)); [| contradiction].
    cbn [IsValid MinPrecision MaxApproximation].
    split; [reflexivity |]. split; [lia |]. exists a. split; [reflexivity |].
    split; [rewrite Z.sub_diag, scale_up by lia; lia |].
    right. split; [reflexivity |]. left. exact Hv.
Qed.
(** ** The approximation contract: the most significant digit *)

Lemma BitLen_one m : Z.abs m = 1%Z -> BitLen m = 1%Z.
Proof. intros H. unfold BitLen. rewrite H. destruct (Z.eqb_spec m 0); [lia | reflexivity]. Qed.

Lemma knownMSD_of_spec t v u am :
  IsPrecisionValid (MinPrecision t) = true ->
  MaxApproximation t = Some am -> approximates v (MinPrecision t) am -> am <> 0%Z ->
  Qabs v < pow2 u -> (0 <= u <= 2305843009213693952)%Z ->
  knownMSD_of t = Ok (MinPrecision t + BitLen am - 1)%Z /\
  (MinPrecision t + BitLen am - 1 <= Z.max u (MinPrecision t))%Z.
Proof.
  intros Hq Hm Ham Hnz Hu Hur. pose proof (valid_range _ Hq) as Hqr.
  destruct (BitLen_lower am Hnz) as [Hb1 _].
  assert (Hbound : (MinPrecision t + BitLen am - 1 <= Z.max u (MinPrecision t))%Z).
  { destruct (Z_lt_le_dec (Z.abs am) 2%Z) as [Hs | Hl].
    - rewrite BitLen_one by lia. lia.
    - pose proof (msd_lower v _ am Ham Hl) as Hlow.
      assert (Hlt : pow2 (MinPrecision t + BitLen am - 1 - 1) < pow2 u)
        by (eapply Qlt_trans; eassumption).
      apply pow2_lt_inv in Hlt. lia. }
  split; [| exact Hbound].
  unfold knownMSD_of. rewrite Hm.
  destruct (Z.leb_spec 0 am); [| rewrite BitLen_opp]; unfold sub, add;
    rewrite (wrap_small (MinPrecision t + BitLen am)) by lia;
    rewrite wrap_small by lia; reflexivity.
Qed.

Lemma bind_assoc_ret {A B C} (a : A) (f : A -> M B) (k : B -> M C) st :
  bind (bind (ret a) f) k st = bind (f a) k st.
Proof. reflexivity. Qed.

Lemma msd_with_spec D k v A n st u L :
  D k == v -> trackerInv D st -> evaluates D k v L A ->
  (Z.abs (n - 1) <= L)%Z -> (L < 1152921504606846976)%Z ->
  Qabs v < pow2 u -> (0 <= u <= 2305843009213693952)%Z ->
  msdPost D k n (msd_with A (Some k) n st).
Proof.
  intros HD Hinv HA Hn HL Hu Hur. unfold msd_with. rewrite bind_load.
  assert (Hsub : sub n 1 = (n - 1)%Z) by (unfold sub; rewrite wrap_small by lia; reflexivity).
  assert (Hrun :
    msdPost D k n
      ((do _ <- A (sub n 1);
        do t' <- load k;
        do m <- deref (MaxApproximation t');
        if Z.abs m <=? 1 then ret MinInt else lift (knownMSD_of t')) st)).
  { rewrite Hsub. destruct (HA (n - 1)%Z st Hn Hinv)
      as (a & st' & HAeq & Ha & Hinv' & Hv' & Hq' & m & Hm & _).
    rewrite (bind_ok _ _ _ _ _ HAeq), bind_load, Hm. cbn [deref]. rewrite bind_ret.
    destruct (Hinv' k Hv') as [Hqv [m' [Hm' Ham']]].
    rewrite Hm in Hm'. inversion Hm'; subst m'.
    destruct (Z.leb_spec (Z.abs m) 1) as [Hs | Hl].
    - exists MinInt, st'. split; [reflexivity |]. split; [exact Hinv' |].
      split; [exact Hv' |]. exists m. split; [exact Hm |]. left. auto.
    - assert (Hnz : m <> 0%Z) by lia.
      destruct (knownMSD_of_spec _ v u m Hqv Hm
                  (approximates_proper _ _ _ _ HD Ham') Hnz Hu Hur) as [Hk _].
      rewrite Hk. exists (MinPrecision (trackerAt st' k) + BitLen m - 1)%Z, st'.
      split; [reflexivity |]. split; [exact Hinv' |]. split; [exact Hv' |].
      exists m. split; [exact Hm |]. right. split; [reflexivity | lia]. }
  destruct (IsValid (trackerAt st k)) eqn:Hv; cbn [negb].
  - destruct (Hinv k Hv) as [Hqv [m [Hm Ham]]].
    rewrite Hm. cbn [deref]. rewrite bind_assoc_ret, bind_ret.
    destruct (Z.leb_spec m 1) as [H1 | H1]; destruct (Z.leb_spec (-1) m) as [H2 | H2];
      cbn [andb]; try exact Hrun.
    + assert (Hnz : m <> 0%Z) by lia.
      destruct (knownMSD_of_spec _ v u m Hqv Hm
                  (approximates_proper _ _ _ _ HD Ham) Hnz Hu Hur) as [Hk _].
      rewrite Hk. exists (MinPrecision (trackerAt st k) + BitLen m - 1)%Z, st.
      split; [reflexivity |]. split; [exact Hinv |]. split; [exact Hv |].
      exists m. split; [exact Hm |]. right. split; [reflexivity | lia].
    + assert (Hnz : m <> 0%Z) by lia.
      destruct (knownMSD_of_spec _ v u m Hqv Hm
                  (approximates_proper _ _ _ _ HD Ham) Hnz Hu Hur) as [Hk _].
      rewrite Hk. exists (MinPrecision (trackerAt st k) + BitLen m - 1)%Z, st.
      split; [reflexivity |]. split; [exact Hinv |]. split; [exact Hv |].
      exists m. split; [exact Hm |]. right. split; [reflexivity | lia].
    + lia.
  - rewrite bind_ret. exact Hrun.
Qed.

(** What the answer of [msd] says about the value. *)
Lemma msdPost_value D k v n u d m st' am :
  D k == v -> trackerInv D st' -> IsValid (trackerAt st' k) = true ->
  MaxApproximation (trackerAt st' k) = Some am ->
  Qabs v < pow2 u -> (~ v == 0 -> pow2 (- d) <= Qabs v) ->
  ((m = MinInt /\ Z.abs am <= 1 /\ MinPrecision (trackerAt st' k) <= n - 1) \/
   (m = MinPrecision (trackerAt st' k) + BitLen am - 1 /\ 2 <= Z.abs am))%Z ->
  (m = MinInt /\ Qabs v < pow2 n) \/
  ((- d <= m <= u)%Z /\ pow2 (m - 1) < Qabs v /\ Qabs v < pow2 (m + 1) /\
   m = (MinPrecision (trackerAt st' k) + BitLen am - 1)%Z /\ (2 <= Z.abs am)%Z).
Proof.
  intros HD Hinv Hv Hm Hu Hd Hcase.
  destruct (Hinv k Hv) as [Hqv [m' [Hm' Ham]]].
  rewrite Hm in Hm'. inversion Hm'; subst m'. clear Hm'.
  apply (approximates_proper _ v) in Ham; [| exact HD].
  destruct Hcase as [(-> & Hs & Hq) | (-> & Hl)].
  - left. split; [reflexivity |].
    eapply Qlt_le_trans; [apply approximates_upper, Ham |].
    assert (Hle : inject_Z (Z.abs am) + 1 <= 2).
    { change 2 with (inject_Z 1 + 1). apply Qplus_le_l. rewrite <- Zle_Qle. exact Hs. }
    pose proof (pow2_pos (MinPrecision (trackerAt st' k))) as Hp.
    pose proof (pow2_le (MinPrecision (trackerAt st' k) + 1) n ltac:(lia)) as Hmono.
    rewrite pow2_succ in Hmono.
    set (P := pow2 (MinPrecision (trackerAt st' k))) in *.
    set (I := inject_Z (Z.abs am)) in *. nra.
  - right.
    pose proof (msd_lower v _ am Ham Hl) as Hlow.
    pose proof (msd_upper v _ am Ham) as Hup.
    assert (Hnz : ~ v == 0) by (apply (approximates_nonzero v _ am Ham); lia).
    specialize (Hd Hnz).
    split; [| split; [exact Hlow | split; [exact Hup | split; [reflexivity | exact Hl]]]].
    split.
    + assert (Hlt : pow2 (- d) < pow2 (MinPrecision (trackerAt st' k) + BitLen am - 1 + 1))
        by (eapply Qle_lt_trans; eassumption).
      apply pow2_lt_inv in Hlt. lia.
    + assert (Hlt : pow2 (MinPrecision (trackerAt st' k) + BitLen am - 1 - 1) < pow2 u)
        by (eapply Qlt_trans; eassumption).
      apply pow2_lt_inv in Hlt. lia.
Qed.
(** ** The approximation contract: multiplication *)

Lemma approximate_mul_body fuel t a b p :
  approximate fuel (constructiveMultiplication t a b) p =
  mulBody (Approximate_with (trackerOf a) (approximate fuel a))
          (Approximate_with (trackerOf b) (approximate fuel b))
          (trackerOf a) (trackerOf b) p.
Proof. reflexivity. Qed.

Lemma scale_zero n : (-9223372036854775808 <= n <= 0)%Z -> scale 0 n = 0%Z.
Proof.
  intros Hn. destruct (Z.eq_dec n 0%Z) as [-> | Hne].
  - reflexivity.
  - rewrite scale_down_div by lia. rewrite Z.add_0_l. apply Z.div_small.
    split; [apply Z.pow_nonneg; lia | apply Z.pow_lt_mono_r; lia].
Qed.

Lemma approximates_zero v p : approximates v p 0 <-> Qabs v < pow2 p.
Proof.
  unfold approximates.
  assert (E : inject_Z 0 * pow2 p - v == - v) by ring.
  rewrite E, Qabs_opp. reflexivity.
Qed.

Lemma bind_assoc_load {B C} k (f : precisionTracker -> M B) (g : B -> M C) st :
  bind (bind (load k) f) g st = bind (f (trackerAt st k)) g st.
Proof. reflexivity. Qed.

Lemma mulTail_spec D ka kb va vb Aa Ab p m0 st ub db L K :
  D ka == va -> D kb == vb ->
  evaluates D ka va L Aa -> evaluates D kb vb L Ab ->
  Qabs vb < pow2 ub -> (0 <= ub <= K)%Z ->
  (~ vb == 0 -> pow2 (- db) <= Qabs vb) -> (0 <= db <= K)%Z ->
  (- K <= m0 <= K)%Z -> (Z.abs p + K + 3 <= L)%Z -> (L < 1152921504606846976)%Z ->
  trackerInv D st ->
  (Qabs vb < pow2 (p - m0 - 3) -> Qabs (va * vb) < pow2 p) ->
  (forall ib st2, approxPost D kb vb (p - m0 - 3) st (Ok (Some ib), st2) -> ib <> 0%Z ->
     Qabs va * pow2 (p - m0 - 3) <= pow2 p * (1 # 4)) ->
  exists a st1,
    mulTail Aa Ab (Some kb) p m0 st = (Ok (Some a), st1) /\
    approximates (va * vb) p a /\ trackerInv D st1.
Proof.
  intros HDa HDb HAa HAb Hub Hubr Hdb Hdbr Hm0 HL HLr Hinv Hzero HF.
  unfold mulTail. cbv zeta.
  assert (Hp2 : sub (sub p m0) 3 = (p - m0 - 3)%Z).
  { unfold sub. rewrite (wrap_small (p - m0)) by lia. rewrite wrap_small by lia. reflexivity. }
  rewrite Hp2. set (p2 := (p - m0 - 3)%Z) in *.
  assert (Hp2L : (Z.abs p2 <= L)%Z) by (unfold p2; lia).
  assert (Hp2e : p2 = (p - m0 - 3)%Z) by reflexivity.
  clearbody p2.
  pose proof (HAb p2 st Hp2L Hinv) as Hpost.
  destruct Hpost as (ib & st2 & Hib & Hibv & Hinv2 & Hv2 & Hq2 & M & HM & Hsc & Hhit) eqn:Hposteq.
  clear Hposteq.
  rewrite (bind_ok _ _ _ _ _ Hib). cbn [deref]. rewrite bind_ret.
  destruct (Z.eqb_spec ib 0) as [Hz | Hnz].
  - exists 0%Z, st2. split; [reflexivity |]. split; [| exact Hinv2].
    apply approximates_zero. apply Hzero.
    apply approximates_zero. rewrite Hz in Hibv. exact Hibv.
  - assert (HFa : Qabs va * pow2 p2 <= pow2 p * (1 # 4)).
    { apply (HF ib st2); [| exact Hnz]. rewrite <- Hib.
      apply HAb; [exact Hp2L | exact Hinv]. }
    destruct (Hinv2 kb Hv2) as [Hqv [M' [HM' HMv]]].
    rewrite HM in HM'. inversion HM'; subst M'. clear HM'.
    apply (approximates_proper _ vb) in HMv; [| exact HDb].
    pose proof (valid_range _ Hqv) as Hqr.
    assert (HMnz : M <> 0%Z).
    { intros ->. apply Hnz. rewrite Hsc. apply scale_zero. lia. }
    destruct (knownMSD_of_spec (trackerAt st2 kb) vb ub M Hqv HM HMv HMnz Hub ltac:(lia))
      as [Hk Hkb].
    remember (MinPrecision (trackerAt st2 kb)) as q eqn:Hqdef.
    unfold knownMSD_at. rewrite bind_assoc_load, Hk, bind_lift_ok.
    pose proof (msd_upper vb q M HMv) as Hup.
    pose proof (BitLen_lower M HMnz) as [HBL1 _].
    remember (q + BitLen M - 1)%Z as mb eqn:Hmbdef.
    assert (Hvnz : ~ vb == 0) by (apply (approximates_nonzero vb q M HMv HMnz)).
    assert (Hmblo : (- db <= mb)%Z).
    { assert (Hlt : pow2 (- db) < pow2 (mb + 1)) by (eapply Qle_lt_trans; [apply Hdb, Hvnz | exact Hup]).
      apply pow2_lt_inv in Hlt. lia. }
    assert (Hp1 : sub (sub p mb) 3 = (p - mb - 3)%Z).
    { unfold sub. rewrite (wrap_small (p - mb)) by lia. rewrite wrap_small by lia. reflexivity. }
    rewrite Hp1. remember (p - mb - 3)%Z as p1 eqn:Hp1def.
    destruct (HAa p1 st2 ltac:(lia) Hinv2) as (ia & st3 & Hia & Hiav & Hinv3 & _).
    rewrite (bind_ok _ _ _ _ _ Hia). cbn [deref]. rewrite bind_ret.
    assert (He : sub (add p1 p2) p = (p1 + p2 - p)%Z).
    { unfold sub, add. rewrite (wrap_small (p1 + p2)) by lia. rewrite wrap_small by lia.
      reflexivity. }
    rewrite He.
    exists (scale (ia * ib) (p1 + p2 - p)), st3. split; [reflexivity |]. split; [| exact Hinv3].
    apply scale_approximates; [lia |].
    replace (p + (p1 + p2 - p))%Z with (p1 + p2)%Z by lia.
    rewrite pow2_add, inject_Z_mult.
    apply mul_error; try apply pow2_pos; try assumption.
    (* |ib| * 2^p2 * 2^p1 <= 2^p / 4 *)
    destruct (scale_abs_bound M (p2 - q) ltac:(lia)) as [Hkle Hsb].
    { replace (- (p2 - q))%Z with (q - p2)%Z by lia. rewrite <- Hsc. exact Hnz. }
    replace (- (p2 - q))%Z with (q - p2)%Z in Hsb by lia. rewrite <- Hsc in Hsb.
    rewrite Zle_Qle, inject_Z_mult, !pow2_inject in Hsb by (try apply BitLen_nonneg; lia).
    rewrite <- Qabs_inject_Z in Hsb.
    assert (E1 : pow2 p2 == pow2 (p2 - q) * pow2 q)
      by (rewrite <- pow2_add; replace (p2 - q + q)%Z with p2 by lia; reflexivity).
    assert (E2 : pow2 (BitLen M) * pow2 q * pow2 p1 == pow2 p * (1 # 4)).
    { rewrite <- !pow2_add. replace (BitLen M + q + p1)%Z with (p - 1 - 1)%Z by lia.
      rewrite (pow2_pred p), (pow2_pred (p - 1)). ring. }
    pose proof (pow2_pos q). pose proof (pow2_pos p1). pose proof (pow2_pos (p2 - q)).
    rewrite E1, <- E2.
    set (I := Qabs (inject_Z ib)) in *. set (X := pow2 (p2 - q)) in *.
    set (Y := pow2 q) in *. set (Z1 := pow2 p1) in *. set (W := pow2 (BitLen M)) in *.
    assert (I * X * Y <= W * Y) by nra.
    assert (I * X * Y * Z1 <= W * Y * Z1) by nra.
    nra.
Qed.
Lemma Qabs_mult_lt_pow2 a b x y z :
  Qabs a < pow2 x -> Qabs b < pow2 y -> (x + y <= z)%Z -> Qabs (a * b) < pow2 z.
Proof.
  intros Ha Hb Hz. eapply Qlt_le_trans; [apply Qabs_lt_mult; eassumption |].
  rewrite <- pow2_add. apply pow2_le. exact Hz.
Qed.

Lemma bind_assoc_ok {A B C} (m : M A) (f : A -> M B) (g : B -> M C) st a st' :
  m st = (Ok a, st') -> bind (bind m f) g st = bind (f a) g st'.
Proof. intros H. unfold bind at 1 2. rewrite H. reflexivity. Qed.

Lemma mulBody_spec D ka kb va vb Aa Ab p st ua ub da db L K :
  D ka == va -> D kb == vb ->
  evaluates D ka va L Aa -> evaluates D kb vb L Ab ->
  Qabs va < pow2 ua -> (0 <= ua <= K)%Z ->
  (~ va == 0 -> pow2 (- da) <= Qabs va) -> (0 <= da <= K)%Z ->
  Qabs vb < pow2 ub -> (0 <= ub <= K)%Z ->
  (~ vb == 0 -> pow2 (- db) <= Qabs vb) -> (0 <= db <= K)%Z ->
  (Z.abs p + K + 3 <= L)%Z -> (L < 1152921504606846976)%Z ->
  trackerInv D st ->
  exists a st1,
    mulBody Aa Ab (Some ka) (Some kb) p st = (Ok (Some a), st1) /\
    approximates (va * vb) p a /\ trackerInv D st1.
Proof.
  intros HDa HDb HAa HAb Hua Huar Hda Hdar Hub Hubr Hdb Hdbr HL HLr Hinv.
  unfold mulBody. cbv zeta.
  rewrite Z.shiftr_div_pow2 by lia. change (2 ^ 1)%Z with 2%Z.
  pose proof (Z.div_mod p 2 ltac:(lia)) as Hdm.
  pose proof (Z.mod_pos_bound p 2 ltac:(lia)) as Hmod.
  remember (p / 2)%Z as h eqn:Hh.
  assert (Hhp : sub h 1 = (h - 1)%Z) by (unfold sub; rewrite wrap_small by lia; reflexivity).
  rewrite Hhp.
  (* msd of a *)
  destruct (msd_with_spec D ka va Aa (h - 1)%Z st ua L HDa Hinv HAa ltac:(lia) HLr Hua ltac:(lia))
    as (ma & st1 & Hmsda & Hinv1 & Hva1 & ama & Hama & Hcasea).
  rewrite (bind_ok _ _ _ _ _ Hmsda).
  destruct (msdPost_value D ka va (h - 1)%Z ua da ma st1 ama HDa Hinv1 Hva1 Hama Hua Hda Hcasea)
    as [[-> Hsmalla] | (Hmar & Hloa & Hupa & _ & _)].
  - (* a is below 2^hp: try b *)
    rewrite Z.eqb_refl.
    destruct (msd_with_spec D kb vb Ab (h - 1)%Z st1 ub L HDb Hinv1 HAb ltac:(lia) HLr Hub ltac:(lia))
      as (mb & st2 & Hmsdb & Hinv2 & Hvb2 & amb & Hamb & Hcaseb).
    rewrite (bind_assoc_ok _ _ _ _ _ _ Hmsdb).
    destruct (msdPost_value D kb vb (h - 1)%Z ub db mb st2 amb HDb Hinv2 Hvb2 Hamb Hub Hdb Hcaseb)
      as [[-> Hsmallb] | (Hmbr & Hlob & Hupb & Hmbdef & Hamb2)].
    + rewrite Z.eqb_refl, bind_ret.
      exists 0%Z, st2. split; [reflexivity |]. split; [| exact Hinv2].
      apply approximates_zero.
      apply (Qabs_mult_lt_pow2 va vb (h - 1) (h - 1) p Hsmalla Hsmallb). lia.
    + destruct (Z.eqb_spec mb MinInt) as [Hc | _]; [rewrite MinInt_val in Hc; lia |].
      rewrite bind_ret.
      apply (mulTail_spec D ka kb va vb Aa Ab p mb st2 ub db L K); try assumption; try lia.
      * (* a zero approximation of b *)
        intros Hvb. destruct (Z_le_gt_dec (mb + 1) (p - mb - 3)) as [Hc | Hc].
        -- apply (Qabs_mult_lt_pow2 va vb (h - 1) (mb + 1) p Hsmalla Hupb). lia.
        -- apply (Qabs_mult_lt_pow2 va vb (h - 1) (p - mb - 3) p Hsmalla Hvb). lia.
      * (* a nonzero approximation of b: b's digit is not far below 2^hp *)
        intros ib st3 Hpost Hnz.
        destruct Hpost as (ib' & st3' & Heq & _ & _ & Hv3 & Hq3 & M & HM & Hsc & Hhit).
        assert (Eib : ib = ib') by congruence. assert (Est : st3 = st3') by congruence.
        rewrite <- Est in *. rewrite <- Eib in Hsc. clear Heq Eib Est.
        assert (Hge : (h - 2 <= mb)%Z).
        { destruct (BitLen_lower amb ltac:(lia)) as [HBL1 HBL2].
          assert (HBL : (2 <= BitLen amb)%Z).
          { destruct (Z_lt_le_dec (BitLen amb) 2%Z) as [Hlt | Hle]; [| exact Hle].
            pose proof (BitLen_upper amb) as HU.
            assert (BitLen amb = 1%Z) by lia. rewrite H in HU. change (2 ^ 1)%Z with 2%Z in HU. lia. }
          destruct Hhit as [[Hsame _] | [Hnew [Hinval | Hlt]]].
          - rewrite Hsame in HM, Hsc, Hq3. rewrite Hamb in HM. inversion HM; subst M.
            destruct (scale_abs_bound amb (p - mb - 3 - MinPrecision (trackerAt st2 kb))
                        ltac:(pose proof (valid_range _ (proj1 (Hinv2 kb Hvb2))); lia)) as [Hkle _].
            { replace (- (p - mb - 3 - MinPrecision (trackerAt st2 kb)))%Z
                with (MinPrecision (trackerAt st2 kb) - (p - mb - 3))%Z by lia.
              rewrite <- Hsc. exact Hnz. }
            lia.
          - rewrite Hinval in Hvb2. discriminate.
          - lia. }
        eapply Qle_trans with (pow2 (h - 1) * pow2 (p - mb - 3)).
        -- apply Qmult_le_compat_r; [apply Qlt_le_weak, Hsmalla | apply Qlt_le_weak, pow2_pos].
        -- rewrite <- pow2_add. rewrite (pow2_pred p), (pow2_pred (p - 1)).
           pose proof (pow2_le (h - 1 + (p - mb - 3)) (p - 1 - 1) ltac:(lia)) as Hmono.
           lra.
  - (* the digit of a is known *)
    destruct (Z.eqb_spec ma MinInt) as [Hc | _]; [rewrite MinInt_val in Hc; lia |].
    rewrite bind_ret.
    assert (HFa : Qabs va * pow2 (p - ma - 3) <= pow2 p * (1 # 4)).
    { eapply Qle_trans with (pow2 (ma + 1) * pow2 (p - ma - 3)).
      - apply Qmult_le_compat_r; [apply Qlt_le_weak, Hupa | apply Qlt_le_weak, pow2_pos].
      - rewrite <- pow2_add. replace (ma + 1 + (p - ma - 3))%Z with (p - 1 - 1)%Z by lia.
        rewrite (pow2_pred p), (pow2_pred (p - 1)). lra. }
    apply (mulTail_spec D ka kb va vb Aa Ab p ma st1 ub db L K); try assumption; try lia.
    + intros Hvb. rewrite Qabs_Qmult.
      pose proof (Qabs_nonneg va). pose proof (Qabs_nonneg vb). pose proof (pow2_pos p).
      set (A := Qabs va) in *. set (B := Qabs vb) in *. set (P2 := pow2 (p - ma - 3)) in *.
      assert (A * B <= A * P2) by nra. lra.
    + intros ib st3 _ _. exact HFa.
Qed.
(** ** The approximation contract: every algebraic node *)

Lemma ubits_nonneg c : (0 <= ubits c)%Z.
Proof.
  induction c; cbn [ubits]; try lia. apply BitLen_nonneg.
Qed.

Lemma dbits_nonneg c : (0 <= dbits c)%Z.
Proof. induction c; cbn [dbits]; lia. Qed.

Lemma slack_nonneg c : (0 <= slack c)%Z.
Proof.
  induction c; cbn [slack]; try lia.
  pose proof (ubits_nonneg c1). pose proof (ubits_nonneg c2).
  pose proof (dbits_nonneg c1). pose proof (dbits_nonneg c2). lia.
Qed.

Lemma algebraic_tracker D c :
  algebraic c -> consistent D c -> exists k, trackerOf c = Some k /\ D k == value c.
Proof.
  induction c; cbn [algebraic consistent trackerOf value]; intros Halg Hcons;
    try contradiction; try (eexists; split; [reflexivity | tauto]).
  apply IHc; assumption.
Qed.

Lemma child_evaluates fuel D x k L :
  (forall p st, (Z.abs p + slack x < 1152921504606846976)%Z -> trackerInv D st ->
     exists a st1, approximate fuel x p st = (Ok (Some a), st1) /\
                   approximates (value x) p a /\ trackerInv D st1) ->
  D k == value x -> (L + slack x < 1152921504606846976)%Z ->
  evaluates D k (value x) L (Approximate_with (Some k) (approximate fuel x)).
Proof.
  intros IH HD HL q st Hq Hinv. pose proof (slack_nonneg x).
  apply Approximate_with_spec; [exact HD | apply range_valid; lia | exact Hinv |].
  apply IH; [lia | exact Hinv].
Qed.

Lemma approximate_spec fuel D c :
  algebraic c -> consistent D c ->
  forall p st, (Z.abs p + slack c < 1152921504606846976)%Z -> trackerInv D st ->
    exists a st1, approximate fuel c p st = (Ok (Some a), st1) /\
                  approximates (value c) p a /\ trackerInv D st1.
Proof.
  induction c; cbn [algebraic consistent]; intros Halg Hcons p st Hp Hinv;
    try contradiction.
  - (* integer *)
    cbn [approximate value]. exists (scale i (neg p)), st.
    split; [reflexivity |]. split; [| exact Hinv].
    cbn [slack] in Hp. unfold neg. rewrite wrap_small by lia.
    apply scale_approximates; [lia |].
    replace (p + - p)%Z with 0%Z by lia. rewrite pow2_0.
    assert (E : inject_Z i * 1 - inject_Z i == 0) by ring.
    rewrite E. change (Qabs 0) with 0. pose proof (pow2_pos p). lra.
  - (* addition *)
    destruct Halg as [Halg1 Halg2]. destruct Hcons as (_ & Hc1 & Hc2).
    destruct (algebraic_tracker D c1 Halg1 Hc1) as (k1 & Ht1 & HD1).
    destruct (algebraic_tracker D c2 Halg2 Hc2) as (k2 & Ht2 & HD2).
    cbn [slack] in Hp. pose proof (slack_nonneg c1). pose proof (slack_nonneg c2).
    cbn [approximate value]. cbv zeta. rewrite Ht1, Ht2.
    assert (Hs : sub p 2 = (p - 2)%Z) by (unfold sub; rewrite wrap_small by lia; reflexivity).
    rewrite Hs.
    destruct (child_evaluates fuel D c1 k1 (Z.abs p + 2) (IHc1 Halg1 Hc1) HD1 ltac:(lia)
                (p - 2)%Z st ltac:(lia) Hinv) as (x & st1 & Hx & Hxv & Hinv1 & _).
    rewrite (bind_ok _ _ _ _ _ Hx).
    destruct (child_evaluates fuel D c2 k2 (Z.abs p + 2) (IHc2 Halg2 Hc2) HD2 ltac:(lia)
                (p - 2)%Z st1 ltac:(lia) Hinv1) as (y & st2 & Hy & Hyv & Hinv2 & _).
    rewrite (bind_ok _ _ _ _ _ Hy). cbn [deref]. rewrite !bind_ret.
    exists (scale (x + y) (-2)), st2. split; [reflexivity |]. split; [| exact Hinv2].
    apply scale_approximates; [lia |].
    replace (p + -2)%Z with (p - 2)%Z by lia.
    apply approximates_iff in Hxv, Hyv. apply Qabs_Qlt_condition.
    rewrite inject_Z_plus.
    assert (E : pow2 p == 4 * pow2 (p - 2)).
    { rewrite (pow2_pred p). replace (p - 2)%Z with (p - 1 - 1)%Z by lia.
      rewrite (pow2_pred (p - 1)). ring. }
    rewrite E. pose proof (pow2_pos (p - 2)).
    set (P := pow2 (p - 2)) in *. set (X := inject_Z x) in *. set (Y := inject_Z y) in *.
    split; lra.
  - (* multiplication *)
    destruct Halg as [Halg1 Halg2]. destruct Hcons as (_ & Hc1 & Hc2).
    destruct (algebraic_tracker D c1 Halg1 Hc1) as (k1 & Ht1 & HD1).
    destruct (algebraic_tracker D c2 Halg2 Hc2) as (k2 & Ht2 & HD2).
    cbn [slack] in Hp. pose proof (slack_nonneg c1). pose proof (slack_nonneg c2).
    destruct (ubits_spec c1 Halg1) as [Hu1 Hv1]. destruct (ubits_spec c2 Halg2) as [Hu2 Hv2].
    pose proof (dbits_nonneg c1) as Hd1. pose proof (dbits_nonneg c2) as Hd2.
    rewrite approximate_mul_body, Ht1, Ht2. cbn [value].
    set (K := (Z.max (ubits c1) (ubits c2) + Z.max (dbits c1) (dbits c2))%Z).
    apply (mulBody_spec D k1 k2 (value c1) (value c2) _ _ p st
             (ubits c1) (ubits c2) (dbits c1) (dbits c2) (Z.abs p + K + 3) K);
      try assumption; try (unfold K; lia);
      try (apply child_evaluates; [auto | assumption | unfold K; lia]).
    + apply dbits_lower, Halg1.
    + apply dbits_lower, Halg2.
  - (* shift *)
    destruct Hcons as (_ & Hc).
    destruct (algebraic_tracker D c Halg Hc) as (k & Ht & HD).
    cbn [slack] in Hp. pose proof (slack_nonneg c).
    cbn [approximate value]. cbv zeta. rewrite Ht.
    assert (Hs : sub p n = (p - n)%Z) by (unfold sub; rewrite wrap_small by lia; reflexivity).
    rewrite Hs.
    destruct (child_evaluates fuel D c k (Z.abs p + Z.abs n) (IHc Halg Hc) HD ltac:(lia)
                (p - n)%Z st ltac:(lia) Hinv) as (x & st1 & Hx & Hxv & Hinv1 & _).
    exists x, st1. split; [exact Hx |]. split; [| exact Hinv1].
    apply approximates_iff in Hxv. apply approximates_iff.
    assert (E : pow2 p == pow2 (p - n) * pow2 n)
      by (rewrite <- pow2_add; replace (p - n + n)%Z with p by lia; reflexivity).
    rewrite E. pose proof (pow2_pos n). pose proof (pow2_pos (p - n)).
    set (P := pow2 (p - n)) in *. set (N := pow2 n) in *.
    set (X := inject_Z x) in *. set (V := value c) in *.
    split; nra.
  - (* negation *)
    destruct Hcons as (_ & Hc).
    destruct (algebraic_tracker D c Halg Hc) as (k & Ht & HD).
    cbn [slack] in Hp. pose proof (slack_nonneg c).
    cbn [approximate value]. cbv zeta. rewrite Ht.
    destruct (child_evaluates fuel D c k (Z.abs p) (IHc Halg Hc) HD ltac:(lia)
                p st ltac:(lia) Hinv) as (x & st1 & Hx & Hxv & Hinv1 & _).
    rewrite (bind_ok _ _ _ _ _ Hx). cbn [deref]. rewrite bind_ret.
    exists (- x)%Z, st1. split; [reflexivity |]. split; [| exact Hinv1].
    apply approximates_iff in Hxv. apply approximates_iff. rewrite inject_Z_opp.
    set (P := pow2 p) in *. set (X := inject_Z x) in *. set (V := value c) in *.
    split; lra.
  - (* named *)
    cbn [approximate value]. cbn [slack] in Hp. apply IHc; assumption.
Qed.
(** ** The approximation contract: the statement *)

Lemma trackerInv_empty D : trackerInv D emptyStore.
Proof. intros k Hv. unfold trackerAt in Hv. cbn in Hv. rewrite lookup_empty in Hv. discriminate. Qed.

(** C1, as stated, fails: the bound |a * 2^p - x| < 1 does not hold at a
    positive precision; the integer 1 at precision 1 is answered with 1 (the
    test suite expects this), and |1 * 2 - 1| = 1. *)
Lemma Approximate_literal_bound_fails :
  run (do c <- FromInt64 1; Approximate 0 c 1) = Ok (Some 1%Z) /\
  ~ Qabs (inject_Z 1 * pow2 1 - value (constructiveInteger 0 1)) < 1.
Proof. split; [vm_compute; reflexivity |]. vm_compute. discriminate. Qed.

(** C1, amended: for every Real x built from integer leaves with Add,
    Subtract, Negate, ShiftLeft/ShiftRight and Multiply, on a heap whose valid
    trackers hold approximations of their nodes (a fresh heap is one), and for
    every precision p such that |p| plus the precision offsets of the
    expression, [slack x], stays below 2^60, [Approximate x p] returns an
    integer a with |a * 2^p - x| < 2^p, x being the exact value of the
    expression, and leaves such a heap. *)
Theorem Approximate_contract (fuel : nat) (D : nat -> Q) (c : Real) (p : Z) (st : store) :
  algebraic c -> consistent D c -> trackerInv D st ->
  (Z.abs p + slack c < 2 ^ 60)%Z ->
  exists a st',
    Approximate fuel c p st = (Ok (Some a), st') /\
    Qabs (inject_Z a * pow2 p - value c) < pow2 p /\
    trackerInv D st'.
Proof.
  intros Halg Hcons Hinv Hp. change (2 ^ 60)%Z with 1152921504606846976%Z in Hp.
  destruct (algebraic_tracker D c Halg Hcons) as (k & Ht & HD).
  pose proof (slack_nonneg c) as Hs.
  unfold Approximate. rewrite Ht.
  destruct (Approximate_with_spec D k (value c) (approximate fuel c) p st HD
              (range_valid p ltac:(lia)) Hinv
              (approximate_spec fuel D c Halg Hcons p st Hp Hinv))
    as (a & st' & Heq & Ha & Hinv' & _).
  exists a, st'. split; [exact Heq |]. split; [exact Ha | exact Hinv'].
Qed.

Lemma Approximate_contract_witness :
  let x := constructiveInteger 0 3 in
  let c := constructiveMultiplication 3 (constructiveAddition 2 x (constructiveNegation 1 x))
             (constructiveShift 4 x (-1)) in
  let D := fun k : nat =>
             match k with
             | O => 3 | 1%nat => - (3) | 2%nat => 0 | 3%nat => 0 | _ => 3 # 2
             end in
  exists a st',
    Approximate 0 c (-8) emptyStore = (Ok (Some a), st') /\
    Qabs (inject_Z a * pow2 (-8) - value c) < pow2 (-8) /\
    trackerInv D st'.
Proof.
  intros x c D.
  apply (Approximate_contract 0 D c (-8) emptyStore).
  - cbn. tauto.
  - cbn. repeat split; reflexivity.
  - apply trackerInv_empty.
  - vm_compute. reflexivity.
Defined.

(** The contract on some nodes of the test suite, by evaluation. *)
Example Approximate_product_shared :
  run (do x <- FromInt 3; do s <- Square x; Approximate 0 s (-4)) = Ok (Some 144%Z).
Proof. vm_compute. reflexivity. Qed.

(** [Inverse] is left out of the contract: besides the sign (C2), the
    sentinel of [msd] is not tested, and the inverse of a small nonzero value
    is off or panics. *)
Example Inverse_small_argument :
  run (do c <- FromInt 20; do i <- Inverse c; do j <- Inverse i; Approximate 0 j 0)
    = Ok (Some 16%Z) /\
  run (do c <- FromInt 1; do s <- ShiftRight c 10; do j <- Inverse s; Approximate 0 j 0)
    = Panic divisionByZero.
Proof. split; vm_compute; reflexivity. Qed.

Local Close Scope Q_scope.

(** * Further properties of the package *)

(** ** The cache behind [Approximate] *)

Lemma bind_inv {A B} (m : M A) (k : A -> M B) st b st' :
  bind m k st = (Ok b, st') ->
  exists a st1, m st = (Ok a, st1) /\ k a st1 = (Ok b, st').
Proof.
  unfold bind. destruct (m st) as [[a | msg |] st1]; intros H; try discriminate.
  exists a, st1. split; [reflexivity | exact H].
Qed.

Lemma scale_same_precision v p : scale v (sub p p) = v.
Proof.
  unfold sub. rewrite Z.sub_diag. reflexivity.
Qed.

(** What a returning [Approximate] leaves in the tracker of its node. *)
Lemma Approximate_with_returns k f p st r st' :
  IsPrecisionValid p = true ->
  Approximate_with (Some k) f p st = (Ok r, st') ->
  IsValid (trackerAt st' k) = true /\ MinPrecision (trackerAt st' k) <= p /\
  ((exists m, MaxApproximation (trackerAt st' k) = Some m /\
              r = Some (scale m (sub (MinPrecision (trackerAt st' k)) p))) \/
   (r = None /\ MaxApproximation (trackerAt st' k) = None /\
    MinPrecision (trackerAt st' k) = p)).
Proof.
  intros Hp H. unfold Approximate_with in H. rewrite Hp in H. cbn [negb] in H.
  rewrite bind_load in H. unfold tracker_Get in H.
  destruct (IsValid (trackerAt st k) && (MinPrecision (trackerAt st k) <=? p)) eqn:Hhit.
  - apply andb_true_iff in Hhit. destruct Hhit as [Hv Hle]. apply Z.leb_le in Hle.
    destruct (MaxApproximation (trackerAt st k)) as [m |] eqn:Hm.
    + rewrite bind_lift_ok in H. cbn [snd fst] in H. unfold ret in H.
      inversion H; subst r st'. split; [exact Hv |]. split; [exact Hle |].
      left. exists m. split; [exact Hm | reflexivity].
    + unfold bind, lift in H. discriminate.
  - rewrite bind_lift_ok in H. cbn [snd fst] in H.
    apply bind_inv in H. destruct H as (s & st1 & _ & Hset).
    unfold storeSet, tracker_Set in Hset. inversion Hset; subst r st'.
    rewrite trackerAt_setTracker. destruct (decide (k = k)); [| contradiction].
    cbn [IsValid MinPrecision MaxApproximation].
    split; [reflexivity |]. split; [lia |].
    destruct s as [a |].
    + left. exists a. split; [reflexivity |]. now rewrite scale_same_precision.
    + right. auto.
Qed.

Lemma Approximate_with_hit k f p st m :
  IsPrecisionValid p = true ->
  IsValid (trackerAt st k) = true -> MinPrecision (trackerAt st k) <= p ->
  MaxApproximation (trackerAt st k) = Some m ->
  Approximate_with (Some k) f p st =
  (Ok (Some (scale m (sub (MinPrecision (trackerAt st k)) p))), st).
Proof.
  intros Hp Hv Hle Hm. unfold Approximate_with. rewrite Hp. cbn [negb].
  rewrite bind_load. unfold tracker_Get. rewrite Hv, Hm, andb_true_l.
  destruct (Z.leb_spec (MinPrecision (trackerAt st k)) p); [| lia].
  reflexivity.
Qed.

Lemma Approximate_returns_tracker fuel c p st r st' :
  IsPrecisionValid p = true -> Approximate fuel c p st = (Ok r, st') ->
  exists k, trackerOf c = Some k.
Proof.
  intros Hp H. unfold Approximate, Approximate_with in H. rewrite Hp in H. cbn [negb] in H.
  destruct (trackerOf c) as [k |]; [eauto | discriminate].
Qed.

(** X1: once [Approximate c p] has returned an integer, asking again for the
    same precision returns the same integer, and asking for any coarser valid
    precision returns the cached approximation rescaled; neither runs the
    node (any budget does) nor changes the heap. *)
Theorem Approximate_repeat (fuel fuel' : nat) (c : Real) (p p' a : Z) (st st' : store) :
  IsPrecisionValid p = true -> IsPrecisionValid p' = true -> p <= p' ->
  Approximate fuel c p st = (Ok (Some a), st') ->
  Approximate fuel' c p st' = (Ok (Some a), st') /\
  exists k m,
    trackerOf c = Some k /\ MaxApproximation (trackerAt st' k) = Some m /\
    Approximate fuel' c p' st' =
    (Ok (Some (scale m (sub (MinPrecision (trackerAt st' k)) p'))), st').
Proof.
  intros Hp Hp' Hle H.
  destruct (Approximate_returns_tracker fuel c p st _ st' Hp H) as [k Hk].
  unfold Approximate in *. rewrite Hk in *.
  destruct (Approximate_with_returns k _ p st _ st' Hp H) as (Hv & Hq & [(m & Hm & Ha) | (Hn & _)]);
    [| discriminate].
  split.
  - rewrite (Approximate_with_hit k _ p st' m Hp Hv Hq Hm). now rewrite <- Ha.
  - exists k, m. split; [reflexivity |]. split; [exact Hm |].
    apply Approximate_with_hit; [exact Hp' | exact Hv | lia | exact Hm].
Qed.

Lemma Approximate_repeat_witness :
  let c := constructiveInteger 0 9 in
  let st' := setTracker emptyStore 0%nat (mkTracker true (Some 288) (-5)) in
  Approximate 0 c (-5) st' = (Ok (Some 288), st') /\
  exists k m,
    trackerOf c = Some k /\ MaxApproximation (trackerAt st' k) = Some m /\
    Approximate 0 c (-2) st' =
    (Ok (Some (scale m (sub (MinPrecision (trackerAt st' k)) (-2)))), st').
Proof.
  intros c st'.
  apply (Approximate_repeat 0 0 c (-5) (-2) 288 emptyStore st'); [reflexivity | reflexivity | lia |].
  vm_compute. reflexivity.
Defined.

(** X2: a nil answer at a valid precision is cached like any other, and
    every later request at that or a coarser valid precision panics on the
    cached nil pointer. *)
Theorem Approximate_nil_is_cached (fuel fuel' : nat) (c : Real) (p p' : Z) (st st' : store) :
  IsPrecisionValid p = true -> IsPrecisionValid p' = true -> p <= p' ->
  Approximate fuel c p st = (Ok None, st') ->
  Approximate fuel' c p' st' = (Panic nilDeref, st').
Proof.
  intros Hp Hp' Hle H.
  destruct (Approximate_returns_tracker fuel c p st _ st' Hp H) as [k Hk].
  unfold Approximate in *. rewrite Hk in *.
  destruct (Approximate_with_returns k _ p st _ st' Hp H)
    as (Hv & Hq & [(m & Hm & Ha) | (_ & Hm & Hqp)]); [discriminate |].
  unfold Approximate_with. rewrite Hp'. cbn [negb]. rewrite bind_load.
  unfold tracker_Get. rewrite Hv, Hm, andb_true_l.
  destruct (Z.leb_spec (MinPrecision (trackerAt st' k)) p'); [reflexivity | lia].
Qed.

Lemma Approximate_nil_is_cached_witness :
  let c := prescaledSqrt 1 (constructiveInteger 0 (-4)) in
  Approximate 0 c 3 (snd (Approximate 0 c 0 emptyStore)) =
  (Panic nilDeref, snd (Approximate 0 c 0 emptyStore)).
Proof.
  intros c.
  apply (Approximate_nil_is_cached 0 0 c 0 3 emptyStore); [reflexivity | reflexivity | lia |].
  vm_compute. reflexivity.
Defined.

(** ** The multiplicative inverse never answers with a negative integer *)

(** X3: whatever the sign of its argument, an integer computed by
    [constructiveMultiplicativeInverse.approximate] is not negative, and so is
    the answer of [Approximate] on an inverse whose tracker is still invalid. *)
Theorem Inverse_never_negative (fuel : nat) (t : nat) (r : Real) (p a : Z) (st st' : store) :
  IsValid (trackerAt st t) = false ->
  Approximate fuel (constructiveMultiplicativeInverse t r) p st = (Ok (Some a), st') ->
  0 <= a /\
  (forall q b s s', approximate fuel (constructiveMultiplicativeInverse t r) q s = (Ok (Some b), s') ->
                    0 <= b).
Proof.
  assert (Hmethod : forall q b s s',
            approximate fuel (constructiveMultiplicativeInverse t r) q s = (Ok (Some b), s') ->
            0 <= b).
  { intros q b s s' H. cbn [approximate] in H. cbv zeta in H.
    apply bind_inv in H. destruct H as (mr & s1 & _ & H).
    destruct (sub (neg q) (sub mr (add (sub (sub 1 mr) q) 3)) <? 0).
    - inversion H. lia.
    - apply bind_inv in H. destruct H as (d & s2 & _ & H).
      apply bind_inv in H. destruct H as (d' & s3 & _ & H).
      apply bind_inv in H. destruct H as (res & s4 & _ & H).
      destruct (Z.ltb_spec res 0); inversion H; lia. }
  intros Hfresh H. split; [| exact Hmethod].
  unfold Approximate in H. cbn [trackerOf] in H. unfold Approximate_with in H.
  destruct (IsPrecisionValid p); cbn [negb] in H; [| discriminate].
  rewrite bind_load in H. unfold tracker_Get in H. rewrite Hfresh, andb_false_l in H.
  rewrite bind_lift_ok in H. cbn [snd fst] in H.
  apply bind_inv in H. destruct H as (s & st1 & Hm & Hset).
  unfold storeSet, tracker_Set in Hset. inversion Hset; subst s.
  eapply Hmethod. exact Hm.
Qed.

Lemma Inverse_never_negative_witness :
  let r := constructiveInteger 0 (-2) in
  0 <= 16 /\
  (forall q b s s', approximate 0 (constructiveMultiplicativeInverse 1 r) q s = (Ok (Some b), s') ->
                    0 <= b).
Proof.
  intros r.
  apply (Inverse_never_negative 0 1 r (-5) 16 emptyStore
           (snd (Approximate 0 (constructiveMultiplicativeInverse 1 r) (-5) emptyStore)));
    vm_compute; reflexivity.
Defined.

Local Open Scope Q_scope.

(** ** Order and sign of algebraic expressions *)

(** [Approximate] on an algebraic expression, with what it leaves in the
    tracker of the expression. *)
Lemma Approximate_post fuel D c p st :
  algebraic c -> consistent D c -> trackerInv D st ->
  (Z.abs p + slack c < 1152921504606846976)%Z ->
  exists k, trackerOf c = Some k /\ D k == value c /\
            approxPost D k (value c) p st (Approximate fuel c p st).
Proof.
  intros Halg Hcons Hinv Hp.
  destruct (algebraic_tracker D c Halg Hcons) as (k & Ht & HD).
  pose proof (slack_nonneg c) as Hs.
  exists k. split; [exact Ht |]. split; [exact HD |].
  unfold Approximate. rewrite Ht.
  apply Approximate_with_spec; [exact HD | apply range_valid; lia | exact Hinv |].
  apply approximate_spec; assumption.
Qed.

Lemma Approximate_algebraic fuel D c p st :
  algebraic c -> consistent D c -> trackerInv D st ->
  (Z.abs p + slack c < 1152921504606846976)%Z ->
  exists a st', Approximate fuel c p st = (Ok (Some a), st') /\
                approximates (value c) p a /\ trackerInv D st'.
Proof.
  intros Halg Hcons Hinv Hp.
  destruct (Approximate_post fuel D c p st Halg Hcons Hinv Hp)
    as (k & _ & _ & a & st' & Heq & Ha & Hinv' & _).
  exists a, st'. auto.
Qed.

Lemma approximates_pos v q m : approximates v q m -> (0 < m)%Z -> 0 < v.
Proof.
  intros H Hm. apply approximates_iff in H. pose proof (pow2_pos q) as Hq.
  assert (1 <= inject_Z m) by (change 1 with (inject_Z 1); rewrite <- Zle_Qle; lia).
  set (P := pow2 q) in *. set (I := inject_Z m) in *. nra.
Qed.

Lemma approximates_neg v q m : approximates v q m -> (m < 0)%Z -> v < 0.
Proof.
  intros H Hm. apply approximates_iff in H. pose proof (pow2_pos q) as Hq.
  assert (inject_Z m <= -1) by (change (-1) with (inject_Z (-1)); rewrite <- Zle_Qle; lia).
  set (P := pow2 q) in *. set (I := inject_Z m) in *. nra.
Qed.

(** What two approximations at one precision say about the order. *)
Lemma approximates_order va vb q x y :
  approximates va q x -> approximates vb q y ->
  ((y + 1 < x)%Z -> vb < va) /\ ((x < y - 1)%Z -> va < vb) /\
  ((x <= y + 1)%Z -> (y - 1 <= x)%Z -> Qabs (va - vb) < 3 * pow2 q).
Proof.
  intros Hx Hy. apply approximates_iff in Hx. apply approximates_iff in Hy.
  pose proof (pow2_pos q) as Hq.
  set (P := pow2 q) in *.
  split; [| split].
  - intros H. assert (inject_Z y + 2 <= inject_Z x)
      by (change 2 with (inject_Z 2); rewrite <- inject_Z_plus, <- Zle_Qle; lia).
    set (X := inject_Z x) in *. set (Y := inject_Z y) in *. nra.
  - intros H. assert (inject_Z x + 2 <= inject_Z y)
      by (change 2 with (inject_Z 2); rewrite <- inject_Z_plus, <- Zle_Qle; lia).
    set (X := inject_Z x) in *. set (Y := inject_Z y) in *. nra.
  - intros H1 H2.
    assert (inject_Z x <= inject_Z y + 1)
      by (change 1 with (inject_Z 1); rewrite <- inject_Z_plus, <- Zle_Qle; lia).
    assert (inject_Z y <= inject_Z x + 1)
      by (change 1 with (inject_Z 1); rewrite <- inject_Z_plus, <- Zle_Qle; lia).
    set (X := inject_Z x) in *. set (Y := inject_Z y) in *.
    apply Qabs_case; intros Hs; nra.
Qed.

Lemma algebraic_not_nil c : algebraic c -> isNil c = false.
Proof. destruct c; cbn; intros H; try reflexivity; contradiction. Qed.

Lemma PreciseCmp_algebraic fuel D a b p st :
  algebraic a -> algebraic b -> consistent D a -> consistent D b -> trackerInv D st ->
  (Z.abs p + 1 + slack a < 1152921504606846976)%Z ->
  (Z.abs p + 1 + slack b < 1152921504606846976)%Z ->
  exists r st',
    PreciseCmp fuel a b p st = (Ok r, st') /\ trackerInv D st' /\
    ((r = 1%Z /\ value b < value a) \/ (r = (-1)%Z /\ value a < value b) \/
     (r = 0%Z /\ Qabs (value a - value b) < 3 * pow2 (p - 1))).
Proof.
  intros Ha Hb Hca Hcb Hinv Hpa Hpb.
  pose proof (slack_nonneg a). pose proof (slack_nonneg b).
  unfold PreciseCmp. rewrite (algebraic_not_nil a Ha), (algebraic_not_nil b Hb).
  cbn [orb]. unfold sub. rewrite wrap_small by lia.
  destruct (Approximate_algebraic fuel D a (p - 1) st Ha Hca Hinv ltac:(lia))
    as (x & st1 & Hx & Hax & Hinv1).
  destruct (Approximate_algebraic fuel D b (p - 1) st1 Hb Hcb Hinv1 ltac:(lia))
    as (y & st2 & Hy & Hay & Hinv2).
  rewrite (bind_ok _ _ _ _ _ Hx), (bind_ok _ _ _ _ _ Hy).
  destruct (approximates_order _ _ _ _ _ Hax Hay) as (Hgt & Hlt & Heq).
  destruct (Z.ltb_spec (y + 1) x) as [H1 | H1].
  - exists 1%Z, st2. split; [reflexivity |]. split; [exact Hinv2 |]. left. auto.
  - destruct (Z.ltb_spec x (y - 1)) as [H2 | H2].
    + exists (-1)%Z, st2. split; [reflexivity |]. split; [exact Hinv2 |]. right. left. auto.
    + exists 0%Z, st2. split; [reflexivity |]. split; [exact Hinv2 |]. right. right. auto.
Qed.

(** X4: on algebraic expressions [PreciseCmp a b p] returns, and its answer
    is sound: 1 only if a > b, -1 only if a < b, and 0 only if the two values
    are closer than 3 * 2^(p-1). *)
Theorem PreciseCmp_sound (fuel : nat) (D : nat -> Q) (a b : Real) (p : Z) (st : store) :
  algebraic a -> algebraic b -> consistent D a -> consistent D b -> trackerInv D st ->
  (Z.abs p + 1 + slack a < 2 ^ 60)%Z -> (Z.abs p + 1 + slack b < 2 ^ 60)%Z ->
  exists r st',
    PreciseCmp fuel a b p st = (Ok r, st') /\ trackerInv D st' /\
    (r = 1%Z \/ r = (-1)%Z \/ r = 0%Z) /\
    (r = 1%Z -> value b < value a) /\
    (r = (-1)%Z -> value a < value b) /\
    (r = 0%Z -> Qabs (value a - value b) < 3 * pow2 (p - 1)).
Proof.
  intros Ha Hb Hca Hcb Hinv Hpa Hpb.
  change (2 ^ 60)%Z with 1152921504606846976%Z in *.
  destruct (PreciseCmp_algebraic fuel D a b p st Ha Hb Hca Hcb Hinv Hpa Hpb)
    as (r & st' & Heq & Hinv' & Hr).
  exists r, st'. split; [exact Heq |]. split; [exact Hinv' |].
  destruct Hr as [[-> H] | [[-> H] | [-> H]]];
    (split; [tauto |]); repeat split; intros E; try discriminate E; exact H.
Qed.

Lemma PreciseCmp_sound_witness :
  let a := constructiveInteger 0 1 in
  let b := constructiveShift 2 (constructiveInteger 1 3) (-1) in
  let D := fun k : nat => match k with O => 1 | 1%nat => 3 | _ => 3 # 2 end in
  exists r st',
    PreciseCmp 0 a b 0 emptyStore = (Ok r, st') /\ trackerInv D st' /\
    (r = 1%Z \/ r = (-1)%Z \/ r = 0%Z) /\
    (r = 1%Z -> value b < value a) /\
    (r = (-1)%Z -> value a < value b) /\
    (r = 0%Z -> Qabs (value a - value b) < 3 * pow2 (0 - 1)).
Proof.
  intros a b D.
  apply (PreciseCmp_sound 0 D a b 0 emptyStore).
  - exact I.
  - exact I.
  - cbn. reflexivity.
  - cbn. split; reflexivity.
  - apply trackerInv_empty.
  - vm_compute. reflexivity.
  - vm_compute. reflexivity.
Defined.

(** Two different algebraic values are apart by at least 2^(-d), d bounding
    both denominators. *)
Lemma algebraic_apart a b :
  algebraic a -> algebraic b -> ~ value a == value b ->
  pow2 (- Z.max (dbits a) (dbits b)) <= Qabs (value a - value b).
Proof.
  intros Ha Hb Hne.
  pose (c := constructiveAddition 0 a (constructiveNegation 0 b)).
  assert (Hc : algebraic c) by (cbn; auto).
  assert (Hv : value c == value a - value b) by (cbn [c value]; ring).
  assert (Hnz : ~ value c == 0) by (rewrite Hv; intros E; apply Hne; lra).
  pose proof (dbits_lower c Hc Hnz) as H.
  cbn [c dbits] in H. rewrite Hv in H. exact H.
Qed.

Lemma pow2_doubling_last d :
  (d < 288230376151711744)%Z -> 3 * pow2 (-20 * 2 ^ 55 - 1) <= pow2 (- d).
Proof.
  intros Hd.
  pose proof (pow2_pred (-20 * 2 ^ 55 + 1)) as H1.
  pose proof (pow2_pred (-20 * 2 ^ 55)) as H2.
  replace (-20 * 2 ^ 55 + 1 - 1)%Z with (-20 * 2 ^ 55)%Z in H1 by lia.
  assert (H3 : pow2 (-20 * 2 ^ 55 + 1) <= pow2 (- d)).
  { apply pow2_le. change (2 ^ 55)%Z with 36028797018963968%Z. lia. }
  pose proof (pow2_pos (-20 * 2 ^ 55 - 1)).
  set (A := pow2 (-20 * 2 ^ 55 - 1)) in *. set (B := pow2 (-20 * 2 ^ 55)) in *.
  set (C := pow2 (-20 * 2 ^ 55 + 1)) in *. lra.
Qed.

Lemma firstNonzeroCmp_algebraic fuel D a b :
  algebraic a -> algebraic b -> consistent D a -> consistent D b ->
  (slack a < 288230376151711744)%Z -> (slack b < 288230376151711744)%Z ->
  forall m j st, (j + m = 56)%nat -> trackerInv D st ->
    exists r st',
      firstNonzeroCmp fuel a b (doublings j m) st = (Ok r, st') /\ trackerInv D st' /\
      ((r = 1%Z /\ value b < value a) \/ (r = (-1)%Z /\ value a < value b) \/
       (r = 0%Z /\ (m = 0%nat \/ Qabs (value a - value b) < 3 * pow2 (-20 * 2 ^ 55 - 1)))).
Proof.
  intros Ha Hb Hca Hcb Hsa Hsb.
  induction m as [| m IH]; intros j st Hj Hinv.
  - exists 0%Z, st. split; [reflexivity |]. split; [exact Hinv |]. right. right. auto.
  - unfold doublings. cbn [seq map firstNonzeroCmp].
    assert (H1 : (1 <= 2 ^ Z.of_nat j)%Z)
      by (pose proof (Z.pow_pos_nonneg 2 (Z.of_nat j) ltac:(lia) ltac:(lia)); lia).
    assert (H2 : (2 ^ Z.of_nat j <= 2 ^ 55)%Z) by (apply Z.pow_le_mono_r; lia).
    change (2 ^ 55)%Z with 36028797018963968%Z in H2.
    pose proof (slack_nonneg a). pose proof (slack_nonneg b).
    destruct (PreciseCmp_algebraic fuel D a b (-20 * 2 ^ Z.of_nat j) st Ha Hb Hca Hcb Hinv
                ltac:(lia) ltac:(lia)) as (r & st1 & Heq & Hinv1 & Hr).
    rewrite (bind_ok _ _ _ _ _ Heq).
    destruct Hr as [[-> H'] | [[-> H'] | [-> H']]].
    + exists 1%Z, st1. split; [reflexivity |]. split; [exact Hinv1 |]. left. auto.
    + exists (-1)%Z, st1. split; [reflexivity |]. split; [exact Hinv1 |]. right. left. auto.
    + cbn [Z.eqb negb].
      destruct (IH (S j) st1 ltac:(lia) Hinv1) as (r & st2 & Heq2 & Hinv2 & Hr).
      exists r, st2. split; [exact Heq2 |]. split; [exact Hinv2 |].
      destruct Hr as [Hr | [Hr | [-> [Hm | Hr]]]]; [left; exact Hr | right; left; exact Hr | |].
      * right. right. split; [reflexivity |]. right.
        assert (j = 55)%nat by lia. subst j m. exact H'.
      * right. right. split; [reflexivity |]. right. exact Hr.
Qed.

(** X5: [Cmp] decides the order of algebraic expressions: with a budget of at
    least 57 iterations it returns 1 when a > b, -1 when a < b, and, against
    its comment, it also returns when a = b: 0, after the 56 valid precisions
    of the doubling sequence. *)
Theorem Cmp_decides (fuel : nat) (D : nat -> Q) (a b : Real) (st : store) :
  algebraic a -> algebraic b -> consistent D a -> consistent D b -> trackerInv D st ->
  (slack a < 2 ^ 58)%Z -> (slack b < 2 ^ 58)%Z ->
  (dbits a < 2 ^ 58)%Z -> (dbits b < 2 ^ 58)%Z ->
  (57 <= fuel)%nat ->
  exists r st',
    Cmp fuel a b st = (Ok r, st') /\ trackerInv D st' /\
    (value b < value a -> r = 1%Z) /\
    (value a < value b -> r = (-1)%Z) /\
    (value a == value b -> r = 0%Z).
Proof.
  intros Ha Hb Hca Hcb Hinv Hsa Hsb Hda Hdb Hn.
  change (2 ^ 58)%Z with 288230376151711744%Z in *.
  unfold Cmp. change (-20)%Z with (-20 * 2 ^ Z.of_nat 0)%Z.
  rewrite (Cmp_loop_doublings fuel a b 56 0 fuel eq_refl ltac:(lia) st).
  destruct (firstNonzeroCmp_algebraic fuel D a b Ha Hb Hca Hcb Hsa Hsb 56 0 st eq_refl Hinv)
    as (r & st' & Heq & Hinv' & Hr).
  exists r, st'. split; [exact Heq |]. split; [exact Hinv' |].
  assert (Hzero : r = 0%Z -> value a == value b).
  { intros ->. destruct Hr as [[E _] | [[E _] | [_ [E | Hclose]]]]; try discriminate E.
    destruct (Qeq_dec (value a) (value b)) as [E | Hne]; [exact E | exfalso].
    pose proof (algebraic_apart a b Ha Hb Hne) as Hap.
    pose proof (pow2_doubling_last (Z.max (dbits a) (dbits b)) ltac:(lia)) as Hl.
    lra. }
  destruct Hr as [[-> H] | [[-> H] | [-> H]]].
  - repeat split; intros; try reflexivity; lra.
  - repeat split; intros; try reflexivity; lra.
  - specialize (Hzero eq_refl). repeat split; intros; try reflexivity; lra.
Qed.

Lemma Cmp_decides_witness :
  let a := constructiveInteger 0 1 in
  let b := constructiveShift 2 (constructiveInteger 1 3) (-1) in
  let D := fun k : nat => match k with O => 1 | 1%nat => 3 | _ => 3 # 2 end in
  exists r st',
    Cmp 57 a b emptyStore = (Ok r, st') /\ trackerInv D st' /\
    (value b < value a -> r = 1%Z) /\
    (value a < value b -> r = (-1)%Z) /\
    (value a == value b -> r = 0%Z).
Proof.
  intros a b D.
  apply (Cmp_decides 57 D a b emptyStore).
  - exact I.
  - exact I.
  - cbn. reflexivity.
  - cbn. split; reflexivity.
  - apply trackerInv_empty.
  - vm_compute. reflexivity.
  - vm_compute. reflexivity.
  - vm_compute. reflexivity.
  - vm_compute. reflexivity.
  - apply le_n.
Defined.

(** ** The sign *)

Lemma PreciseSign_algebraic fuel D c p st :
  algebraic c -> consistent D c -> trackerInv D st ->
  (IsPrecisionValid (sub p 1) = false \/
   (Z.abs (sub p 1) + slack c < 1152921504606846976)%Z) ->
  exists r st',
    PreciseSign fuel c p st = (Ok r, st') /\ trackerInv D st' /\
    ((r = 1%Z /\ 0 < value c) \/ (r = (-1)%Z /\ value c < 0) \/
     (r = 0%Z /\ (IsPrecisionValid (sub p 1) = false \/ Qabs (value c) < pow2 (sub p 1)))).
Proof.
  intros Halg Hcons Hinv Hp.
  destruct (algebraic_tracker D c Halg Hcons) as (k & Ht & HD).
  assert (Hsgn : forall q m, approximates (value c) q m ->
            (Z.sgn m = 1%Z /\ 0 < value c) \/ (Z.sgn m = (-1)%Z /\ value c < 0) \/
            (Z.sgn m = 0%Z /\ Qabs (value c) < pow2 q)).
  { intros q m Hm. destruct (Z.lt_trichotomy m 0) as [Hlt | [-> | Hgt]].
    - right. left. split; [apply Z.sgn_neg; exact Hlt | eapply approximates_neg; eauto].
    - right. right. split; [reflexivity | apply approximates_zero; exact Hm].
    - left. split; [apply Z.sgn_pos; exact Hgt | eapply approximates_pos; eauto]. }
  assert (Hcall : exists r st',
            (do ic <- Approximate fuel c (sub p 1);
             match ic with None => ret 0%Z | Some z => ret (Z.sgn z) end) st = (Ok r, st') /\
            trackerInv D st' /\
            ((r = 1%Z /\ 0 < value c) \/ (r = (-1)%Z /\ value c < 0) \/
             (r = 0%Z /\ (IsPrecisionValid (sub p 1) = false \/
                          Qabs (value c) < pow2 (sub p 1))))).
  { destruct (IsPrecisionValid (sub p 1)) eqn:Hvalid.
    - destruct Hp as [Hp | Hp]; [discriminate |].
      destruct (Approximate_algebraic fuel D c (sub p 1) st Halg Hcons Hinv Hp)
        as (a & st' & Heq & Ha & Hinv').
      rewrite (bind_ok _ _ _ _ _ Heq). exists (Z.sgn a), st'.
      split; [reflexivity |]. split; [exact Hinv' |].
      destruct (Hsgn _ _ Ha) as [H | [H | [H1 H2]]]; auto.
    - assert (E : Approximate fuel c (sub p 1) st = (Ok None, st))
        by (apply Approximate_with_invalid; exact Hvalid).
      rewrite (bind_ok _ _ _ _ _ E).
      exists 0%Z, st. split; [reflexivity |]. split; [exact Hinv |]. auto. }
  unfold PreciseSign, PreciseSign_with. rewrite Ht, bind_load.
  destruct (IsValid (trackerAt st k)) eqn:Hv.
  - destruct (Hinv k Hv) as (_ & m & Hm & Ham). rewrite Hm.
    apply (approximates_proper _ _ _ _ HD) in Ham.
    cbn [deref]. rewrite bind_assoc_ret, bind_ret.
    destruct (Z.eqb_spec (Z.sgn m) 0) as [E | E]; cbn [negb].
    + exact Hcall.
    + exists (Z.sgn m), st. split; [reflexivity |]. split; [exact Hinv |].
      destruct (Hsgn _ _ Ham) as [H | [H | [H1 H2]]]; auto. contradiction.
  - rewrite bind_ret. cbn [Z.eqb negb]. exact Hcall.
Qed.

(** X6: on algebraic expressions [PreciseSign c p] returns, and its answer is
    sound: 1 only if c > 0, -1 only if c < 0, and 0 only if |c| < 2^(p-1). *)
Theorem PreciseSign_sound (fuel : nat) (D : nat -> Q) (c : Real) (p : Z) (st : store) :
  algebraic c -> consistent D c -> trackerInv D st ->
  (Z.abs p + 1 + slack c < 2 ^ 60)%Z ->
  exists r st',
    PreciseSign fuel c p st = (Ok r, st') /\ trackerInv D st' /\
    (r = 1%Z \/ r = (-1)%Z \/ r = 0%Z) /\
    (r = 1%Z -> 0 < value c) /\
    (r = (-1)%Z -> value c < 0) /\
    (r = 0%Z -> Qabs (value c) < pow2 (p - 1)).
Proof.
  intros Halg Hcons Hinv Hp. change (2 ^ 60)%Z with 1152921504606846976%Z in Hp.
  pose proof (slack_nonneg c) as Hs.
  assert (Hsub : sub p 1 = (p - 1)%Z) by (unfold sub; apply wrap_small; lia).
  destruct (PreciseSign_algebraic fuel D c p st Halg Hcons Hinv) as (r & st' & Heq & Hinv' & Hr).
  { right. rewrite Hsub. lia. }
  exists r, st'. split; [exact Heq |]. split; [exact Hinv' |].
  rewrite Hsub in Hr. rewrite (range_valid (p - 1)) in Hr by lia.
  destruct Hr as [[-> H] | [[-> H] | [-> [H | H]]]]; try discriminate H;
    (split; [tauto |]); repeat split; intros E; try discriminate E; exact H.
Qed.

Lemma PreciseSign_sound_witness :
  let c := constructiveNegation 1 (constructiveInteger 0 3) in
  let D := fun k : nat => match k with O => 3 | _ => - (3) end in
  exists r st',
    PreciseSign 0 c (-4) emptyStore = (Ok r, st') /\ trackerInv D st' /\
    (r = 1%Z \/ r = (-1)%Z \/ r = 0%Z) /\
    (r = 1%Z -> 0 < value c) /\
    (r = (-1)%Z -> value c < 0) /\
    (r = 0%Z -> Qabs (value c) < pow2 (-4 - 1)).
Proof.
  intros c D.
  apply (PreciseSign_sound 0 D c (-4) emptyStore).
  - exact I.
  - cbn. split; reflexivity.
  - apply trackerInv_empty.
  - vm_compute. reflexivity.
Defined.

Lemma Sign_loop_algebraic fuel D c :
  algebraic c -> consistent D c -> ~ value c == 0 ->
  (slack c < 288230376151711744)%Z -> (dbits c < 288230376151711744)%Z ->
  forall m j n st, (j + S m = 56)%nat -> (m < n)%nat -> trackerInv D st ->
    exists r st',
      Sign_loop n (Approximate fuel c) (trackerOf c) (-20 * 2 ^ Z.of_nat j) st = (Ok r, st') /\
      trackerInv D st' /\
      ((r = 1%Z /\ 0 < value c) \/ (r = (-1)%Z /\ value c < 0)).
Proof.
  intros Halg Hcons Hnz Hs Hd.
  pose proof (slack_nonneg c) as Hs0.
  pose proof (dbits_lower c Halg Hnz) as Hlow.
  induction m as [| m IH]; intros j n st Hj Hn Hinv;
    (destruct n as [| n]; [lia |]); cbn [Sign_loop];
    assert (H1 : (1 <= 2 ^ Z.of_nat j)%Z)
      by (pose proof (Z.pow_pos_nonneg 2 (Z.of_nat j) ltac:(lia) ltac:(lia)); lia);
    assert (H2 : (2 ^ Z.of_nat j <= 2 ^ 55)%Z) by (apply Z.pow_le_mono_r; lia);
    change (2 ^ 55)%Z with 36028797018963968%Z in H2;
    assert (Hs1 : sub (-20 * 2 ^ Z.of_nat j) 1 = (-20 * 2 ^ Z.of_nat j - 1)%Z)
      by (unfold sub; apply wrap_small; lia);
    assert (Hs2 : sub (sub (-20 * 2 ^ Z.of_nat j) 1) 1 = (-20 * 2 ^ Z.of_nat j - 2)%Z)
      by (rewrite Hs1; unfold sub; rewrite wrap_small by lia; lia);
    destruct (PreciseSign_algebraic fuel D c (sub (-20 * 2 ^ Z.of_nat j) 1) st Halg Hcons Hinv
                ltac:(right; rewrite Hs2; lia)) as (r & st1 & Heq & Hinv1 & Hr);
    fold (PreciseSign fuel c (sub (-20 * 2 ^ Z.of_nat j) 1));
    rewrite (bind_ok _ _ _ _ _ Heq);
    (destruct Hr as [[-> H] | [[-> H] | [-> H]]];
     [exists 1%Z, st1; cbn [Z.eqb negb]; auto
     | exists (-1)%Z, st1; cbn [Z.eqb negb]; auto |]).
  - (* the last valid precision separates a nonzero value from 0 *)
    exfalso. rewrite Hs2 in H. rewrite (range_valid (-20 * 2 ^ Z.of_nat j - 2)) in H by lia.
    destruct H as [H | H]; [discriminate |].
    assert (j = 55)%nat by lia. subst j.
    assert (Hle : pow2 (-20 * 2 ^ Z.of_nat 55 - 2) <= pow2 (- dbits c)).
    { apply pow2_le. change (2 ^ Z.of_nat 55)%Z with 36028797018963968%Z. lia. }
    lra.
  - cbn [Z.eqb negb]. rewrite doubling_step by lia.
    apply (IH (S j) n st1); [lia | lia | exact Hinv1].
Qed.

(** X7: [Sign] returns the sign of an algebraic expression whose value is not
    zero: 1 for a positive, -1 for a negative value, with a budget of at
    least 56 iterations. *)
Theorem Sign_nonzero (fuel : nat) (D : nat -> Q) (c : Real) (st : store) :
  algebraic c -> consistent D c -> trackerInv D st -> ~ value c == 0 ->
  (slack c < 2 ^ 58)%Z -> (dbits c < 2 ^ 58)%Z -> (56 <= fuel)%nat ->
  exists r st',
    Sign fuel c st = (Ok r, st') /\ trackerInv D st' /\
    (0 < value c -> r = 1%Z) /\ (value c < 0 -> r = (-1)%Z).
Proof.
  intros Halg Hcons Hinv Hnz Hs Hd Hfuel.
  change (2 ^ 58)%Z with 288230376151711744%Z in *.
  unfold Sign, Sign_with. change (-20)%Z with (-20 * 2 ^ Z.of_nat 0)%Z.
  destruct (Sign_loop_algebraic fuel D c Halg Hcons Hnz Hs Hd 55 0 fuel st eq_refl
              ltac:(lia) Hinv) as (r & st' & Heq & Hinv' & Hr).
  exists r, st'. split; [exact Heq |]. split; [exact Hinv' |].
  destruct Hr as [[-> H] | [-> H]]; split; intros; try reflexivity; lra.
Qed.

Lemma Sign_nonzero_witness :
  let c := constructiveNegation 1 (constructiveInteger 0 3) in
  let D := fun k : nat => match k with O => 3 | _ => - (3) end in
  exists r st',
    Sign 56 c emptyStore = (Ok r, st') /\ trackerInv D st' /\
    (0 < value c -> r = 1%Z) /\ (value c < 0 -> r = (-1)%Z).
Proof.
  intros c D.
  apply (Sign_nonzero 56 D c emptyStore).
  - exact I.
  - cbn. split; reflexivity.
  - apply trackerInv_empty.
  - vm_compute. discriminate.
  - vm_compute. reflexivity.
  - vm_compute. reflexivity.
  - apply le_n.
Defined.

(** The precisions of the loop of [Sign]: p doubles in Go's int, so it is
    -20 * 2^k wrapped to 64 bits, which is 0 from k = 62 on. *)
Lemma mul_wrap_2 z : mul (wrap z) 2 = wrap (z * 2).
Proof.
  unfold mul, wrap, IntSize.
  change (2 ^ (64 - 1))%Z with 9223372036854775808%Z.
  change (2 ^ 64)%Z with 18446744073709551616%Z.
  f_equal.
  pose proof (Z.div_mod (z + 9223372036854775808) 18446744073709551616 ltac:(lia)) as E.
  set (q := ((z + 9223372036854775808) / 18446744073709551616)%Z) in *.
  set (r := ((z + 9223372036854775808) mod 18446744073709551616)%Z) in *.
  replace ((r - 9223372036854775808) * 2 + 9223372036854775808)%Z
    with (z * 2 + 9223372036854775808 + (- (2 * q)) * 18446744073709551616)%Z by lia.
  apply Z_mod_plus_full.
Qed.

Lemma wrap_doubling_large k : (62 <= k)%nat -> wrap (-20 * 2 ^ Z.of_nat k) = 0%Z.
Proof.
  intros Hk. unfold wrap, IntSize.
  change (2 ^ (64 - 1))%Z with 9223372036854775808%Z.
  change (2 ^ 64)%Z with 18446744073709551616%Z.
  replace (Z.of_nat k) with (Z.of_nat (k - 62) + 62)%Z by lia.
  rewrite Z.pow_add_r by lia. change (2 ^ 62)%Z with 4611686018427387904%Z.
  replace (-20 * (2 ^ Z.of_nat (k - 62) * 4611686018427387904) + 9223372036854775808)%Z
    with (9223372036854775808 + (-5 * 2 ^ Z.of_nat (k - 62)) * 18446744073709551616)%Z by lia.
  rewrite Z_mod_plus_full. reflexivity.
Qed.

Lemma sign_precisions_small :
  forallb (fun k => let q := sub (sub (wrap (-20 * 2 ^ Z.of_nat k)) 1) 1 in
                    negb (IsPrecisionValid q) || (Z.abs q <=? 720575940379279362)%Z)
          (seq 0 62) = true.
Proof. vm_compute. reflexivity. Qed.

Lemma sign_precisions k :
  let q := sub (sub (wrap (-20 * 2 ^ Z.of_nat k)) 1) 1 in
  IsPrecisionValid q = false \/ (Z.abs q <= 720575940379279362)%Z.
Proof.
  destruct (Nat.lt_ge_cases k 62) as [Hk | Hk].
  - pose proof sign_precisions_small as H.
    rewrite forallb_forall in H. specialize (H k).
    cbv zeta in *.
    destruct (IsPrecisionValid _); [| left; reflexivity].
    right. cbn [negb orb] in H. apply Z.leb_le. apply H.
    apply in_seq. lia.
  - cbv zeta. rewrite wrap_doubling_large by exact Hk. right. vm_compute. discriminate.
Qed.

Lemma Sign_loop_zero fuel D c :
  algebraic c -> consistent D c -> value c == 0 ->
  (slack c < 288230376151711744)%Z ->
  forall n k st, trackerInv D st ->
    exists st',
      Sign_loop n (Approximate fuel c) (trackerOf c) (wrap (-20 * 2 ^ Z.of_nat k)) st
      = (OutOfFuel, st') /\ trackerInv D st'.
Proof.
  intros Halg Hcons Hz Hs. pose proof (slack_nonneg c) as Hs0.
  induction n as [| n IH]; intros k st Hinv.
  - exists st. split; [reflexivity | exact Hinv].
  - cbn [Sign_loop].
    fold (PreciseSign fuel c (sub (wrap (-20 * 2 ^ Z.of_nat k)) 1)).
    destruct (PreciseSign_algebraic fuel D c (sub (wrap (-20 * 2 ^ Z.of_nat k)) 1) st
                Halg Hcons Hinv) as (r & st1 & Heq & Hinv1 & Hr).
    { destruct (sign_precisions k) as [H | H]; [left; exact H | right; lia]. }
    rewrite (bind_ok _ _ _ _ _ Heq).
    destruct Hr as [[_ H] | [[_ H] | [-> _]]]; [lra | lra |].
    cbn [Z.eqb negb]. rewrite mul_wrap_2.
    replace (-20 * 2 ^ Z.of_nat k * 2)%Z with (-20 * 2 ^ Z.of_nat (S k))%Z
      by (rewrite Nat2Z.inj_succ, Z.pow_succ_r by lia; lia).
    apply IH. exact Hinv1.
Qed.

(** X8: [Sign] never returns on an algebraic expression whose value is zero,
    as its comment warns: whatever the budget, the loop uses it up.  The
    precision wraps around to 0 after 62 doublings and stays there. *)
Theorem Sign_zero_never_returns (fuel : nat) (D : nat -> Q) (c : Real) (st : store) :
  algebraic c -> consistent D c -> trackerInv D st -> value c == 0 ->
  (slack c < 2 ^ 58)%Z ->
  exists st', Sign fuel c st = (OutOfFuel, st') /\ trackerInv D st'.
Proof.
  intros Halg Hcons Hinv Hz Hs. change (2 ^ 58)%Z with 288230376151711744%Z in Hs.
  unfold Sign, Sign_with.
  change (-20)%Z with (wrap (-20 * 2 ^ Z.of_nat 0)).
  apply (Sign_loop_zero fuel D c Halg Hcons Hz Hs); exact Hinv.
Qed.

Lemma Sign_zero_never_returns_witness :
  let x := constructiveInteger 0 3 in
  let c := constructiveAddition 2 x (constructiveNegation 1 x) in
  let D := fun k : nat => match k with O => 3 | 1%nat => - (3) | _ => 0 end in
  exists st', Sign 100 c emptyStore = (OutOfFuel, st') /\ trackerInv D st'.
Proof.
  intros x c D.
  apply (Sign_zero_never_returns 100 D c emptyStore).
  - cbn. tauto.
  - cbn. repeat split; reflexivity.
  - apply trackerInv_empty.
  - vm_compute. reflexivity.
  - vm_compute. reflexivity.
Defined.

(** ** The most significant digit *)

(** X9: the comment of [knownMSD], for [msd] on algebraic expressions: [msd c
    n] returns either the sentinel MinInt, and then |c| < 2^n, or a position m
    with 2^(m-1) < |c| < 2^(m+1). *)
Theorem msd_bounds (fuel : nat) (D : nat -> Q) (c : Real) (n : Z) (st : store) :
  algebraic c -> consistent D c -> trackerInv D st ->
  (Z.abs (n - 1) + slack c < 2 ^ 60)%Z -> (ubits c <= 2 ^ 61)%Z ->
  exists m st',
    msd fuel c n st = (Ok m, st') /\ trackerInv D st' /\
    ((m = MinInt /\ Qabs (value c) < pow2 n) \/
     (pow2 (m - 1) < Qabs (value c) /\ Qabs (value c) < pow2 (m + 1))).
Proof.
  intros Halg Hcons Hinv Hn Hu.
  change (2 ^ 60)%Z with 1152921504606846976%Z in Hn.
  change (2 ^ 61)%Z with 2305843009213693952%Z in Hu.
  destruct (algebraic_tracker D c Halg Hcons) as (k & Ht & HD).
  pose proof (slack_nonneg c) as Hs.
  destruct (ubits_spec c Halg) as [Hu0 Hub].
  rewrite msd_unfold, Ht.
  assert (Hev : evaluates D k (value c) (Z.abs (n - 1))
                  (Approximate_with (Some k) (approximate fuel c))).
  { apply child_evaluates; [apply approximate_spec; assumption | exact HD | lia]. }
  destruct (msd_with_spec D k (value c) _ n st (ubits c) (Z.abs (n - 1)) HD Hinv Hev
              ltac:(lia) ltac:(lia) Hub ltac:(lia))
    as (m & st' & Heq & Hinv' & Hv' & am & Ham & Hcase).
  exists m, st'. split; [exact Heq |]. split; [exact Hinv' |].
  destruct (msdPost_value D k (value c) n (ubits c) (dbits c) m st' am HD Hinv' Hv' Ham Hub
              (dbits_lower c Halg) Hcase) as [H | (_ & H1 & H2 & _)]; [left; exact H | right; auto].
Qed.

Lemma msd_bounds_witness :
  let c := constructiveShift 1 (constructiveInteger 0 5) (-3) in
  let D := fun k : nat => match k with O => 5 | _ => 5 # 8 end in
  exists m st',
    msd 0 c (-6) emptyStore = (Ok m, st') /\ trackerInv D st' /\
    ((m = MinInt /\ Qabs (value c) < pow2 (-6)) \/
     (pow2 (m - 1) < Qabs (value c) /\ Qabs (value c) < pow2 (m + 1))).
Proof.
  intros c D.
  apply (msd_bounds 0 D c (-6) emptyStore).
  - exact I.
  - cbn. split; reflexivity.
  - apply trackerInv_empty.
  - vm_compute. reflexivity.
  - vm_compute. discriminate.
Defined.

(** ** The constructors keep the heap the contract asks for *)

Lemma allocated_mono n n' c : (n <= n')%nat -> allocated n c -> allocated n' c.
Proof.
  intros Hn. induction c; cbn [allocated]; intuition lia.
Qed.

Lemma consistent_agree D D' n c :
  (forall k, (k < n)%nat -> D' k == D k) -> allocated n c -> consistent D c -> consistent D' c.
Proof.
  intros Hag. induction c; cbn [allocated consistent]; try tauto.
  - intros Ht HD. rewrite Hag by exact Ht. exact HD.
  - intros (Ht & Ha & Hb) (HD & Hca & Hcb). rewrite Hag by exact Ht. auto.
  - intros (Ht & Ha & Hb) (HD & Hca & Hcb). rewrite Hag by exact Ht. auto.
  - intros (Ht & Hr) (HD & Hcr). rewrite Hag by exact Ht. auto.
  - intros (Ht & Hr) (HD & Hcr). rewrite Hag by exact Ht. auto.
Qed.

Lemma describe_old D st v k : (k < next st)%nat -> describe D st v k == D k.
Proof.
  intros Hk. unfold describe. destruct (Nat.eqb_spec k (next st)); [lia | reflexivity].
Qed.

Lemma describe_new D st v : describe D st v (next st) == v.
Proof. unfold describe. rewrite Nat.eqb_refl. reflexivity. Qed.

Lemma alloc_run st :
  alloc st = (Ok (next st),
              mkStore (S (next st)) (delete (next st) (trackers st)) (onceZero st) (onceOne st)).
Proof. reflexivity. Qed.

(** Allocating a node keeps the heap invariant and everything built so far. *)
Lemma alloc_keeps D st v :
  trackerInv D st ->
  trackerInv (describe D st v) (snd (alloc st)) /\
  (forall x, built D st x -> built (describe D st v) (snd (alloc st)) x).
Proof.
  intros Hinv. split.
  - intros k Hv. unfold trackerAt in *. cbn [alloc snd trackers] in *.
    destruct (decide (k = next st)) as [-> | Hne].
    + rewrite lookup_delete_eq in Hv. discriminate.
    + rewrite lookup_delete_ne in * by congruence.
      destruct (Hinv k Hv) as (Hq & m & Hm & Ha).
      split; [exact Hq |]. exists m. split; [exact Hm |].
      apply (approximates_proper (D k)); [| exact Ha].
      unfold describe. destruct (Nat.eqb_spec k (next st)); [contradiction | reflexivity].
  - intros x (Halg & Hcons & Hal). split; [exact Halg |]. split.
    + eapply consistent_agree; [| exact Hal | exact Hcons].
      intros k Hk. apply describe_old. exact Hk.
    + cbn [alloc snd next]. eapply allocated_mono; [| exact Hal]. lia.
Qed.

Ltac new_node D st v :=
  intros Hinv; intros;
  destruct (alloc_keeps D st v Hinv) as [Hinv' Hframe];
  eexists _, (snd (alloc st)), (describe D st v);
  split; [reflexivity |]; split; [cbn [value]; reflexivity |];
  split; [| split; [exact Hinv' | exact Hframe]];
  repeat match goal with
         | H : built D st _ |- _ => apply Hframe in H; destruct H as (? & ? & ?)
         end;
  split; [cbn [algebraic]; auto |];
  split; [cbn [consistent]; repeat split; try assumption; apply describe_new
         | cbn [allocated alloc snd next] in *; repeat split; try assumption; lia].

Lemma FromInt64_builds D st i : trackerInv D st -> builds D st (FromInt64 i) (inject_Z i).
Proof. new_node D st (inject_Z i). Qed.

Lemma Add_builds D st a b :
  trackerInv D st -> built D st a -> built D st b ->
  builds D st (Add a b) (value a + value b).
Proof. new_node D st (value a + value b). Qed.

Lemma Negate_builds D st a :
  trackerInv D st -> built D st a -> builds D st (Negate a) (- value a).
Proof. new_node D st (- value a). Qed.

Lemma Multiply_builds D st a b :
  trackerInv D st -> built D st a -> built D st b ->
  builds D st (Multiply a b) (value a * value b).
Proof. new_node D st (value a * value b). Qed.

Lemma ShiftLeft_builds D st a n :
  trackerInv D st -> built D st a -> builds D st (ShiftLeft a n) (value a * pow2 n).
Proof. new_node D st (value a * pow2 n). Qed.

Lemma ShiftRight_builds D st a n :
  trackerInv D st -> built D st a -> builds D st (ShiftRight a n) (value a * pow2 (neg n)).
Proof. new_node D st (value a * pow2 (neg n)). Qed.

Lemma Subtract_builds D st a b :
  trackerInv D st -> built D st a -> built D st b ->
  builds D st (Subtract a b) (value a - value b).
Proof.
  intros Hinv Ha Hb.
  destruct (Negate_builds D st b Hinv Hb) as (nb & st1 & D1 & Hn & Hvn & Hbn & Hinv1 & Hf1).
  destruct (Add_builds D1 st1 a nb Hinv1 (Hf1 a Ha) Hbn)
    as (c & st2 & D2 & Hc & Hvc & Hbc & Hinv2 & Hf2).
  exists c, st2, D2. split.
  - unfold Subtract. rewrite (bind_ok _ _ _ _ _ Hn). exact Hc.
  - split; [rewrite Hvc, Hvn; ring |]. split; [exact Hbc |]. split; [exact Hinv2 |].
    intros x Hx. apply Hf2, Hf1, Hx.
Qed.

(** X10: the constructors keep the heap the approximation contract asks for.
    On a heap whose valid trackers hold approximations of their nodes,
    [FromInt64], [Add], [Negate], [Subtract], [Multiply], [ShiftLeft] and
    [ShiftRight] applied to expressions built on that heap return an
    expression with the expected exact value that is again built on the heap
    they leave (algebraic, trackers consistent and allocated), and everything
    built before stays built. *)
Theorem constructors_build (D : nat -> Q) (st : store) (a b : Real) (i n : Z) :
  trackerInv D st -> built D st a -> built D st b ->
  builds D st (FromInt64 i) (inject_Z i) /\
  builds D st (Add a b) (value a + value b) /\
  builds D st (Negate a) (- value a) /\
  builds D st (Subtract a b) (value a - value b) /\
  builds D st (Multiply a b) (value a * value b) /\
  builds D st (ShiftLeft a n) (value a * pow2 n) /\
  builds D st (ShiftRight a n) (value a * pow2 (neg n)).
Proof.
  intros Hinv Ha Hb.
  split; [apply FromInt64_builds; assumption |].
  split; [apply Add_builds; assumption |].
  split; [apply Negate_builds; assumption |].
  split; [apply Subtract_builds; assumption |].
  split; [apply Multiply_builds; assumption |].
  split; [apply ShiftLeft_builds; assumption | apply ShiftRight_builds; assumption].
Qed.

Lemma constructors_build_witness :
  let a := constructiveInteger 0 3 in
  let b := constructiveInteger 1 5 in
  let D := fun k : nat => match k with O => 3 | _ => 5 end in
  let st := mkStore 2 ∅ None None in
  builds D st (FromInt64 7) (inject_Z 7) /\
  builds D st (Add a b) (value a + value b) /\
  builds D st (Negate a) (- value a) /\
  builds D st (Subtract a b) (value a - value b) /\
  builds D st (Multiply a b) (value a * value b) /\
  builds D st (ShiftLeft a 4) (value a * pow2 4) /\
  builds D st (ShiftRight a 4) (value a * pow2 (neg 4)).
Proof.
  intros a b D st.
  apply (constructors_build D st a b 7 4).
  - intros k Hv. unfold trackerAt in Hv. cbn in Hv. rewrite lookup_empty in Hv. discriminate.
  - split; [exact I |]. split; [cbn; reflexivity | cbn; lia].
  - split; [exact I |]. split; [cbn; reflexivity | cbn; lia].
Defined.

(** ** The value of a continued fraction *)

Lemma cfValue_cons x rest : rest <> [] -> cfValue (x :: rest) = x + / cfValue rest.
Proof. destruct rest; [contradiction | reflexivity]. Qed.

Lemma cfValue_snoc init : forall v,
  fold_left (fun acc x => x + / acc) (rev init) v = cfValue (init ++ [v]).
Proof.
  induction init as [| x init IH]; intros v; [reflexivity |].
  cbn [rev app]. rewrite fold_left_app. cbn [fold_left]. rewrite IH.
  rewrite cfValue_cons; [reflexivity |]. destruct init; discriminate.
Qed.

Lemma foldFractions64_value xs : forall c v st,
  value c == v ->
  exists c' st', foldFractions64 xs c st = (Ok c', st') /\
                 value c' == fold_left (fun acc x => x + / acc) (map inject_Z xs) v.
Proof.
  induction xs as [| x xs IH]; intros c v st Hv.
  - exists c, st. split; [reflexivity | exact Hv].
  - cbn [foldFractions64 map fold_left].
    destruct (IH (constructiveAddition (S (S (next st))) (constructiveInteger (next st) x)
                    (constructiveMultiplicativeInverse (S (next st)) c))
                 (inject_Z x + / v)
                 (snd ((do x' <- FromInt64 x; do ic <- Inverse c; Add x' ic) st)))
      as (c' & st' & Heq & Hv').
    { cbn [value]. rewrite Hv. reflexivity. }
    exists c', st'. split; [| exact Hv']. rewrite <- Heq. reflexivity.
Qed.

Lemma foldFractions_value xs : forall c v st,
  value c == v ->
  exists c' st', foldFractions xs c st = (Ok c', st') /\
                 value c' == fold_left (fun acc x => x + / acc) (map value xs) v.
Proof.
  induction xs as [| x xs IH]; intros c v st Hv.
  - exists c, st. split; [reflexivity | exact Hv].
  - cbn [foldFractions map fold_left].
    destruct (IH (constructiveAddition (S (next st)) x
                    (constructiveMultiplicativeInverse (next st) c))
                 (value x + / v)
                 (snd ((do ic <- Inverse c; Add x ic) st)))
      as (c' & st' & Heq & Hv').
    { cbn [value]. rewrite Hv. reflexivity. }
    exists c', st'. split; [| exact Hv']. rewrite <- Heq. reflexivity.
Qed.

(** X11: the expression [ContinuedFraction64] and [ContinuedFraction] build
    denotes the continued fraction of their arguments: its exact value is
    x0 + 1/(x1 + 1/(... + 1/xn)), and 0 for no argument. *)
Theorem ContinuedFraction_value (st : store) (ints : list Z) (reals : list Real) :
  onceZeroBuilt st ->
  (exists c st', ContinuedFraction64 ints st = (Ok c, st') /\
                 value c == cfValue (map inject_Z ints)) /\
  (exists c st', ContinuedFraction reals st = (Ok c, st') /\
                 value c == cfValue (map value reals)).
Proof.
  intros Hst. split.
  - induction ints as [| last init _] using rev_ind.
    + destruct (Zero_built st Hst) as (k & st' & Hz & _).
      exists (named (constructiveInteger k 0) "0"), st'. split; [exact Hz | reflexivity].
    + unfold ContinuedFraction64. rewrite length_app, Nat.add_comm. cbn [length Nat.add Nat.eqb].
      replace (S (length init) - 1)%nat with (length init) by lia.
      rewrite app_nth2 by lia. rewrite Nat.sub_diag. cbn [nth].
      destruct (foldFractions64_value (rev init) (constructiveInteger (next st) last)
                  (inject_Z last) (snd (FromInt64 last st)) ltac:(reflexivity))
        as (c & st' & Heq & Hv).
      exists c, st'. split.
      * rewrite <- Heq. unfold bind. cbn [FromInt64 newInteger alloc ret bind].
        apply ContinuedFraction64_loop_fold.
      * rewrite Hv, map_app, map_rev. cbn [map]. rewrite cfValue_snoc. reflexivity.
  - induction reals as [| last init _] using rev_ind.
    + destruct (Zero_built st Hst) as (k & st' & Hz & _).
      exists (named (constructiveInteger k 0) "0"), st'. split; [exact Hz | reflexivity].
    + unfold ContinuedFraction. rewrite length_app, Nat.add_comm. cbn [length Nat.add Nat.eqb].
      replace (S (length init) - 1)%nat with (length init) by lia.
      rewrite app_nth2 by lia. rewrite Nat.sub_diag. cbn [nth].
      destruct (foldFractions_value (rev init) last (value last) st ltac:(reflexivity))
        as (c & st' & Heq & Hv).
      exists c, st'. split.
      * rewrite <- Heq. apply ContinuedFraction_loop_fold.
      * rewrite Hv, map_app, map_rev. cbn [map]. rewrite cfValue_snoc. reflexivity.
Qed.

Lemma ContinuedFraction_value_witness :
  (exists c st', ContinuedFraction64 [2; 1; 3; 4]%Z emptyStore = (Ok c, st') /\
                 value c == cfValue (map inject_Z [2; 1; 3; 4]%Z)) /\
  (exists c st', ContinuedFraction [constructiveInteger 0 2; constructiveInteger 1 3] emptyStore
                 = (Ok c, st') /\
                 value c == cfValue (map value [constructiveInteger 0 2; constructiveInteger 1 3])).
Proof.
  apply (ContinuedFraction_value emptyStore). exact I.
Defined.

(** The test suite's [2; 1, 3, 4] is 47/17. *)
Example cfValue_2134 : cfValue (map inject_Z [2; 1; 3; 4]%Z) == 47 # 17.
Proof. vm_compute. reflexivity. Qed.

Local Close Scope Q_scope.

(** ** Conversion from float64 *)

(** Two entries of the test suite: 0.1 + 0.2 and e as float64. *)
Example FromFloat64_sum :
  run (do a <- FromFloat64 0x3FB999999999999A; do b <- FromFloat64 0x3FC999999999999A;
       do s <- Add a b; Text 0 s 20 10) = Ok "0.30000000000000001665".
Proof. vm_compute. reflexivity. Qed.

Example FromFloat64_e :
  run (do e <- FromFloat64 0x4005BF0A8B145769; Text 0 e 20 10) = Ok "2.71828182845904509080".
Proof. vm_compute. reflexivity. Qed.

Lemma ldiff_pow2 a n :
  0 <= n -> Z.ldiff a (2 ^ n) = a - (if Z.testbit a n then 2 ^ n else 0).
Proof.
  intros Hn. destruct (Z.testbit a n) eqn:Hb.
  - symmetry. apply Z.sub_nocarry_ldiff. apply Z.bits_inj'. intros k Hk.
    rewrite Z.ldiff_spec, Z.bits_0, Z.pow2_bits_eqb by lia.
    destruct (Z.eqb_spec n k) as [-> | Hne]; [rewrite Hb |]; reflexivity.
  - rewrite Z.sub_0_r. apply Z.bits_inj'. intros k Hk.
    rewrite Z.ldiff_spec, Z.pow2_bits_eqb by lia.
    destruct (Z.eqb_spec n k) as [-> | Hne]; [rewrite Hb |]; cbn; [reflexivity |].
    apply andb_true_r.
Qed.

Lemma float64_fields s e m :
  0 <= s <= 1 -> 0 <= e <= 2047 -> 0 <= m < 2 ^ 52 ->
  Z.testbit (float64Bits s e m) 63 = (s =? 1) /\
  Z.ldiff (float64Bits s e m) (Z.shiftl 1 63) = e * 2 ^ 52 + m /\
  Z.land (Z.shiftr (float64Bits s e m) 52) (Z.shiftl 1 11 - 1) = e /\
  Z.land (Z.shiftr (e * 2 ^ 52 + m) 52) (Z.shiftl 1 11 - 1) = e /\
  Z.land (e * 2 ^ 52 + m) (Z.shiftl 1 52 - 1) = m.
Proof.
  intros Hs He Hm.
  change (Z.shiftl 1 63) with (2 ^ 63). change (Z.shiftl 1 11 - 1) with (Z.ones 11).
  change (Z.shiftl 1 52 - 1) with (Z.ones 52).
  change (2 ^ 52) with 4503599627370496 in *.
  assert (Hbit : Z.testbit (float64Bits s e m) 63 = (s =? 1)).
  { unfold float64Bits. change (2 ^ 63) with 9223372036854775808.
    change (2 ^ 52) with 4503599627370496.
    destruct (Z.eqb_spec s 1) as [-> | Hne].
    - apply Z.testbit_true; [lia |]. change (2 ^ 63) with 9223372036854775808.
      replace ((1 * 9223372036854775808 + e * 4503599627370496 + m) / 9223372036854775808)
        with 1; [reflexivity |].
      apply Z.div_unique with (r := e * 4503599627370496 + m); lia.
    - apply Z.testbit_false; [lia |]. change (2 ^ 63) with 9223372036854775808.
      rewrite Z.div_small by lia. reflexivity. }
  split; [exact Hbit |]. split.
  - rewrite ldiff_pow2 by lia. rewrite Hbit. unfold float64Bits.
    change (2 ^ 52) with 4503599627370496.
    destruct (Z.eqb_spec s 1) as [-> | Hne]; lia.
  - assert (Hdiv : forall t, 0 <= t -> ((t * 2048 + e) * 4503599627370496 + m) / 4503599627370496
                                      = t * 2048 + e).
    { intros t Ht. rewrite Z.div_add_l, Z.div_small by lia. lia. }
    assert (Hmod : forall t, (t * 2048 + e) mod 2048 = e).
    { intros t. rewrite Z.add_comm, Z_mod_plus_full. apply Z.mod_small. lia. }
    rewrite !Z.shiftr_div_pow2, !Z.land_ones by lia.
    change (2 ^ 52) with 4503599627370496. change (2 ^ 11) with 2048.
    unfold float64Bits. change (2 ^ 63) with (2048 * 4503599627370496).
    change (2 ^ 52) with 4503599627370496.
    replace (s * (2048 * 4503599627370496) + e * 4503599627370496 + m)
      with ((s * 2048 + e) * 4503599627370496 + m) by lia.
    replace (e * 4503599627370496 + m)
      with ((0 * 2048 + e) * 4503599627370496 + m) at 1 by lia.
    rewrite !Hdiv, !Hmod by lia.
    split; [reflexivity |]. split; [reflexivity |].
    rewrite Z.add_comm, Z_mod_plus_full. apply Z.mod_small; lia.
Qed.

Lemma FromFloat64_fields s e m :
  0 <= s <= 1 -> 0 <= e < 2047 -> 0 <= m < 2 ^ 52 ->
  FromFloat64 (float64Bits s e m) =
  (do i <- newInteger (if e =? 1075 then 2 * m else m + 2 ^ 52);
   do r <- ShiftLeft i (e - 1075);
   if (s =? 1) && negb ((e =? 0) && (m =? 0)) then newNegation r else ret r).
Proof.
  intros Hs He Hm.
  destruct (float64_fields s e m Hs ltac:(lia) Hm) as (Hbit & Hld & He1 & He2 & Hm1).
  unfold FromFloat64, float64IsNaNOrInf, float64Negative.
  rewrite Hld, Hbit, He1, He2, Hm1.
  change (Z.shiftl 1 11 - 1) with 2047. change (Z.shiftl 1 52) with (2 ^ 52).
  change (2 ^ 52) with 4503599627370496 in *.
  destruct (Z.eqb_spec e 2047) as [-> | _]; [lia |].
  unfold sub. rewrite (wrap_small (e - 1075)) by lia.
  assert (Hz : (e * 4503599627370496 + m =? 0) = (e =? 0) && (m =? 0)).
  { destruct (Z.eqb_spec e 0) as [-> | Hne]; cbn [andb].
    - reflexivity.
    - apply Z.eqb_neq. lia. }
  rewrite Hz.
  assert (Hmant : wrap (if negb (e - 1075 =? 0) then uint (m + 4503599627370496)
                        else uint (Z.shiftl m 1))
                  = if e =? 1075 then 2 * m else m + 4503599627370496).
  { destruct (Z.eqb_spec e 1075) as [-> | Hne].
    - change (negb (1075 - 1075 =? 0)) with false. cbv iota.
      rewrite Z.shiftl_mul_pow2 by lia. change (2 ^ 1) with 2.
      rewrite uint_small, wrap_small by lia. lia.
    - destruct (Z.eqb_spec (e - 1075) 0); [lia |]. cbn [negb].
      rewrite uint_small, wrap_small by lia. reflexivity. }
  rewrite Hmant. reflexivity.
Qed.

Local Open Scope Q_scope.

(** X12: [FromFloat64], on the float with sign s, biased exponent e and
    fraction m.  A NaN or an infinity (e = 2047) gives the nil Real.
    Otherwise an algebraic expression is built; its exact value is the value
    of the float for every normal float except those with e = 1075, the
    floats in [2^52, 2^53), where it is twice the fraction (s) 2m instead of
    (s) (2^52 + m); and for a zero or subnormal float (e = 0) it is
    (2^52 + m) * 2^-1075, negated when the float is below zero, instead of
    m * 2^-1074: the exponent is compared with 0 after the bias and the
    mantissa width are subtracted. *)
Theorem FromFloat64_value (s e m : Z) (st : store) :
  (0 <= s <= 1)%Z -> (0 <= e <= 2047)%Z -> (0 <= m < 2 ^ 52)%Z ->
  (e = 2047%Z -> FromFloat64 (float64Bits s e m) st = (Ok Nil, st)) /\
  (e <> 2047%Z ->
   exists c st',
     FromFloat64 (float64Bits s e m) st = (Ok c, st') /\ algebraic c /\
     (e <> 0%Z -> e <> 1075%Z -> value c == float64Value s e m) /\
     (e = 1075%Z -> value c == (if (s =? 1)%Z then - (1) else 1) * inject_Z (2 * m)) /\
     (e = 0%Z ->
      value c == (if ((s =? 1) && negb (m =? 0))%Z then - (1) else 1) *
                 (inject_Z (2 ^ 52 + m) * pow2 (-1075)))).
Proof.
  intros Hs He Hm. split.
  - intros ->. destruct (float64_fields s 2047 m Hs ltac:(lia) Hm) as (_ & _ & He1 & _).
    unfold FromFloat64, float64IsNaNOrInf. rewrite He1. reflexivity.
  - intros Hne. rewrite (FromFloat64_fields s e m Hs ltac:(lia) Hm).
    unfold float64Value.
    destruct (Z.eqb_spec e 1075) as [-> | H1075]; [| destruct (Z.eqb_spec e 0) as [-> | H0]];
      destruct (s =? 1)%Z; try destruct (m =? 0)%Z; cbn [andb negb];
      (eexists; eexists; split; [reflexivity |]; split; [exact I |]);
      cbn [value]; repeat split; intros; try contradiction; try discriminate;
      try change (1075 - 1075)%Z with 0%Z; try change (0 - 1075)%Z with (-1075)%Z;
      rewrite ?pow2_0, ?(Z.add_comm m); ring.
Qed.

Lemma FromFloat64_value_witness :
  (1075 = 2047 -> FromFloat64 (float64Bits 0 1075 0) emptyStore = (Ok Nil, emptyStore))%Z /\
  (1075 <> 2047 ->
   exists c st',
     FromFloat64 (float64Bits 0 1075 0) emptyStore = (Ok c, st') /\ algebraic c /\
     (1075 <> 0 -> 1075 <> 1075 -> value c == float64Value 0 1075 0) /\
     (1075 = 1075 -> value c == (if (0 =? 1)%Z then - (1) else 1) * inject_Z (2 * 0)) /\
     (1075 = 0 ->
      value c == (if ((0 =? 1) && negb (0 =? 0))%Z then - (1) else 1) *
                 (inject_Z (2 ^ 52 + 0) * pow2 (-1075))))%Z.
Proof.
  apply (FromFloat64_value 0 1075 0 emptyStore); [lia | lia | split; [lia | reflexivity]].
Defined.

(** The float 2^52 = 4503599627370496 becomes 0, and the float 0 a tiny
    positive number. *)
Example FromFloat64_2_52 :
  run (do c <- FromFloat64 0x4330000000000000; Text 0 c 0 10) = Ok "0" /\
  run (do c <- FromFloat64 0; do s <- ShiftLeft c 1023; Text 0 s 0 10) = Ok "1".
Proof. split; vm_compute; reflexivity. Qed.

Local Close Scope Q_scope.

(** ** The precision limit *)

Lemma PrecisionLimit_With ctx limit :
  PrecisionLimit (WithPrecisionLimit ctx limit) =
  ((if limit <? 0 then neg limit else limit), true).
Proof. reflexivity. Qed.

(** X13: the limit stored by [WithPrecisionLimit] is the absolute value of
    its argument, except that MinInt stays MinInt; [CheckPrecisionOverflow]
    under it reports an overflow exactly when the limit is not MinInt and
    p > |limit|, hence never for a precision p <= 0; it never reports one
    under [WithoutPrecisionLimit] or without a stored limit, and the innermost
    limit is the one that counts. *)
Theorem CheckPrecisionOverflow_spec (ctx : Context) (limit p : Z) :
  int_range limit -> int_range p ->
  PrecisionLimit (WithPrecisionLimit ctx limit) =
    ((if limit =? MinInt then MinInt else Z.abs limit), true) /\
  (CheckPrecisionOverflow (WithPrecisionLimit ctx limit) p = Some PrecisionOverflow <->
   limit <> MinInt /\ Z.abs limit < p) /\
  (p <= 0 -> CheckPrecisionOverflow (WithPrecisionLimit ctx limit) p = None) /\
  CheckPrecisionOverflow (WithoutPrecisionLimit ctx) p = None /\
  CheckPrecisionOverflow Background p = None /\
  (forall outer,
     CheckPrecisionOverflow (WithPrecisionLimit (WithPrecisionLimit ctx outer) limit) p =
     CheckPrecisionOverflow (WithPrecisionLimit ctx limit) p).
Proof.
  intros Hl' Hp'. pose proof (proj1 (int_range_iff limit) Hl') as Hl.
  pose proof (proj1 (int_range_iff p) Hp') as Hp.
  assert (Hstored : (if limit <? 0 then neg limit else limit) =
                    if limit =? MinInt then MinInt else Z.abs limit).
  { rewrite MinInt_val. unfold neg.
    destruct (Z.eqb_spec limit (-9223372036854775808)) as [-> | Hne]; [reflexivity |].
    destruct (Z.ltb_spec limit 0); [rewrite wrap_small by lia |]; lia. }
  split; [rewrite PrecisionLimit_With, Hstored; reflexivity |].
  unfold CheckPrecisionOverflow. rewrite PrecisionLimit_With, Hstored.
  split; [| split; [| split; [| split; [reflexivity |]]]];
    [| | | intros outer; rewrite PrecisionLimit_With, Hstored; reflexivity].
  - rewrite MinInt_val.
    destruct (Z.eqb_spec limit (-9223372036854775808)) as [-> | Hne]; cbn [andb].
    + cbn. split; [discriminate | intros [H _]; contradiction].
    + destruct (Z.leb_spec 0 (Z.abs limit)); [| lia].
      destruct (Z.ltb_spec (Z.abs limit) p); split; intros H';
        try discriminate; auto; lia.
  - intros Hp0. rewrite MinInt_val.
    destruct (Z.eqb_spec limit (-9223372036854775808)) as [-> | Hne]; cbn [andb].
    + reflexivity.
    + destruct (Z.leb_spec 0 (Z.abs limit)); [| reflexivity].
      destruct (Z.ltb_spec (Z.abs limit) p); [lia | reflexivity].
  - unfold PrecisionLimit, WithoutPrecisionLimit. cbn [Value ctxKey_eqb andb].
    rewrite MaxInt_val. cbn [Z.leb Z.compare].
    destruct (Z.ltb_spec 9223372036854775807 p); [lia | reflexivity].
Qed.

Lemma CheckPrecisionOverflow_spec_witness :
  PrecisionLimit (WithPrecisionLimit Background (-100)) =
    ((if -100 =? MinInt then MinInt else Z.abs (-100)), true) /\
  (CheckPrecisionOverflow (WithPrecisionLimit Background (-100)) 101 = Some PrecisionOverflow <->
   -100 <> MinInt /\ Z.abs (-100) < 101) /\
  (101 <= 0 -> CheckPrecisionOverflow (WithPrecisionLimit Background (-100)) 101 = None) /\
  CheckPrecisionOverflow (WithoutPrecisionLimit Background) 101 = None /\
  CheckPrecisionOverflow Background 101 = None /\
  (forall outer,
     CheckPrecisionOverflow
       (WithPrecisionLimit (WithPrecisionLimit Background outer) (-100)) 101 =
     CheckPrecisionOverflow (WithPrecisionLimit Background (-100)) 101).
Proof.
  apply (CheckPrecisionOverflow_spec Background (-100) 101);
    apply int_range_iff; lia.
Defined.

Local Open Scope Q_scope.

(** ** The multiplicative inverse away from zero *)

(** The error of the rounded quotient 2^L / d against 1 / v, [d] being an
    approximation of v at precision pn and L + p + pn = 0. *)
Lemma inverse_error x Dq T Pp Pn V :
  0 < Dq -> 0 < T -> 0 < Pp -> 0 < Pn -> 0 < V ->
  T * Pp * Pn == 1 ->
  - Dq <= 2 * (x * Dq - T) <= Dq ->
  - Pn < Dq * Pn - V < Pn ->
  2 < Dq * (Pp * V) ->
  Qabs (x * Pp - / V) < Pp.
Proof.
  intros HD HT HPp HPn HV H1 Hx Hd Hbig.
  set (A := Pp * V) in *.
  assert (HA : 0 < A) by (unfold A; nra).
  set (B := T * Pp).
  assert (HB : 0 < B) by (unfold B; nra).
  assert (HBPn : B * Pn == 1) by (unfold B; exact H1).
  assert (E2 : -1 < T * A - Dq < 1).
  { assert (E : T * A - Dq == - (B * (Dq * Pn - V))).
    { assert (E0 : Dq * (T * Pp * Pn - 1) == 0) by (rewrite H1; ring).
      unfold A, B. lra. }
    rewrite E.
    assert (- (B * Pn) < B * (Dq * Pn - V) < B * Pn) by nra.
    lra. }
  assert (E1 : - (Dq * A) <= 2 * (x * Dq * A - T * A) <= Dq * A) by nra.
  assert (E3 : - (Dq * A) < Dq * (x * A - 1) < Dq * A).
  { assert (E : Dq * (x * A - 1) == (x * Dq * A - T * A) + (T * A - Dq)) by ring.
    rewrite E. lra. }
  assert (E4 : - A < x * A - 1 < A) by nra.
  assert (HW : / V * V == 1) by (field; lra).
  assert (HWp : 0 < / V) by (apply Qinv_lt_0_compat; exact HV).
  set (W := / V) in *.
  apply Qabs_Qlt_condition.
  assert (E5 : (x * Pp - W) * V == x * A - 1).
  { unfold A. lra. }
  assert (E6 : - (Pp * V) < (x * Pp - W) * V < Pp * V) by (rewrite E5; exact E4).
  split; nra.
Qed.

Lemma round_div L Dz :
  (0 < Dz)%Z ->
  (- Dz <= 2 * ((2 ^ L + Z.shiftr Dz 1) / Dz * Dz - 2 ^ L) <= Dz)%Z.
Proof.
  intros HD. rewrite Z.shiftr_div_pow2 by lia. change (2 ^ 1)%Z with 2%Z.
  pose proof (Z.div_mod Dz 2 ltac:(lia)) as E1.
  pose proof (Z.mod_pos_bound Dz 2 ltac:(lia)) as B1.
  pose proof (Z.div_mod (2 ^ L + Dz / 2) Dz ltac:(lia)) as E2.
  pose proof (Z.mod_pos_bound (2 ^ L + Dz / 2) Dz HD) as B2.
  set (h := (Dz / 2)%Z) in *. set (q := ((2 ^ L + h) / Dz)%Z) in *.
  set (T := (2 ^ L)%Z) in *. nia.
Qed.

Lemma Inverse_result adj d :
  (0 <= adj)%Z -> d <> 0%Z ->
  (if (bigDiv adj d <? 0)%Z then (- bigDiv adj d)%Z else bigDiv adj d) = (adj / Z.abs d)%Z.
Proof.
  intros Ha Hd. unfold bigDiv.
  destruct (Z.ltb_spec 0 d) as [Hp | Hn].
  - rewrite Z.abs_eq by lia.
    pose proof (Z.div_pos adj d Ha Hp). destruct (Z.ltb_spec (adj / d) 0); lia.
  - rewrite Z.abs_neq by lia.
    pose proof (Z.div_pos adj (- d) Ha ltac:(lia)).
    destruct (Z.ltb_spec (- (adj / - d)) 0); lia.
Qed.

Lemma Qabs_abs_approx d v P :
  0 < P -> Qabs (inject_Z d * P - v) < P ->
  - P < inject_Z (Z.abs d) * P - Qabs v < P.
Proof.
  intros HP H.
  assert (E : Qabs (inject_Z d * P) == inject_Z (Z.abs d) * P)
    by (rewrite Qabs_Qmult, Qabs_inject_Z, (Qabs_pos P) by lra; reflexivity).
  pose proof (Qabs_triangle_reverse (inject_Z d * P) v) as H1.
  pose proof (Qabs_triangle_reverse v (inject_Z d * P)) as H2.
  assert (E2 : Qabs (v - inject_Z d * P) == Qabs (inject_Z d * P - v)).
  { rewrite <- (Qabs_opp (v - inject_Z d * P)). apply Qabs_wd. ring. }
  rewrite E2 in H2. rewrite E in H1, H2. split; lra.
Qed.

Lemma Inverse_approximate_spec fuel D t r p st :
  algebraic r -> consistent D r -> trackerInv D st ->
  pow2 p <= Qabs (value r) ->
  (Z.abs p + 2 * Z.max (ubits r) (dbits r) + 4 + slack r < 1152921504606846976)%Z ->
  exists a st1,
    approximate fuel (constructiveMultiplicativeInverse t r) p st = (Ok (Some a), st1) /\
    approximates (/ Qabs (value r)) p a /\ trackerInv D st1.
Proof.
  intros Halg Hcons Hinv Hbig Hb.
  destruct (algebraic_tracker D r Halg Hcons) as (k & Hk & HDk).
  destruct (ubits_spec r Halg) as [Hu0 Hub]. destruct (dbits_spec r Halg) as [Hd0 _].
  pose proof (slack_nonneg r) as Hs.
  assert (Hev : evaluates D k (value r) (Z.abs p + 2 * Z.max (ubits r) (dbits r) + 4)
                  (Approximate_with (Some k) (approximate fuel r))).
  { apply child_evaluates; [apply approximate_spec; assumption | exact HDk | lia]. }
  cbn [approximate]. rewrite Hk.
  destruct (msd_with_spec D k (value r) _ p st (ubits r) _ HDk Hinv Hev
              ltac:(lia) ltac:(lia) Hub ltac:(lia))
    as (m & st1 & Heq & Hinv1 & Hv1 & am & Ham & Hcase).
  destruct (msdPost_value D k (value r) p (ubits r) (dbits r) m st1 am HDk Hinv1 Hv1 Ham Hub
              (dbits_lower r Halg) Hcase) as [[_ Hsmall] | (Hm & Hlow & Hup & _)]; [lra |].
  rewrite (bind_ok _ _ _ _ _ Heq). cbv zeta.
  assert (Hpn : sub m (add (sub (sub 1 m) p) 3) = (2 * m + p - 4)%Z).
  { unfold sub, add. rewrite (wrap_small (1 - m)) by lia.
    rewrite (wrap_small (1 - m - p)) by lia. rewrite (wrap_small (1 - m - p + 3)) by lia.
    rewrite wrap_small by lia. lia. }
  rewrite Hpn.
  assert (Hlsf : sub (neg p) (2 * m + p - 4) = (4 - 2 * m - 2 * p)%Z).
  { unfold sub, neg. rewrite (wrap_small (- p)) by lia. rewrite wrap_small by lia. lia. }
  rewrite Hlsf.
  set (V := Qabs (value r)) in *.
  pose proof (pow2_pos (m - 1)) as Hm1. pose proof (pow2_pos p) as Hpp.
  assert (HV : 0 < V) by lra.
  assert (HW : / V * V == 1) by (field; lra).
  assert (HWp : 0 < / V) by (apply Qinv_lt_0_compat; exact HV).
  destruct (Z.ltb_spec (4 - 2 * m - 2 * p) 0) as [Hneg | Hpos].
  - (* the inverse is below 2^(p-2) *)
    exists 0%Z, st1. split; [reflexivity |]. split; [| exact Hinv1].
    apply approximates_zero. rewrite Qabs_pos by lra.
    assert (H4 : pow2 (2 - p) <= pow2 (m - 1)) by (apply pow2_le; lia).
    assert (H5 : pow2 (2 - p) * pow2 p == 4).
    { rewrite <- pow2_add. replace (2 - p + p)%Z with 2%Z by lia. reflexivity. }
    set (W := / V) in *. set (P2 := pow2 (2 - p)) in *. set (Pp := pow2 p) in *. nra.
  - rewrite uint_small by lia.
    destruct (Hev (2 * m + p - 4)%Z st1 ltac:(lia) Hinv1) as (d & st2 & Heq2 & Ha2 & Hinv2 & _).
    rewrite (bind_ok _ _ _ _ _ Heq2). cbn [deref]. rewrite bind_ret.
    pose proof (pow2_pos (2 * m + p - 4)) as Hppn.
    pose proof (Qabs_abs_approx d (value r) _ Hppn Ha2) as Habs. fold V in Habs.
    (* the divisor has at least 3 - m - p bits *)
    assert (Hk1 : (2 ^ (3 - m - p) <= Z.abs d)%Z).
    { assert (H6 : pow2 (3 - m - p) * pow2 (2 * m + p - 4) == pow2 (m - 1)).
      { rewrite <- pow2_add. replace (3 - m - p + (2 * m + p - 4))%Z with (m - 1)%Z by lia.
        reflexivity. }
      assert (H7 : pow2 (3 - m - p) < inject_Z (Z.abs d) + 1).
      { set (Dq := inject_Z (Z.abs d)) in *. set (Pn := pow2 (2 * m + p - 4)) in *.
        set (Pk := pow2 (3 - m - p)) in *. nra. }
      rewrite <- pow2_inject in H7 by lia.
      change 1 with (inject_Z 1) in H7. rewrite <- inject_Z_plus, <- Zlt_Qlt in H7. lia. }
    assert (Hk2 : (2 <= 2 ^ (3 - m - p))%Z).
    { change 2%Z with (2 ^ 1)%Z at 1. apply Z.pow_le_mono_r; lia. }
    assert (Hd0' : d <> 0%Z) by lia.
    unfold bigDivM. destruct (Z.eqb_spec d 0) as [E | _]; [contradiction |].
    rewrite bind_ret. unfold bigLsh, bigRsh. rewrite Z.shiftl_1_l.
    set (adj := (2 ^ (4 - 2 * m - 2 * p) + Z.shiftr (Z.abs d) 1)%Z).
    assert (Hadj : (0 <= adj)%Z).
    { unfold adj. pose proof (Z.pow_nonneg 2 (4 - 2 * m - 2 * p) ltac:(lia)).
      pose proof (Z.shiftr_nonneg (Z.abs d) 1). lia. }
    exists (adj / Z.abs d)%Z, st2. split.
    { rewrite <- (Inverse_result adj d Hadj Hd0').
      destruct (bigDiv adj d <? 0)%Z; reflexivity. }
    split; [| exact Hinv2].
    apply (inverse_error _ (inject_Z (Z.abs d)) (pow2 (4 - 2 * m - 2 * p)) (pow2 p)
             (pow2 (2 * m + p - 4)) V).
    + change 0 with (inject_Z 0). rewrite <- Zlt_Qlt. lia.
    + apply pow2_pos.
    + exact Hpp.
    + exact Hppn.
    + exact HV.
    + rewrite <- !pow2_add.
      replace (4 - 2 * m - 2 * p + p + (2 * m + p - 4))%Z with 0%Z by lia. apply pow2_0.
    + pose proof (round_div (4 - 2 * m - 2 * p) (Z.abs d) ltac:(lia)) as Hr.
      fold adj in Hr. rewrite <- pow2_inject by lia.
      rewrite <- inject_Z_mult, <- inject_Z_sub.
      change 2 with (inject_Z 2). rewrite <- inject_Z_mult, <- inject_Z_opp, <- !Zle_Qle.
      exact Hr.
    + exact Habs.
    + assert (H8 : pow2 (3 - m - p) <= inject_Z (Z.abs d)).
      { rewrite <- pow2_inject by lia. rewrite <- Zle_Qle. exact Hk1. }
      assert (H9 : pow2 (3 - m - p) * (pow2 p * pow2 (m - 1)) == 4).
      { rewrite <- !pow2_add. replace (3 - m - p + (p + (m - 1)))%Z with 2%Z by lia.
        reflexivity. }
      pose proof (pow2_pos (3 - m - p)).
      set (Dq := inject_Z (Z.abs d)) in *. set (Pk := pow2 (3 - m - p)) in *.
      set (Pp := pow2 p) in *. set (Pm := pow2 (m - 1)) in *.
      assert (Pk * (Pp * Pm) <= Dq * (Pp * Pm)) by nra.
      assert (Dq * (Pp * Pm) < Dq * (Pp * V)) by nra.
      lra.
Qed.

(** X14: the contract of [Inverse] away from zero.  For an algebraic r with
    |r| >= 2^p, [Approximate (Inverse r) p] returns an integer a with
    |a * 2^p - 1/|r|| < 2^p: the inverse is approximated for a positive r, and
    its absolute value for a negative r. *)
Theorem Inverse_contract (fuel : nat) (D : nat -> Q) (t : nat) (r : Real) (p : Z) (st : store) :
  algebraic r -> consistent D r -> trackerInv D st ->
  D t == / Qabs (value r) ->
  pow2 p <= Qabs (value r) ->
  (Z.abs p + 2 * Z.max (ubits r) (dbits r) + 4 + slack r < 2 ^ 60)%Z ->
  exists a st',
    Approximate fuel (constructiveMultiplicativeInverse t r) p st = (Ok (Some a), st') /\
    Qabs (inject_Z a * pow2 p - / Qabs (value r)) < pow2 p /\
    trackerInv D st'.
Proof.
  intros Halg Hcons Hinv HDt Hbig Hb. change (2 ^ 60)%Z with 1152921504606846976%Z in Hb.
  pose proof (slack_nonneg r). pose proof (ubits_nonneg r).
  unfold Approximate. cbn [trackerOf].
  destruct (Approximate_with_spec D t (/ Qabs (value r))
              (approximate fuel (constructiveMultiplicativeInverse t r)) p st HDt
              (range_valid p ltac:(lia)) Hinv
              (Inverse_approximate_spec fuel D t r p st Halg Hcons Hinv Hbig Hb))
    as (a & st' & Heq & Ha & Hinv' & _).
  exists a, st'. split; [exact Heq |]. split; [exact Ha | exact Hinv'].
Qed.

Lemma Inverse_contract_witness :
  let r := constructiveInteger 0 (-3) in
  let D := fun k : nat => match k with O => - (3) | _ => 1 # 3 end in
  exists a st',
    Approximate 0 (constructiveMultiplicativeInverse 1 r) (-8) emptyStore = (Ok (Some a), st') /\
    Qabs (inject_Z a * pow2 (-8) - / Qabs (value r)) < pow2 (-8) /\
    trackerInv D st'.
Proof.
  intros r D.
  apply (Inverse_contract 0 D 1 r (-8) emptyStore).
  - exact I.
  - cbn. reflexivity.
  - apply trackerInv_empty.
  - vm_compute. reflexivity.
  - vm_compute. discriminate.
  - vm_compute. reflexivity.
Defined.

(** 1/3 and 1/(-3) at precision -8 are both answered with 85. *)
Example Inverse_third :
  run (do c <- FromInt 3; do i <- Inverse c; Approximate 0 i (-8)) = Ok (Some 85%Z) /\
  run (do c <- FromInt (-3); do i <- Inverse c; Approximate 0 i (-8)) = Ok (Some 85%Z).
Proof. split; vm_compute; reflexivity. Qed.

(** ** Selection by sign: [Abs], [Max] and [Min] *)

(** Halving an approximation of [va] answers for [vb] too when the two
    approximations differ by at most 1 and va <= vb. *)
Lemma halve_tie va vb q ia ib :
  approximates va (q - 1) ia -> approximates vb (q - 1) ib ->
  (Z.abs (ia - ib) <= 1)%Z -> va <= vb ->
  approximates vb q (scale ia (-1)).
Proof.
  intros Ha Hb Hd Hle.
  apply approximates_iff in Ha. apply approximates_iff in Hb. apply approximates_iff.
  pose proof (scale_down_bounds ia (-1) ltac:(lia)) as Hs.
  change (2 ^ (- -1))%Z with 2%Z in Hs. change (2 ^ (- -1 - 1))%Z with 1%Z in Hs.
  pose proof (pow2_pred q) as Hq. pose proof (pow2_pos (q - 1)) as Hu.
  assert (H1 : inject_Z ia <= 2 * inject_Z (scale ia (-1)))
    by (change 2 with (inject_Z 2); rewrite <- inject_Z_mult, <- Zle_Qle; lia).
  assert (H2 : 2 * inject_Z (scale ia (-1)) <= inject_Z ia + 1)
    by (change 2 with (inject_Z 2); change 1 with (inject_Z 1);
        rewrite <- inject_Z_mult, <- inject_Z_plus, <- Zle_Qle; lia).
  assert (H3 : inject_Z ib - 1 <= inject_Z ia)
    by (change 1 with (inject_Z 1); rewrite <- inject_Z_sub, <- Zle_Qle; lia).
  rewrite Hq.
  set (R := inject_Z (scale ia (-1))) in *. set (A := inject_Z ia) in *.
  set (B := inject_Z ib) in *. set (U := pow2 (q - 1)) in *.
  split; nra.
Qed.

Lemma approximates_apart va vb q ia ib :
  approximates va q ia -> approximates vb q ib -> (1 < Z.abs (ia - ib))%Z -> ~ va == vb.
Proof.
  intros Ha Hb Hd E. apply (approximates_proper _ _ _ _ E) in Ha.
  apply approximates_iff in Ha. apply approximates_iff in Hb.
  pose proof (pow2_pos q) as Hu.
  destruct (Z.abs_spec (ia - ib)) as [[_ Habs] | [_ Habs]]; rewrite Habs in Hd.
  - assert (inject_Z ib + 2 <= inject_Z ia)
      by (change 2 with (inject_Z 2); rewrite <- inject_Z_plus, <- Zle_Qle; lia).
    set (A := inject_Z ia) in *. set (B := inject_Z ib) in *. set (U := pow2 q) in *. nra.
  - assert (inject_Z ia + 2 <= inject_Z ib)
      by (change 2 with (inject_Z 2); rewrite <- inject_Z_plus, <- Zle_Qle; lia).
    set (A := inject_Z ia) in *. set (B := inject_Z ib) in *. set (U := pow2 q) in *. nra.
Qed.

Lemma selected_neg r a b : r < 0 -> selected r a b = a.
Proof. intros H. unfold selected. destruct (Qlt_le_dec r 0); [reflexivity | lra]. Qed.

Lemma selected_nonneg r a b : 0 <= r -> selected r a b = b.
Proof. intros H. unfold selected. destruct (Qlt_le_dec r 0); [lra | reflexivity]. Qed.

(** [constructiveCondsign.approximate]: the answer approximates the selected
    alternative, except possibly in a tie, where the halved approximation of
    [a] is returned although [b], the smaller one, is selected. *)
Lemma condsign_general fuel D t a b r p st :
  algebraic a -> algebraic b -> algebraic r ->
  consistent D a -> consistent D b -> consistent D r -> trackerInv D st ->
  (value r == 0 -> value a == value b) ->
  (Z.abs p + 1 + slack a < 1152921504606846976)%Z ->
  (Z.abs p + 1 + slack b < 1152921504606846976)%Z ->
  (slack r < 288230376151711744)%Z -> (dbits r < 288230376151711744)%Z ->
  (56 <= fuel)%nat ->
  exists x st1,
    approximate fuel (constructiveCondsign t a b r) p st = (Ok (Some x), st1) /\
    trackerInv D st1 /\
    (approximates (selected (value r) (value a) (value b)) p x \/
     (0 <= value r /\ value b < value a /\
      exists ia ib, approximates (value a) (p - 1) ia /\ approximates (value b) (p - 1) ib /\
                    (Z.abs (ia - ib) <= 1)%Z /\ x = scale ia (-1))).
Proof.
  intros Ha Hb Hr Hca Hcb Hcr Hinv Hmeet Hpa Hpb Hsr Hdr Hfuel.
  pose proof (slack_nonneg a). pose proof (slack_nonneg b). pose proof (slack_nonneg r).
  cbn [approximate].
  fold (Approximate fuel r). fold (Approximate fuel a). fold (Approximate fuel b).
  destruct (Approximate_algebraic fuel D r (-20) st Hr Hcr Hinv ltac:(lia))
    as (s & st1 & Hs & Has & Hinv1).
  rewrite (bind_ok _ _ _ _ _ Hs). cbn [deref]. rewrite bind_ret.
  destruct (Z.ltb_spec s 0) as [Hneg | Hnn].
  - (* the selector is negative *)
    pose proof (approximates_neg _ _ _ Has Hneg) as Hv.
    rewrite (selected_neg _ _ _ Hv).
    destruct (Approximate_algebraic fuel D a p st1 Ha Hca Hinv1 ltac:(lia))
      as (x & st2 & Hx & Hax & Hinv2).
    exists x, st2. auto.
  - destruct (Z.ltb_spec 0 s) as [Hpos | Hz].
    + pose proof (approximates_pos _ _ _ Has Hpos) as Hv.
      rewrite (selected_nonneg _ _ _ (Qlt_le_weak _ _ Hv)).
      destruct (Approximate_algebraic fuel D b p st1 Hb Hcb Hinv1 ltac:(lia))
        as (x & st2 & Hx & Hax & Hinv2).
      exists x, st2. auto.
    + assert (Hsub : sub p 1 = (p - 1)%Z) by (unfold sub; apply wrap_small; lia).
      rewrite Hsub.
      destruct (Approximate_algebraic fuel D a (p - 1) st1 Ha Hca Hinv1 ltac:(lia))
        as (ia & st2 & Hia & Haia & Hinv2).
      destruct (Approximate_algebraic fuel D b (p - 1) st2 Hb Hcb Hinv2 ltac:(lia))
        as (ib & st3 & Hib & Haib & Hinv3).
      rewrite (bind_ok _ _ _ _ _ Hia), (bind_ok _ _ _ _ _ Hib).
      cbn [deref]. rewrite !bind_ret. cbv zeta.
      assert (Hhalf_a : approximates (value a) p (scale ia (-1))).
      { replace (-1)%Z with (p - 1 - p)%Z by lia.
        apply rescale_approximates; [lia | lia | exact Haia]. }
      assert (Hhalf_b : approximates (value b) p (scale ib (-1))).
      { replace (-1)%Z with (p - 1 - p)%Z by lia.
        apply rescale_approximates; [lia | lia | exact Haib]. }
      destruct (Z.leb_spec (Z.abs (ia - ib)) 1) as [Hclose | Hfar].
      * exists (scale ia (-1)), st3. split; [reflexivity |]. split; [exact Hinv3 |].
        unfold selected. destruct (Qlt_le_dec (value r) 0) as [Hv | Hv]; [left; exact Hhalf_a |].
        destruct (Qlt_le_dec (value b) (value a)) as [Hlt | Hle].
        -- right. split; [exact Hv |]. split; [exact Hlt |]. exists ia, ib. auto.
        -- left. apply (halve_tie (value a) (value b) p ia ib Haia Haib Hclose Hle).
      * assert (Hnz : ~ value r == 0).
        { intros E. apply (approximates_apart _ _ _ _ _ Haia Haib Hfar). apply Hmeet, E. }
        destruct (Sign_loop_algebraic fuel D r Hr Hcr Hnz Hsr Hdr 55 0 fuel st3 eq_refl
                    ltac:(lia) Hinv3) as (sg & st4 & Hsg & Hinv4 & Hsgv).
        change (-20 * 2 ^ Z.of_nat 0)%Z with (-20)%Z in Hsg.
        unfold Sign_with.
        rewrite (bind_ok _ _ _ _ _ Hsg).
        destruct Hsgv as [[-> Hv] | [-> Hv]]; cbn [Z.ltb Z.compare].
        -- exists (scale ib (-1)), st4. split; [reflexivity |]. split; [exact Hinv4 |].
           rewrite (selected_nonneg _ _ _ (Qlt_le_weak _ _ Hv)). left. exact Hhalf_b.
        -- exists (scale ia (-1)), st4. split; [reflexivity |]. split; [exact Hinv4 |].
           rewrite (selected_neg _ _ _ Hv). left. exact Hhalf_a.
Qed.

(** It keeps the contract when the two alternatives are ordered like the
    selector: b is not below a where the selector is not negative. *)
Lemma condsign_spec fuel D t a b r p st :
  algebraic a -> algebraic b -> algebraic r ->
  consistent D a -> consistent D b -> consistent D r -> trackerInv D st ->
  (0 <= value r -> value a <= value b) ->
  (value r == 0 -> value a == value b) ->
  (Z.abs p + 1 + slack a < 1152921504606846976)%Z ->
  (Z.abs p + 1 + slack b < 1152921504606846976)%Z ->
  (slack r < 288230376151711744)%Z -> (dbits r < 288230376151711744)%Z ->
  (56 <= fuel)%nat ->
  exists x st1,
    approximate fuel (constructiveCondsign t a b r) p st = (Ok (Some x), st1) /\
    approximates (selected (value r) (value a) (value b)) p x /\ trackerInv D st1.
Proof.
  intros Ha Hb Hr Hca Hcb Hcr Hinv Hord Hmeet Hpa Hpb Hsr Hdr Hfuel.
  destruct (condsign_general fuel D t a b r p st Ha Hb Hr Hca Hcb Hcr Hinv Hmeet Hpa Hpb
              Hsr Hdr Hfuel) as (x & st1 & Heq & Hinv1 & [Hx | (Hv & Hlt & _)]).
  - exists x, st1. auto.
  - specialize (Hord Hv). lra.
Qed.

Lemma selected_abs v : selected v (- v) v == Qabs v.
Proof.
  unfold selected. destruct (Qlt_le_dec v 0) as [H | H].
  - rewrite Qabs_neg by lra. reflexivity.
  - rewrite Qabs_pos by exact H. reflexivity.
Qed.

(** X15: [Abs] keeps the approximation contract.  On a heap as the contract
    asks for, [Abs c] of a built expression c returns a node x such that, on
    every such heap later on, [Approximate x p] returns an integer a with
    |a * 2^p - |c|| < 2^p. *)
Theorem Abs_contract (D : nat -> Q) (st : store) (c : Real) :
  trackerInv D st -> built D st c ->
  exists x st1 D1,
    Abs c st = (Ok x, st1) /\ trackerInv D1 st1 /\
    (forall y, built D st y -> built D1 st1 y) /\
    forall fuel p st2,
      trackerInv D1 st2 -> (56 <= fuel)%nat ->
      (Z.abs p + 1 + slack c < 2 ^ 60)%Z -> (slack c < 2 ^ 58)%Z -> (dbits c < 2 ^ 58)%Z ->
      exists a st3,
        Approximate fuel x p st2 = (Ok (Some a), st3) /\
        Qabs (inject_Z a * pow2 p - Qabs (value c)) < pow2 p /\
        trackerInv D1 st3.
Proof.
  intros Hinv Hc.
  destruct (alloc_keeps D st (- value c) Hinv) as [Hinv' Hf'].
  destruct (alloc_keeps _ (snd (alloc st)) (Qabs (value c)) Hinv') as [Hinv1 Hf1].
  set (D' := describe D st (- value c)) in *.
  set (D1 := describe D' (snd (alloc st)) (Qabs (value c))) in *.
  set (n := constructiveNegation (next st) c).
  assert (Hn' : built D' (snd (alloc st)) n).
  { destruct (Hf' c Hc) as (Halg & Hcons & Hal). split; [exact Halg |]. split.
    - cbn [n consistent]. split; [apply describe_new | exact Hcons].
    - cbn [n allocated alloc snd next] in *. split; [lia | exact Hal]. }
  destruct (Hf1 n Hn') as (Hnalg & Hncons & _).
  destruct (Hf1 c (Hf' c Hc)) as (Hcalg & Hccons & _).
  exists (constructiveCondsign (S (next st)) n c c). eexists. exists D1.
  split; [reflexivity |]. split; [exact Hinv1 |].
  split; [intros y Hy; apply Hf1, Hf', Hy |].
  intros fuel p st2 Hinv2 Hfuel Hp Hs Hd.
  change (2 ^ 60)%Z with 1152921504606846976%Z in Hp.
  change (2 ^ 58)%Z with 288230376151711744%Z in Hs, Hd.
  pose proof (slack_nonneg c).
  assert (HDt : D1 (S (next st)) == Qabs (value c)).
  { unfold D1. apply (describe_new D' (snd (alloc st))). }
  unfold Approximate. cbn [trackerOf].
  destruct (Approximate_with_spec D1 (S (next st)) (Qabs (value c))
              (approximate fuel (constructiveCondsign (S (next st)) n c c)) p st2 HDt
              (range_valid p ltac:(lia)) Hinv2) as (a & st3 & Heq & Ha & Hinv3 & _).
  { destruct (condsign_spec fuel D1 (S (next st)) n c c p st2 Hnalg Hcalg Hcalg
                Hncons Hccons Hccons Hinv2) as (x & st3 & Heq & Hx & Hinv3);
      try (cbn [n slack value]; first [lra | lia | assumption]).
    exists x, st3. split; [exact Heq |]. split; [| exact Hinv3].
    apply (approximates_proper _ _ _ _ (selected_abs (value c))). exact Hx. }
  exists a, st3. split; [exact Heq |]. split; [exact Ha | exact Hinv3].
Qed.

Lemma Abs_contract_witness :
  let c := constructiveInteger 0 (-3) in
  let D := fun _ : nat => - (3) in
  let st := mkStore 1 ∅ None None in
  exists x st1 D1,
    Abs c st = (Ok x, st1) /\ trackerInv D1 st1 /\
    (forall y, built D st y -> built D1 st1 y) /\
    forall fuel p st2,
      trackerInv D1 st2 -> (56 <= fuel)%nat ->
      (Z.abs p + 1 + slack c < 2 ^ 60)%Z -> (slack c < 2 ^ 58)%Z -> (dbits c < 2 ^ 58)%Z ->
      exists a st3,
        Approximate fuel x p st2 = (Ok (Some a), st3) /\
        Qabs (inject_Z a * pow2 p - Qabs (value c)) < pow2 p /\
        trackerInv D1 st3.
Proof.
  intros c D st.
  apply (Abs_contract D st c).
  - intros k Hv. unfold trackerAt in Hv. cbn in Hv. rewrite lookup_empty in Hv. discriminate.
  - split; [exact I |]. split; [cbn; reflexivity | cbn; lia].
Defined.

(** X16: [Max] keeps the approximation contract.  [Max a b] of two built
    expressions returns a node x such that [Approximate x p] returns an
    integer within one unit of 2^p of the larger of a and b. *)
Theorem Max_contract (D : nat -> Q) (st : store) (a b : Real) :
  trackerInv D st -> built D st a -> built D st b ->
  exists x st1 D1,
    Max a b st = (Ok x, st1) /\ trackerInv D1 st1 /\
    (forall y, built D st y -> built D1 st1 y) /\
    forall fuel p st2,
      trackerInv D1 st2 -> (56 <= fuel)%nat ->
      (Z.abs p + 1 + slack a < 2 ^ 60)%Z -> (Z.abs p + 1 + slack b < 2 ^ 60)%Z ->
      (slack a < 2 ^ 57)%Z -> (slack b < 2 ^ 57)%Z ->
      (dbits a < 2 ^ 58)%Z -> (dbits b < 2 ^ 58)%Z ->
      exists z st3,
        Approximate fuel x p st2 = (Ok (Some z), st3) /\
        (value b <= value a -> Qabs (inject_Z z * pow2 p - value a) < pow2 p) /\
        (value a <= value b -> Qabs (inject_Z z * pow2 p - value b) < pow2 p) /\
        trackerInv D1 st3.
Proof.
  intros Hinv Ha Hb.
  set (nb := constructiveNegation (next st) b).
  set (d := constructiveAddition (S (next st)) a nb).
  set (v := selected (value d) (value b) (value a)).
  destruct (alloc_keeps D st (value nb) Hinv) as [Hinv' Hf'].
  destruct (alloc_keeps _ (snd (alloc st)) (value d) Hinv') as [Hinv'' Hf''].
  destruct (alloc_keeps _ (snd (alloc (snd (alloc st)))) v Hinv'') as [Hinv1 Hf1].
  set (D' := describe D st (value nb)) in *.
  set (D'' := describe D' (snd (alloc st)) (value d)) in *.
  set (D1 := describe D'' (snd (alloc (snd (alloc st)))) v) in *.
  assert (Hnb : built D' (snd (alloc st)) nb).
  { destruct (Hf' b Hb) as (Halg & Hcons & Hal). split; [exact Halg |]. split.
    - cbn [nb consistent]. split; [apply describe_new | exact Hcons].
    - cbn [nb allocated alloc snd next] in *. split; [lia | exact Hal]. }
  assert (Hd : built D'' (snd (alloc (snd (alloc st)))) d).
  { destruct (Hf'' a (Hf' a Ha)) as (Halg & Hcons & Hal).
    destruct (Hf'' nb Hnb) as (Halg' & Hcons' & Hal').
    split; [cbn [d algebraic]; auto |]. split.
    - cbn [d consistent]. split; [apply (describe_new D' (snd (alloc st))) | auto].
    - cbn [d allocated]. split; [cbn [alloc snd next]; lia | split; [exact Hal | exact Hal']]. }
  destruct (Hf1 d Hd) as (Hdalg & Hdcons & _).
  destruct (Hf1 a (Hf'' a (Hf' a Ha))) as (Haalg & Hacons & _).
  destruct (Hf1 b (Hf'' b (Hf' b Hb))) as (Hbalg & Hbcons & _).
  exists (constructiveCondsign (S (S (next st))) b a d). eexists. exists D1.
  split; [reflexivity |]. split; [exact Hinv1 |].
  split; [intros y Hy; apply Hf1, Hf'', Hf', Hy |].
  intros fuel p st2 Hinv2 Hfuel Hpa Hpb Hsa Hsb Hda Hdb.
  change (2 ^ 60)%Z with 1152921504606846976%Z in Hpa, Hpb.
  change (2 ^ 57)%Z with 144115188075855872%Z in Hsa, Hsb.
  change (2 ^ 58)%Z with 288230376151711744%Z in Hda, Hdb.
  pose proof (slack_nonneg a). pose proof (slack_nonneg b).
  assert (Hvd : value d == value a - value b) by (cbn [d nb value]; ring).
  assert (HDt : D1 (S (S (next st))) == v).
  { unfold D1. apply (describe_new D'' (snd (alloc (snd (alloc st))))). }
  unfold Approximate. cbn [trackerOf].
  destruct (Approximate_with_spec D1 (S (S (next st))) v
              (approximate fuel (constructiveCondsign (S (S (next st))) b a d)) p st2 HDt
              (range_valid p ltac:(lia)) Hinv2) as (z & st3 & Heq & Hz & Hinv3 & _).
  { apply (condsign_spec fuel D1 (S (S (next st))) b a d p st2); try assumption.
    - rewrite Hvd. lra.
    - rewrite Hvd. lra.
    - cbn [d nb slack]. lia.
    - cbn [d nb dbits]. lia. }
  exists z, st3. split; [exact Heq |]. split; [| split; [| exact Hinv3]].
  - intros Hle. unfold approximates in Hz. unfold v in Hz.
    rewrite selected_nonneg in Hz by (rewrite Hvd; lra). exact Hz.
  - intros Hle. unfold v in Hz. unfold selected in Hz.
    destruct (Qlt_le_dec (value d) 0) as [Hneg | Hnn]; [exact Hz |].
    apply (approximates_proper (value a)); [| exact Hz]. rewrite Hvd in Hnn. lra.
Qed.

Lemma Max_contract_witness :
  let a := constructiveInteger 0 3 in
  let b := constructiveInteger 1 5 in
  let D := fun k : nat => match k with O => 3 | _ => 5 end in
  let st := mkStore 2 ∅ None None in
  exists x st1 D1,
    Max a b st = (Ok x, st1) /\ trackerInv D1 st1 /\
    (forall y, built D st y -> built D1 st1 y) /\
    forall fuel p st2,
      trackerInv D1 st2 -> (56 <= fuel)%nat ->
      (Z.abs p + 1 + slack a < 2 ^ 60)%Z -> (Z.abs p + 1 + slack b < 2 ^ 60)%Z ->
      (slack a < 2 ^ 57)%Z -> (slack b < 2 ^ 57)%Z ->
      (dbits a < 2 ^ 58)%Z -> (dbits b < 2 ^ 58)%Z ->
      exists z st3,
        Approximate fuel x p st2 = (Ok (Some z), st3) /\
        (value b <= value a -> Qabs (inject_Z z * pow2 p - value a) < pow2 p) /\
        (value a <= value b -> Qabs (inject_Z z * pow2 p - value b) < pow2 p) /\
        trackerInv D1 st3.
Proof.
  intros a b D st.
  apply (Max_contract D st a b).
  - intros k Hv. unfold trackerAt in Hv. cbn in Hv. rewrite lookup_empty in Hv. discriminate.
  - split; [exact I |]. split; [cbn; reflexivity | cbn; lia].
  - split; [exact I |]. split; [cbn; reflexivity | cbn; lia].
Defined.

(** In a tie the halved approximation of [a] is within 3/2 units of [b], and
    a tie needs the two values to be less than 3/2 units apart. *)
Lemma halve_tie_bound va vb q ia ib :
  approximates va (q - 1) ia -> approximates vb (q - 1) ib ->
  (Z.abs (ia - ib) <= 1)%Z ->
  Qabs (inject_Z (scale ia (-1)) * pow2 q - vb) < 3 * pow2 (q - 1) /\
  Qabs (va - vb) < 3 * pow2 (q - 1).
Proof.
  intros Ha Hb Hd.
  apply approximates_iff in Ha. apply approximates_iff in Hb.
  pose proof (scale_down_bounds ia (-1) ltac:(lia)) as Hs.
  change (2 ^ (- -1))%Z with 2%Z in Hs. change (2 ^ (- -1 - 1))%Z with 1%Z in Hs.
  pose proof (pow2_pred q) as Hq. pose proof (pow2_pos (q - 1)) as Hu.
  assert (H1 : inject_Z ia <= 2 * inject_Z (scale ia (-1)))
    by (change 2 with (inject_Z 2); rewrite <- inject_Z_mult, <- Zle_Qle; lia).
  assert (H2 : 2 * inject_Z (scale ia (-1)) <= inject_Z ia + 1)
    by (change 2 with (inject_Z 2); change 1 with (inject_Z 1);
        rewrite <- inject_Z_mult, <- inject_Z_plus, <- Zle_Qle; lia).
  assert (H3 : inject_Z ib - 1 <= inject_Z ia)
    by (change 1 with (inject_Z 1); rewrite <- inject_Z_sub, <- Zle_Qle; lia).
  assert (H4 : inject_Z ia <= inject_Z ib + 1)
    by (change 1 with (inject_Z 1); rewrite <- inject_Z_plus, <- Zle_Qle; lia).
  rewrite Hq.
  set (R := inject_Z (scale ia (-1))) in *. set (A := inject_Z ia) in *.
  set (B := inject_Z ib) in *. set (U := pow2 (q - 1)) in *.
  split; apply Qabs_Qlt_condition; split; nra.
Qed.

(** X17: [Min] keeps a weaker bound than the contract.  [Min a b] of two
    built expressions returns a node x such that [Approximate x p], the
    tracker of x not being valid yet, returns an integer within 3/2 units of
    2^p of the smaller of a and b, and within one unit when a <= b or when
    a - b >= 3/2 units. *)
Theorem Min_bound (D : nat -> Q) (st : store) (a b : Real) :
  trackerInv D st -> built D st a -> built D st b ->
  exists x st1 D1,
    Min a b st = (Ok x, st1) /\ trackerInv D1 st1 /\
    (forall y, built D st y -> built D1 st1 y) /\
    trackerOf x = Some (S (S (next st))) /\
    forall fuel p st2,
      trackerInv D1 st2 -> IsValid (trackerAt st2 (S (S (next st)))) = false ->
      (56 <= fuel)%nat ->
      (Z.abs p + 1 + slack a < 2 ^ 60)%Z -> (Z.abs p + 1 + slack b < 2 ^ 60)%Z ->
      (slack a < 2 ^ 57)%Z -> (slack b < 2 ^ 57)%Z ->
      (dbits a < 2 ^ 58)%Z -> (dbits b < 2 ^ 58)%Z ->
      exists z st3,
        Approximate fuel x p st2 = (Ok (Some z), st3) /\
        Qabs (inject_Z z * pow2 p - selected (value a - value b) (value a) (value b))
          < 3 * pow2 (p - 1) /\
        (value a <= value b \/ 3 * pow2 (p - 1) <= value a - value b ->
         Qabs (inject_Z z * pow2 p - selected (value a - value b) (value a) (value b))
           < pow2 p).
Proof.
  intros Hinv Ha Hb.
  set (nb := constructiveNegation (next st) b).
  set (d := constructiveAddition (S (next st)) a nb).
  set (v := selected (value d) (value a) (value b)).
  destruct (alloc_keeps D st (value nb) Hinv) as [Hinv' Hf'].
  destruct (alloc_keeps _ (snd (alloc st)) (value d) Hinv') as [Hinv'' Hf''].
  destruct (alloc_keeps _ (snd (alloc (snd (alloc st)))) v Hinv'') as [Hinv1 Hf1].
  set (D' := describe D st (value nb)) in *.
  set (D'' := describe D' (snd (alloc st)) (value d)) in *.
  set (D1 := describe D'' (snd (alloc (snd (alloc st)))) v) in *.
  assert (Hnb : built D' (snd (alloc st)) nb).
  { destruct (Hf' b Hb) as (Halg & Hcons & Hal). split; [exact Halg |]. split.
    - cbn [nb consistent]. split; [apply describe_new | exact Hcons].
    - cbn [nb allocated alloc snd next] in *. split; [lia | exact Hal]. }
  assert (Hd : built D'' (snd (alloc (snd (alloc st)))) d).
  { destruct (Hf'' a (Hf' a Ha)) as (Halg & Hcons & Hal).
    destruct (Hf'' nb Hnb) as (Halg' & Hcons' & Hal').
    split; [cbn [d algebraic]; auto |]. split.
    - cbn [d consistent]. split; [apply (describe_new D' (snd (alloc st))) | auto].
    - cbn [d allocated]. split; [cbn [alloc snd next]; lia | split; [exact Hal | exact Hal']]. }
  destruct (Hf1 d Hd) as (Hdalg & Hdcons & _).
  destruct (Hf1 a (Hf'' a (Hf' a Ha))) as (Haalg & Hacons & _).
  destruct (Hf1 b (Hf'' b (Hf' b Hb))) as (Hbalg & Hbcons & _).
  exists (constructiveCondsign (S (S (next st))) a b d). eexists. exists D1.
  split; [reflexivity |]. split; [exact Hinv1 |].
  split; [intros y Hy; apply Hf1, Hf'', Hf', Hy |].
  split; [reflexivity |].
  intros fuel p st2 Hinv2 Hfresh Hfuel Hpa Hpb Hsa Hsb Hda Hdb.
  change (2 ^ 60)%Z with 1152921504606846976%Z in Hpa, Hpb.
  change (2 ^ 57)%Z with 144115188075855872%Z in Hsa, Hsb.
  change (2 ^ 58)%Z with 288230376151711744%Z in Hda, Hdb.
  pose proof (slack_nonneg a). pose proof (slack_nonneg b).
  assert (Hvd : value d == value a - value b) by (cbn [d nb value]; ring).
  assert (Hsel : selected (value a - value b) (value a) (value b)
                 = selected (value d) (value a) (value b)).
  { unfold selected. destruct (Qlt_le_dec (value a - value b) 0);
      destruct (Qlt_le_dec (value d) 0); try reflexivity; rewrite Hvd in *; lra. }
  rewrite Hsel.
  destruct (condsign_general fuel D1 (S (S (next st))) a b d p st2 Haalg Hbalg Hdalg
              Hacons Hbcons Hdcons Hinv2) as (z & st3 & Heq & _ & Hz);
    try assumption; try (cbn [d nb slack dbits]; lia); try (rewrite Hvd; lra).
  exists z. eexists. split.
  { unfold Approximate, Approximate_with. cbn [trackerOf].
    rewrite (range_valid p) by lia. cbn [negb].
    rewrite bind_load. unfold tracker_Get. rewrite Hfresh, andb_false_l.
    rewrite bind_lift_ok. cbn [snd fst]. rewrite (bind_ok _ _ _ _ _ Heq). reflexivity. }
  pose proof (pow2_pred p) as Hq. pose proof (pow2_pos (p - 1)) as Hu.
  destruct Hz as [Hz | (Hv & Hlt & ia & ib & Hia & Hib & Hclose & ->)].
  - unfold approximates in Hz. split; [lra | intros _; exact Hz].
  - destruct (halve_tie_bound _ _ p ia ib Hia Hib Hclose) as [Hb1 Hb2].
    rewrite (selected_nonneg _ _ _ Hv). split; [exact Hb1 |].
    intros [Hle | Hfar]; [lra |].
    rewrite Qabs_pos in Hb2 by lra. lra.
Qed.

Lemma Min_bound_witness :
  let a := constructiveInteger 0 3 in
  let b := constructiveInteger 1 5 in
  let D := fun k : nat => match k with O => 3 | _ => 5 end in
  let st := mkStore 2 ∅ None None in
  exists x st1 D1,
    Min a b st = (Ok x, st1) /\ trackerInv D1 st1 /\
    (forall y, built D st y -> built D1 st1 y) /\
    trackerOf x = Some (S (S (next st))) /\
    forall fuel p st2,
      trackerInv D1 st2 -> IsValid (trackerAt st2 (S (S (next st)))) = false ->
      (56 <= fuel)%nat ->
      (Z.abs p + 1 + slack a < 2 ^ 60)%Z -> (Z.abs p + 1 + slack b < 2 ^ 60)%Z ->
      (slack a < 2 ^ 57)%Z -> (slack b < 2 ^ 57)%Z ->
      (dbits a < 2 ^ 58)%Z -> (dbits b < 2 ^ 58)%Z ->
      exists z st3,
        Approximate fuel x p st2 = (Ok (Some z), st3) /\
        Qabs (inject_Z z * pow2 p - selected (value a - value b) (value a) (value b))
          < 3 * pow2 (p - 1) /\
        (value a <= value b \/ 3 * pow2 (p - 1) <= value a - value b ->
         Qabs (inject_Z z * pow2 p - selected (value a - value b) (value a) (value b))
           < pow2 p).
Proof.
  intros a b D st.
  apply (Min_bound D st a b).
  - intros k Hv. unfold trackerAt in Hv. cbn in Hv. rewrite lookup_empty in Hv. discriminate.
  - split; [exact I |]. split; [cbn; reflexivity | cbn; lia].
  - split; [exact I |]. split; [cbn; reflexivity | cbn; lia].
Defined.

(** The bound of one unit is indeed lost: the selecting node halves the
    approximation of its first alternative when the two approximations are
    within 1 of each other, which is off by more than a unit when the second,
    smaller one is the answer.  min(5 * 2^-34, -3 * 2^-34) at precision -30
    is answered with 1, and |1 * 2^-30 - (-3) * 2^-34| = 19/16 * 2^-30. *)
Example Min_off_by_more_than_one :
  run (do x <- FromInt 5; do xs <- ShiftRight x 34;
       do y <- FromInt (-3); do ys <- ShiftRight y 34;
       do m <- Min xs ys; Approximate 56 m (-30)) = Ok (Some 1%Z) /\
  ~ Qabs (inject_Z 1 * pow2 (-30) - inject_Z (-3) * pow2 (-34)) < pow2 (-30).
Proof. split; [vm_compute; reflexivity |]. vm_compute. discriminate. Qed.

Local Close Scope Q_scope.

(** ** [Text] outside its documented domain *)

Lemma Text_of_panic fuel c dec radix st msg st' :
  Text_body fuel c dec radix st = (Panic msg, st') ->
  Text fuel c dec radix st = (Ok ("<undefined: " +:+ msg +:+ ">"), st').
Proof. intros H. unfold Text. rewrite H. reflexivity. Qed.

Lemma alloc_fresh st : trackerAt (snd (alloc st)) (next st) = zeroTracker.
Proof. unfold trackerAt. cbn [alloc snd trackers]. rewrite lookup_delete_eq. reflexivity. Qed.

Lemma Approximate_shift_nil fuel t n s :
  trackerAt s t = zeroTracker ->
  (exists s', Approximate fuel (constructiveShift t Nil n) 0 s = (Ok None, s')) \/
  (exists s', Approximate fuel (constructiveShift t Nil n) 0 s = (Panic nilDeref, s')).
Proof.
  intros H. unfold Approximate, Approximate_with. cbn [trackerOf].
  change (IsPrecisionValid 0) with true. cbn [negb].
  rewrite bind_load, H. cbn [tracker_Get zeroTracker IsValid andb].
  rewrite bind_lift_ok. cbn [snd fst approximate trackerOf].
  unfold Approximate_with.
  destruct (IsPrecisionValid (sub 0 n)); cbn [negb].
  - right. eexists. reflexivity.
  - left. eexists. reflexivity.
Qed.

Lemma Approximate_mul_nil fuel t b s :
  trackerAt s t = zeroTracker ->
  Approximate fuel (constructiveMultiplication t Nil b) 0 s = (Panic nilDeref, s).
Proof.
  intros H. unfold Approximate, Approximate_with. cbn [trackerOf].
  change (IsPrecisionValid 0) with true. cbn [negb].
  rewrite bind_load, H. cbn [tracker_Get zeroTracker IsValid andb].
  rewrite bind_lift_ok. cbn [snd fst]. reflexivity.
Qed.

Lemma Text_body_nil fuel dec radix st :
  exists st', Text_body fuel Nil dec radix st = (Panic nilDeref, st').
Proof.
  unfold Text_body, Text_scaled.
  destruct (radix =? 16).
  - assert (E : ShiftLeft Nil (mul 4 dec) st =
                (Ok (constructiveShift (next st) Nil (mul 4 dec)), snd (alloc st)))
      by reflexivity.
    rewrite (bind_ok _ _ _ _ _ E).
    destruct (Approximate_shift_nil fuel (next st) (mul 4 dec) (snd (alloc st))
                (alloc_fresh st)) as [[s' H] | [s' H]].
    + rewrite (bind_ok _ _ _ _ _ H). eexists. reflexivity.
    + rewrite (bind_panic _ _ _ _ _ H). eexists. reflexivity.
  - assert (E : (do i <- newInteger (bigExp radix dec); Multiply Nil i) st =
                (Ok (constructiveMultiplication (S (next st)) Nil
                       (constructiveInteger (next st) (bigExp radix dec))),
                 snd (alloc (snd (alloc st)))))
      by reflexivity.
    rewrite (bind_ok _ _ _ _ _ E).
    rewrite (bind_panic _ _ _ _ _
               (Approximate_mul_nil fuel (S (next st)) _ _ (alloc_fresh (snd (alloc st))))).
    eexists. reflexivity.
Qed.

(** X18: [Text] outside its documented domain.  The nil Real is rendered as
    the undefined text of a nil pointer dereference for every dec and radix;
    a radix outside 2..62 gives the undefined text of an invalid base once the
    approximation has succeeded; and a negative number of decimals behaves as
    0 decimals when the radix is not 16 (the scale factor radix^dec is then
    1). *)
Theorem Text_outside_domain (fuel : nat) (c sc : Real) (dec radix si : Z) (st st0 st1 : store) :
  (radix < 2 \/ 62 < radix) ->
  Text_scaled c dec radix st = (Ok sc, st0) ->
  Approximate fuel sc 0 st0 = (Ok (Some si), st1) ->
  Text fuel c dec radix st = (Ok "<undefined: invalid base>", st1) /\
  (forall fuel' dec' radix' s,
     exists s', Text fuel' Nil dec' radix' s =
                (Ok ("<undefined: " +:+ nilDeref +:+ ">"), s')) /\
  (forall fuel' c' dec' radix' s,
     dec' <= 0 -> radix' <> 16 -> Text fuel' c' dec' radix' s = Text fuel' c' 0 radix' s).
Proof.
  intros Hradix Hsc Hsi. split; [| split].
  - apply (Text_of_panic fuel c dec radix st "invalid base").
    unfold Text_body. rewrite (bind_ok _ _ _ _ _ Hsc), (bind_ok _ _ _ _ _ Hsi).
    cbn [deref]. rewrite bind_ret. unfold bigText.
    destruct (Z.ltb_spec radix 2); [reflexivity |].
    destruct (Z.ltb_spec 62 radix); [reflexivity | lia].
  - intros fuel' dec' radix' s.
    destruct (Text_body_nil fuel' dec' radix' s) as [s' H].
    exists s'. apply Text_of_panic. exact H.
  - intros fuel' c' dec' radix' s Hdec H16.
    unfold Text, Text_body, Text_scaled.
    destruct (Z.eqb_spec radix' 16); [contradiction |].
    unfold bigExp. destruct (Z.leb_spec dec' 0); [| lia]. cbn [Z.leb Z.compare].
    destruct (Z.ltb_spec 0 dec'); [lia |]. reflexivity.
Qed.

Lemma Text_outside_domain_witness :
  let c := constructiveInteger 0 7 in
  let sc := constructiveMultiplication 2 c (constructiveInteger 1 1) in
  let st := mkStore 1 ∅ None None in
  let st1 := snd (Approximate 0 sc 0 (mkStore 3 ∅ None None)) in
  Text 0 c 0 1 st = (Ok "<undefined: invalid base>", st1) /\
  (forall fuel' dec' radix' s,
     exists s', Text fuel' Nil dec' radix' s =
                (Ok ("<undefined: " +:+ nilDeref +:+ ">"), s')) /\
  (forall fuel' c' dec' radix' s,
     dec' <= 0 -> radix' <> 16 -> Text fuel' c' dec' radix' s = Text fuel' c' 0 radix' s).
Proof.
  intros c sc st st1.
  apply (Text_outside_domain 0 c sc 0 1 7 st (mkStore 3 ∅ None None) st1).
  - left. lia.
  - vm_compute. reflexivity.
  - vm_compute. reflexivity.
Defined.

Local Open Scope Q_scope.

(** ** Exact answers and the digits of [Text] *)

(** X19: an algebraic value that is an integer multiple of 2^p is answered
    exactly at precision p: in particular an integer-valued expression at
    precision 0. *)
Theorem Approximate_exact (fuel : nat) (D : nat -> Q) (c : Real) (p z : Z) (st : store) :
  algebraic c -> consistent D c -> trackerInv D st ->
  (Z.abs p + slack c < 2 ^ 60)%Z ->
  value c == inject_Z z * pow2 p ->
  exists st', Approximate fuel c p st = (Ok (Some z), st') /\ trackerInv D st'.
Proof.
  intros Halg Hcons Hinv Hp Hv. change (2 ^ 60)%Z with 1152921504606846976%Z in Hp.
  destruct (Approximate_algebraic fuel D c p st Halg Hcons Hinv Hp) as (a & st' & Heq & Ha & Hinv').
  exists st'. split; [| exact Hinv'].
  assert (E : a = z).
  { apply (approximates_proper _ _ _ _ Hv) in Ha. apply approximates_iff in Ha.
    pose proof (pow2_pos p) as HP.
    assert (H1 : inject_Z a < inject_Z z + 1).
    { set (A := inject_Z a) in *. set (Z' := inject_Z z) in *. set (P := pow2 p) in *. nra. }
    assert (H2 : inject_Z z < inject_Z a + 1).
    { set (A := inject_Z a) in *. set (Z' := inject_Z z) in *. set (P := pow2 p) in *. nra. }
    change 1 with (inject_Z 1) in H1, H2.
    rewrite <- inject_Z_plus, <- Zlt_Qlt in H1, H2. lia. }
  rewrite <- E. exact Heq.
Qed.

Lemma Approximate_exact_witness :
  let x := constructiveInteger 0 3 in
  let c := constructiveMultiplication 2 x (constructiveShift 1 x (-1)) in
  let D := fun k : nat => match k with O => 3 | 1%nat => 3 # 2 | _ => 9 # 2 end in
  exists st', Approximate 0 c (-1) emptyStore = (Ok (Some 9%Z), st') /\ trackerInv D st'.
Proof.
  intros x c D.
  apply (Approximate_exact 0 D c (-1) 9 emptyStore).
  - cbn. tauto.
  - cbn. repeat split; reflexivity.
  - apply trackerInv_empty.
  - vm_compute. reflexivity.
  - vm_compute. reflexivity.
Defined.

Lemma bigExp_nonneg radix dec : (0 <= dec)%Z -> bigExp radix dec = (radix ^ dec)%Z.
Proof.
  intros Hd. unfold bigExp. destruct (Z.leb_spec dec 0); [| reflexivity].
  replace dec with 0%Z by lia. reflexivity.
Qed.

(** X20: the integer whose digits [Text] lays out is within 1 of
    c * radix^dec: for a built expression c and dec >= 0, the scaled
    expression of [Text] is built, and its approximation at precision 0 is an
    integer si with |si - c * radix^dec| < 1. *)
Theorem Text_digits_value (fuel : nat) (D : nat -> Q) (st : store) (c : Real) (dec radix : Z) :
  trackerInv D st -> built D st c -> (0 <= dec)%Z ->
  ((if radix =? 16 then 4 * dec + slack c
    else 4 + Z.max (ubits c) (BitLen (radix ^ dec)) + dbits c + slack c) < 2 ^ 60)%Z ->
  exists sc st0 si st1,
    Text_scaled c dec radix st = (Ok sc, st0) /\
    Approximate fuel sc 0 st0 = (Ok (Some si), st1) /\
    Qabs (inject_Z si - value c * inject_Z (radix ^ dec)) < 1.
Proof.
  intros Hinv Hc Hdec Hb. change (2 ^ 60)%Z with 1152921504606846976%Z in Hb.
  pose proof (slack_nonneg c) as Hs. pose proof (ubits_nonneg c) as Hu.
  pose proof (dbits_nonneg c) as Hd.
  unfold Text_scaled.
  destruct (Z.eqb_spec radix 16) as [-> | Hne].
  - assert (Hmul : mul 4 dec = (4 * dec)%Z) by (unfold mul; apply wrap_small; lia).
    rewrite Hmul.
    destruct (alloc_keeps D st (value c * pow2 (4 * dec)) Hinv) as [Hinv1 Hf1].
    destruct (Hf1 c Hc) as (Halg & Hcons & _).
    set (D1 := describe D st (value c * pow2 (4 * dec))) in *.
    destruct (Approximate_algebraic fuel D1 (constructiveShift (next st) c (4 * dec)) 0
                (snd (alloc st))) as (si & st1 & Heq & Hsi & _).
    + exact Halg.
    + cbn [consistent value]. split; [apply describe_new | exact Hcons].
    + exact Hinv1.
    + cbn [slack]. lia.
    + exists (constructiveShift (next st) c (4 * dec)), (snd (alloc st)), si, st1.
      split; [reflexivity |]. split; [exact Heq |].
      unfold approximates in Hsi. cbn [value] in Hsi. rewrite pow2_0 in Hsi.
      rewrite <- pow2_inject in Hsi by lia.
      replace (16 ^ dec)%Z with (2 ^ (4 * dec))%Z
        by (rewrite Z.pow_mul_r by lia; reflexivity).
      assert (E : inject_Z si - value c * inject_Z (2 ^ (4 * dec))
                  == inject_Z si * 1 - value c * inject_Z (2 ^ (4 * dec))) by ring.
      rewrite E. exact Hsi.
  - rewrite (bigExp_nonneg radix dec Hdec).
    set (sf := (radix ^ dec)%Z) in *.
    set (i := constructiveInteger (next st) sf).
    destruct (alloc_keeps D st (inject_Z sf) Hinv) as [Hinv' Hf'].
    destruct (alloc_keeps _ (snd (alloc st)) (value c * inject_Z sf) Hinv') as [Hinv1 Hf1].
    set (D' := describe D st (inject_Z sf)) in *.
    set (D1 := describe D' (snd (alloc st)) (value c * inject_Z sf)) in *.
    assert (Hi : built D' (snd (alloc st)) i).
    { split; [exact I |]. split; [cbn [i consistent value]; apply describe_new |].
      cbn [i allocated alloc snd next]. lia. }
    destruct (Hf1 i Hi) as (_ & Hicons & _).
    destruct (Hf1 c (Hf' c Hc)) as (Halg & Hcons & _).
    destruct (Approximate_algebraic fuel D1 (constructiveMultiplication (S (next st)) c i) 0
                (snd (alloc (snd (alloc st))))) as (si & st1 & Heq & Hsi & _).
    + cbn [algebraic i]. auto.
    + cbn [consistent]. split; [| auto].
      unfold D1. apply (describe_new D' (snd (alloc st))).
    + exact Hinv1.
    + cbn [slack i ubits dbits]. lia.
    + exists (constructiveMultiplication (S (next st)) c i), (snd (alloc (snd (alloc st)))), si, st1.
      split; [reflexivity |]. split; [exact Heq |].
      unfold approximates in Hsi. cbn [value i] in Hsi. rewrite pow2_0 in Hsi.
      assert (E : inject_Z si - value c * inject_Z sf
                  == inject_Z si * 1 - value c * inject_Z sf) by ring.
      rewrite E. exact Hsi.
Qed.

Lemma Text_digits_value_witness :
  let c := constructiveInteger 0 (-10) in
  let D := fun _ : nat => - (10) in
  let st := mkStore 1 ∅ None None in
  exists sc st0 si st1,
    Text_scaled c 5 10 st = (Ok sc, st0) /\
    Approximate 0 sc 0 st0 = (Ok (Some si), st1) /\
    Qabs (inject_Z si - value c * inject_Z (10 ^ 5)) < 1.
Proof.
  intros c D st.
  apply (Text_digits_value 0 D st c 5 10).
  - intros k Hv. unfold trackerAt in Hv. cbn in Hv. rewrite lookup_empty in Hv. discriminate.
  - split; [exact I |]. split; [cbn; reflexivity | cbn; lia].
  - lia.
  - vm_compute. reflexivity.
Defined.


(** ** Division *)

(** A request the cache can serve is served from it, whatever the node. *)
Lemma Approximate_with_hit_post D k v f p st :
  D k == v -> IsPrecisionValid p = true -> trackerInv D st ->
  IsValid (trackerAt st k) = true -> (MinPrecision (trackerAt st k) <= p)%Z ->
  approxPost D k v p st (Approximate_with (Some k) f p st).
Proof.
  intros HD Hp Hinv Hv Hle. unfold Approximate_with. rewrite Hp. cbn [negb].
  rewrite bind_load.
  pose proof (valid_range p Hp) as Hpr.
  unfold tracker_Get. rewrite Hv.
  destruct (Hinv k Hv) as [Hq [m [Hm Ham]]]. pose proof (valid_range _ Hq) as Hqr.
  rewrite andb_true_l.
  destruct (Z.leb_spec (MinPrecision (trackerAt st k)) p) as [_ | Hgt]; [| lia].
  rewrite Hm, bind_lift_ok. cbn [snd fst]. unfold ret.
  unfold sub. rewrite wrap_small by lia.
  exists (scale m (MinPrecision (trackerAt st k) - p)), st.
  split; [reflexivity |]. split.
  { apply (approximates_proper (D k)); [exact HD |].
    apply rescale_approximates; [exact Hle | lia | exact Ham]. }
  split; [exact Hinv |]. split; [exact Hv |]. split; [exact Hle |].
  exists m. split; [exact Hm |]. split; [reflexivity |]. left. split; [reflexivity | exact Hv].
Qed.

(** [msd] and the tail of the multiplication, from the one approximation of
    the operand they ask for. *)
Lemma msd_with_point D k v A n st u :
  D k == v -> trackerInv D st ->
  approxPost D k v (n - 1) st (A (n - 1)%Z st) ->
  (Z.abs (n - 1) < 1152921504606846976)%Z ->
  Qabs v < pow2 u -> (0 <= u <= 2305843009213693952)%Z ->
  msdPost D k n (msd_with A (Some k) n st).
Proof.
  intros HD Hinv HA Hn Hu Hur. unfold msd_with. rewrite bind_load.
  assert (Hsub : sub n 1 = (n - 1)%Z) by (unfold sub; rewrite wrap_small by lia; reflexivity).
  assert (Hrun :
    msdPost D k n
      ((do _ <- A (sub n 1);
        do t' <- load k;
        do m <- deref (MaxApproximation t');
        if Z.abs m <=? 1 then ret MinInt else lift (knownMSD_of t')) st)).
  { rewrite Hsub. destruct HA
      as (a & st' & HAeq & Ha & Hinv' & Hv' & Hq' & m & Hm & _).
    rewrite (bind_ok _ _ _ _ _ HAeq), bind_load, Hm. cbn [deref]. rewrite bind_ret.
    destruct (Hinv' k Hv') as [Hqv [m' [Hm' Ham']]].
    rewrite Hm in Hm'. inversion Hm'; subst m'.
    destruct (Z.leb_spec (Z.abs m) 1) as [Hs | Hl].
    - exists MinInt, st'. split; [reflexivity |]. split; [exact Hinv' |].
      split; [exact Hv' |]. exists m. split; [exact Hm |]. left. auto.
    - assert (Hnz : m <> 0%Z) by lia.
      destruct (knownMSD_of_spec _ v u m Hqv Hm
                  (approximates_proper _ _ _ _ HD Ham') Hnz Hu Hur) as [Hk _].
      rewrite Hk. exists (MinPrecision (trackerAt st' k) + BitLen m - 1)%Z, st'.
      split; [reflexivity |]. split; [exact Hinv' |]. split; [exact Hv' |].
      exists m. split; [exact Hm |]. right. split; [reflexivity | lia]. }
  destruct (IsValid (trackerAt st k)) eqn:Hv; cbn [negb].
  - destruct (Hinv k Hv) as [Hqv [m [Hm Ham]]].
    rewrite Hm. cbn [deref]. rewrite bind_assoc_ret, bind_ret.
    destruct (Z.leb_spec m 1) as [H1 | H1]; destruct (Z.leb_spec (-1) m) as [H2 | H2];
      cbn [andb]; try exact Hrun.
    + assert (Hnz : m <> 0%Z) by lia.
      destruct (knownMSD_of_spec _ v u m Hqv Hm
                  (approximates_proper _ _ _ _ HD Ham) Hnz Hu Hur) as [Hk _].
      rewrite Hk. exists (MinPrecision (trackerAt st k) + BitLen m - 1)%Z, st.
      split; [reflexivity |]. split; [exact Hinv |]. split; [exact Hv |].
      exists m. split; [exact Hm |]. right. split; [reflexivity | lia].
    + assert (Hnz : m <> 0%Z) by lia.
      destruct (knownMSD_of_spec _ v u m Hqv Hm
                  (approximates_proper _ _ _ _ HD Ham) Hnz Hu Hur) as [Hk _].
      rewrite Hk. exists (MinPrecision (trackerAt st k) + BitLen m - 1)%Z, st.
      split; [reflexivity |]. split; [exact Hinv |]. split; [exact Hv |].
      exists m. split; [exact Hm |]. right. split; [reflexivity | lia].
    + lia.
  - rewrite bind_ret. exact Hrun.
Qed.

Lemma mulTail_point D ka kb va vb Aa Ab p m0 st ub db L K :
  D ka == va -> D kb == vb ->
  evaluates D ka va L Aa ->
  approxPost D kb vb (p - m0 - 3) st (Ab (p - m0 - 3)%Z st) ->
  Qabs vb < pow2 ub -> (0 <= ub <= K)%Z ->
  (~ vb == 0 -> pow2 (- db) <= Qabs vb) -> (0 <= db <= K)%Z ->
  (- K <= m0 <= K)%Z -> (Z.abs p + K + 3 <= L)%Z -> (L < 1152921504606846976)%Z ->
  trackerInv D st ->
  (Qabs vb < pow2 (p - m0 - 3) -> Qabs (va * vb) < pow2 p) ->
  (forall ib st2, approxPost D kb vb (p - m0 - 3) st (Ok (Some ib), st2) -> ib <> 0%Z ->
     Qabs va * pow2 (p - m0 - 3) <= pow2 p * (1 # 4)) ->
  exists a st1,
    mulTail Aa Ab (Some kb) p m0 st = (Ok (Some a), st1) /\
    approximates (va * vb) p a /\ trackerInv D st1.
Proof.
  intros HDa HDb HAa HAb Hub Hubr Hdb Hdbr Hm0 HL HLr Hinv Hzero HF.
  unfold mulTail. cbv zeta.
  assert (Hp2 : sub (sub p m0) 3 = (p - m0 - 3)%Z).
  { unfold sub. rewrite (wrap_small (p - m0)) by lia. rewrite wrap_small by lia. reflexivity. }
  rewrite Hp2. set (p2 := (p - m0 - 3)%Z) in *.
  assert (Hp2L : (Z.abs p2 <= L)%Z) by (unfold p2; lia).
  assert (Hp2e : p2 = (p - m0 - 3)%Z) by reflexivity.
  clearbody p2.
  pose proof HAb as Hpost.
  pose proof Hpost as Hpost'.
  destruct Hpost as (ib & st2 & Hib & Hibv & Hinv2 & Hv2 & Hq2 & M & HM & Hsc & Hhit) eqn:Hposteq.
  clear Hposteq.
  rewrite (bind_ok _ _ _ _ _ Hib). cbn [deref]. rewrite bind_ret.
  destruct (Z.eqb_spec ib 0) as [Hz | Hnz].
  - exists 0%Z, st2. split; [reflexivity |]. split; [| exact Hinv2].
    apply approximates_zero. apply Hzero.
    apply approximates_zero. rewrite Hz in Hibv. exact Hibv.
  - assert (HFa : Qabs va * pow2 p2 <= pow2 p * (1 # 4)).
    { apply (HF ib st2); [| exact Hnz]. rewrite <- Hib. exact Hpost'. }
    destruct (Hinv2 kb Hv2) as [Hqv [M' [HM' HMv]]].
    rewrite HM in HM'. inversion HM'; subst M'. clear HM'.
    apply (approximates_proper _ vb) in HMv; [| exact HDb].
    pose proof (valid_range _ Hqv) as Hqr.
    assert (HMnz : M <> 0%Z).
    { intros ->. apply Hnz. rewrite Hsc. apply scale_zero. lia. }
    destruct (knownMSD_of_spec (trackerAt st2 kb) vb ub M Hqv HM HMv HMnz Hub ltac:(lia))
      as [Hk Hkb].
    remember (MinPrecision (trackerAt st2 kb)) as q eqn:Hqdef.
    unfold knownMSD_at. rewrite bind_assoc_load, Hk, bind_lift_ok.
    pose proof (msd_upper vb q M HMv) as Hup.
    pose proof (BitLen_lower M HMnz) as [HBL1 _].
    remember (q + BitLen M - 1)%Z as mb eqn:Hmbdef.
    assert (Hvnz : ~ vb == 0) by (apply (approximates_nonzero vb q M HMv HMnz)).
    assert (Hmblo : (- db <= mb)%Z).
    { assert (Hlt : pow2 (- db) < pow2 (mb + 1)) by (eapply Qle_lt_trans; [apply Hdb, Hvnz | exact Hup]).
      apply pow2_lt_inv in Hlt. lia. }
    assert (Hp1 : sub (sub p mb) 3 = (p - mb - 3)%Z).
    { unfold sub. rewrite (wrap_small (p - mb)) by lia. rewrite wrap_small by lia. reflexivity. }
    rewrite Hp1. remember (p - mb - 3)%Z as p1 eqn:Hp1def.
    destruct (HAa p1 st2 ltac:(lia) Hinv2) as (ia & st3 & Hia & Hiav & Hinv3 & _).
    rewrite (bind_ok _ _ _ _ _ Hia). cbn [deref]. rewrite bind_ret.
    assert (He : sub (add p1 p2) p = (p1 + p2 - p)%Z).
    { unfold sub, add. rewrite (wrap_small (p1 + p2)) by lia. rewrite wrap_small by lia.
      reflexivity. }
    rewrite He.
    exists (scale (ia * ib) (p1 + p2 - p)), st3. split; [reflexivity |]. split; [| exact Hinv3].
    apply scale_approximates; [lia |].
    replace (p + (p1 + p2 - p))%Z with (p1 + p2)%Z by lia.
    rewrite pow2_add, inject_Z_mult.
    apply mul_error; try apply pow2_pos; try assumption.
    (* |ib| * 2^p2 * 2^p1 <= 2^p / 4 *)
    destruct (scale_abs_bound M (p2 - q) ltac:(lia)) as [Hkle Hsb].
    { replace (- (p2 - q))%Z with (q - p2)%Z by lia. rewrite <- Hsc. exact Hnz. }
    replace (- (p2 - q))%Z with (q - p2)%Z in Hsb by lia. rewrite <- Hsc in Hsb.
    rewrite Zle_Qle, inject_Z_mult, !pow2_inject in Hsb by (try apply BitLen_nonneg; lia).
    rewrite <- Qabs_inject_Z in Hsb.
    assert (E1 : pow2 p2 == pow2 (p2 - q) * pow2 q)
      by (rewrite <- pow2_add; replace (p2 - q + q)%Z with p2 by lia; reflexivity).
    assert (E2 : pow2 (BitLen M) * pow2 q * pow2 p1 == pow2 p * (1 # 4)).
    { rewrite <- !pow2_add. replace (BitLen M + q + p1)%Z with (p - 1 - 1)%Z by lia.
      rewrite (pow2_pred p), (pow2_pred (p - 1)). ring. }
    pose proof (pow2_pos q). pose proof (pow2_pos p1). pose proof (pow2_pos (p2 - q)).
    rewrite E1, <- E2.
    set (I := Qabs (inject_Z ib)) in *. set (X := pow2 (p2 - q)) in *.
    set (Y := pow2 q) in *. set (Z1 := pow2 p1) in *. set (W := pow2 (BitLen M)) in *.
    assert (I * X * Y <= W * Y) by nra.
    assert (I * X * Y * Z1 <= W * Y * Z1) by nra.
    nra.
Qed.

(** The multiplication when the second operand answers only requests that
    are not positive or that its cache can serve. *)
Lemma mulBody_restricted D ka kb va vb Aa Ab p st ua ub da db L K :
  D ka == va -> D kb == vb ->
  evaluates D ka va L Aa ->
  (forall q st',
     (Z.abs q <= L)%Z -> trackerInv D st' ->
     (q <= 0)%Z \/
     (IsValid (trackerAt st' kb) = true /\ (MinPrecision (trackerAt st' kb) <= q)%Z) ->
     approxPost D kb vb q st' (Ab q st')) ->
  (p <= 0)%Z -> (va == 0 \/ pow2 (p - 3) <= Qabs va) ->
  Qabs va < pow2 ua -> (0 <= ua <= K)%Z ->
  (~ va == 0 -> pow2 (- da) <= Qabs va) -> (0 <= da <= K)%Z ->
  Qabs vb < pow2 ub -> (0 <= ub <= K)%Z ->
  (~ vb == 0 -> pow2 (- db) <= Qabs vb) -> (0 <= db <= K)%Z ->
  (Z.abs p + K + 3 <= L)%Z -> (L < 1152921504606846976)%Z ->
  trackerInv D st ->
  exists a st1,
    mulBody Aa Ab (Some ka) (Some kb) p st = (Ok (Some a), st1) /\
    approximates (va * vb) p a /\ trackerInv D st1.
Proof.
  intros HDa HDb HAa HAb Hp0 Hva Hua Huar Hda Hdar Hub Hubr Hdb Hdbr HL HLr Hinv.
  unfold mulBody. cbv zeta.
  rewrite Z.shiftr_div_pow2 by lia. change (2 ^ 1)%Z with 2%Z.
  pose proof (Z.div_mod p 2 ltac:(lia)) as Hdm.
  pose proof (Z.mod_pos_bound p 2 ltac:(lia)) as Hmod.
  remember (p / 2)%Z as h eqn:Hh.
  assert (Hhp : sub h 1 = (h - 1)%Z) by (unfold sub; rewrite wrap_small by lia; reflexivity).
  rewrite Hhp.
  (* msd of a *)
  destruct (msd_with_spec D ka va Aa (h - 1)%Z st ua L HDa Hinv HAa ltac:(lia) HLr Hua ltac:(lia))
    as (ma & st1 & Hmsda & Hinv1 & Hva1 & ama & Hama & Hcasea).
  rewrite (bind_ok _ _ _ _ _ Hmsda).
  destruct (msdPost_value D ka va (h - 1)%Z ua da ma st1 ama HDa Hinv1 Hva1 Hama Hua Hda Hcasea)
    as [[-> Hsmalla] | (Hmar & Hloa & Hupa & _ & _)].
  - (* a is below 2^hp: try b *)
    rewrite Z.eqb_refl.
    assert (Hh0 : (h - 1 - 1 <= 0)%Z) by lia.
    destruct (msd_with_point D kb vb Ab (h - 1)%Z st1 ub HDb Hinv1
                (HAb (h - 1 - 1)%Z st1 ltac:(lia) Hinv1 (or_introl Hh0))
                ltac:(lia) Hub ltac:(lia))
      as (mb & st2 & Hmsdb & Hinv2 & Hvb2 & amb & Hamb & Hcaseb).
    rewrite (bind_assoc_ok _ _ _ _ _ _ Hmsdb).
    destruct (msdPost_value D kb vb (h - 1)%Z ub db mb st2 amb HDb Hinv2 Hvb2 Hamb Hub Hdb Hcaseb)
      as [[-> Hsmallb] | (Hmbr & Hlob & Hupb & Hmbdef & Hamb2)].
    + rewrite Z.eqb_refl, bind_ret.
      exists 0%Z, st2. split; [reflexivity |]. split; [| exact Hinv2].
      apply approximates_zero.
      apply (Qabs_mult_lt_pow2 va vb (h - 1) (h - 1) p Hsmalla Hsmallb). lia.
    + destruct (Z.eqb_spec mb MinInt) as [Hc | _]; [rewrite MinInt_val in Hc; lia |].
      rewrite bind_ret.
      apply (mulTail_point D ka kb va vb Aa Ab p mb st2 ub db L K); try assumption; try lia.
      * (* the request is not positive, or the cache serves it *)
        apply HAb; [lia | exact Hinv2 |].
        destruct (Z_le_gt_dec (p - mb - 3) 0) as [Hc | Hc]; [left; exact Hc | right].
        split; [exact Hvb2 |].
        pose proof (BitLen_upper amb) as HU. pose proof (BitLen_nonneg amb) as HN.
        assert (HBL : (2 <= BitLen amb)%Z).
        { destruct (Z_lt_le_dec (BitLen amb) 2%Z) as [Hlt | Hle]; [| exact Hle].
          assert (HB01 : BitLen amb = 0%Z \/ BitLen amb = 1%Z) by lia.
          destruct HB01 as [HB | HB]; rewrite HB in HU;
            [change (2 ^ 0)%Z with 1%Z in HU | change (2 ^ 1)%Z with 2%Z in HU]; lia. }
        lia.
      * (* a zero approximation of b *)
        intros Hvb. destruct (Z_le_gt_dec (mb + 1) (p - mb - 3)) as [Hc | Hc].
        -- apply (Qabs_mult_lt_pow2 va vb (h - 1) (mb + 1) p Hsmalla Hupb). lia.
        -- apply (Qabs_mult_lt_pow2 va vb (h - 1) (p - mb - 3) p Hsmalla Hvb). lia.
      * (* a nonzero approximation of b: b's digit is not far below 2^hp *)
        intros ib st3 Hpost Hnz.
        destruct Hpost as (ib' & st3' & Heq & _ & _ & Hv3 & Hq3 & M & HM & Hsc & Hhit).
        assert (Eib : ib = ib') by congruence. assert (Est : st3 = st3') by congruence.
        rewrite <- Est in *. rewrite <- Eib in Hsc. clear Heq Eib Est.
        assert (Hge : (h - 2 <= mb)%Z).
        { destruct (BitLen_lower amb ltac:(lia)) as [HBL1 HBL2].
          assert (HBL : (2 <= BitLen amb)%Z).
          { destruct (Z_lt_le_dec (BitLen amb) 2%Z) as [Hlt | Hle]; [| exact Hle].
            pose proof (BitLen_upper amb) as HU.
            assert (BitLen amb = 1%Z) by lia. rewrite H in HU. change (2 ^ 1)%Z with 2%Z in HU. lia. }
          destruct Hhit as [[Hsame _] | [Hnew [Hinval | Hlt]]].
          - rewrite Hsame in HM, Hsc, Hq3. rewrite Hamb in HM. inversion HM; subst M.
            destruct (scale_abs_bound amb (p - mb - 3 - MinPrecision (trackerAt st2 kb))
                        ltac:(pose proof (valid_range _ (proj1 (Hinv2 kb Hvb2))); lia)) as [Hkle _].
            { replace (- (p - mb - 3 - MinPrecision (trackerAt st2 kb)))%Z
                with (MinPrecision (trackerAt st2 kb) - (p - mb - 3))%Z by lia.
              rewrite <- Hsc. exact Hnz. }
            lia.
          - rewrite Hinval in Hvb2. discriminate.
          - lia. }
        eapply Qle_trans with (pow2 (h - 1) * pow2 (p - mb - 3)).
        -- apply Qmult_le_compat_r; [apply Qlt_le_weak, Hsmalla | apply Qlt_le_weak, pow2_pos].
        -- rewrite <- pow2_add. rewrite (pow2_pred p), (pow2_pred (p - 1)).
           pose proof (pow2_le (h - 1 + (p - mb - 3)) (p - 1 - 1) ltac:(lia)) as Hmono.
           lra.
  - (* the digit of a is known *)
    destruct (Z.eqb_spec ma MinInt) as [Hc | _]; [rewrite MinInt_val in Hc; lia |].
    rewrite bind_ret.
    assert (HFa : Qabs va * pow2 (p - ma - 3) <= pow2 p * (1 # 4)).
    { eapply Qle_trans with (pow2 (ma + 1) * pow2 (p - ma - 3)).
      - apply Qmult_le_compat_r; [apply Qlt_le_weak, Hupa | apply Qlt_le_weak, pow2_pos].
      - rewrite <- pow2_add. replace (ma + 1 + (p - ma - 3))%Z with (p - 1 - 1)%Z by lia.
        rewrite (pow2_pred p), (pow2_pred (p - 1)). lra. }
    apply (mulTail_point D ka kb va vb Aa Ab p ma st1 ub db L K); try assumption; try lia.
    + apply HAb; [lia | exact Hinv1 | left].
      destruct Hva as [E | Hbig].
      * rewrite E in Hloa. change (Qabs 0) with 0 in Hloa.
        pose proof (pow2_pos (ma - 1)). lra.
      * assert (Hlt : pow2 (p - 3) < pow2 (ma + 1)) by (eapply Qle_lt_trans; eassumption).
        apply pow2_lt_inv in Hlt. lia.
    + intros Hvb. rewrite Qabs_Qmult.
      pose proof (Qabs_nonneg va). pose proof (Qabs_nonneg vb). pose proof (pow2_pos p).
      set (A := Qabs va) in *. set (B := Qabs vb) in *. set (P2 := pow2 (p - ma - 3)) in *.
      assert (A * B <= A * P2) by nra. lra.
    + intros ib st3 _ _. exact HFa.
Qed.

(** The inverse of a value of magnitude at least 1 answers every request that
    is not positive, and every request its cache can serve. *)
Lemma Inverse_evaluates fuel D t r L :
  algebraic r -> consistent D r -> D t == / Qabs (value r) ->
  1 <= Qabs (value r) ->
  (L + 2 * Z.max (ubits r) (dbits r) + 4 + slack r < 1152921504606846976)%Z ->
  forall q st',
    (Z.abs q <= L)%Z -> trackerInv D st' ->
    (q <= 0)%Z \/
    (IsValid (trackerAt st' t) = true /\ (MinPrecision (trackerAt st' t) <= q)%Z) ->
    approxPost D t (/ Qabs (value r)) q st'
      (Approximate_with (Some t) (approximate fuel (constructiveMultiplicativeInverse t r)) q st').
Proof.
  intros Halg Hcons HDt Hbig HL q st' Hq Hinv Hdom.
  pose proof (slack_nonneg r). pose proof (ubits_nonneg r). pose proof (dbits_nonneg r).
  destruct Hdom as [Hq0 | [Hv Hle]].
  - apply Approximate_with_spec; [exact HDt | apply range_valid; lia | exact Hinv |].
    apply Inverse_approximate_spec; try assumption; [| lia].
    pose proof (pow2_le q 0 Hq0) as Hle. rewrite pow2_0 in Hle. lra.
  - apply Approximate_with_hit_post; [exact HDt | apply range_valid; lia | exact Hinv | exact Hv
                                     | exact Hle].
Qed.

(** X21: the contract of [Divide] for a divisor of magnitude at least 1, at
    precisions p <= 0.  [Divide a b] of two built expressions, |b| >= 1,
    returns a node x such that [Approximate x p], for a = 0 or
    |a| >= 2^(p-3), returns an integer z with |z * 2^p - a / |b|| < 2^p: the
    quotient, and its negation when b is negative.  This covers [FromRat a b]
    for every integer a and every integer b other than 0. *)
Theorem Divide_contract (D : nat -> Q) (st : store) (a b : Real) :
  trackerInv D st -> built D st a -> built D st b -> 1 <= Qabs (value b) ->
  exists x st1 D1,
    Divide a b st = (Ok x, st1) /\ trackerInv D1 st1 /\
    (forall y, built D st y -> built D1 st1 y) /\
    forall fuel p st2,
      trackerInv D1 st2 -> (p <= 0)%Z ->
      (value a == 0 \/ pow2 (p - 3) <= Qabs (value a)) ->
      (Z.abs p + Z.max (Z.max (ubits a) (dbits a)) (Z.max (ubits b) 1) + 3 + slack a
       < 2 ^ 60)%Z ->
      (Z.abs p + Z.max (Z.max (ubits a) (dbits a)) (Z.max (ubits b) 1) + 7
       + 2 * Z.max (ubits b) (dbits b) + slack b < 2 ^ 60)%Z ->
      exists z st3,
        Approximate fuel x p st2 = (Ok (Some z), st3) /\
        Qabs (inject_Z z * pow2 p - value a / Qabs (value b)) < pow2 p /\
        trackerInv D1 st3.
Proof.
  intros Hinv Ha Hb Hbig.
  set (ib := constructiveMultiplicativeInverse (next st) b).
  set (vb := / Qabs (value b)).
  destruct (alloc_keeps D st vb Hinv) as [Hinv' Hf'].
  destruct (alloc_keeps _ (snd (alloc st)) (value a * vb) Hinv') as [Hinv1 Hf1].
  set (D' := describe D st vb) in *.
  set (D1 := describe D' (snd (alloc st)) (value a * vb)) in *.
  destruct (Hf1 a (Hf' a Ha)) as (Haalg & Hacons & _).
  destruct (Hf1 b (Hf' b Hb)) as (Hbalg & Hbcons & Hbal).
  exists (constructiveMultiplication (S (next st)) a ib). eexists. exists D1.
  split; [reflexivity |]. split; [exact Hinv1 |].
  split; [intros y Hy; apply Hf1, Hf', Hy |].
  intros fuel p st2 Hinv2 Hp0 Hva Hba Hbb.
  change (2 ^ 60)%Z with 1152921504606846976%Z in Hba, Hbb.
  pose proof (slack_nonneg a). pose proof (slack_nonneg b).
  destruct (ubits_spec a Haalg) as [Hua0 Hua]. destruct (ubits_spec b Hbalg) as [Hub0 Hub].
  destruct (dbits_spec a Haalg) as [Hda0 _]. pose proof (dbits_nonneg b) as Hdb0.
  set (K := Z.max (Z.max (ubits a) (dbits a)) (Z.max (ubits b) 1)) in *.
  assert (HDt : D1 (S (next st)) == value a * vb).
  { unfold D1. apply (describe_new D' (snd (alloc st))). }
  assert (HDi : D1 (next st) == vb).
  { unfold D1. rewrite (describe_old D' (snd (alloc st))) by (cbn [alloc snd next]; lia).
    apply describe_new. }
  destruct (algebraic_tracker D1 a Haalg Hacons) as (ka & Hka & HDka).
  assert (HV : 0 < Qabs (value b)) by lra.
  assert (HW : vb * Qabs (value b) == 1) by (unfold vb; field; lra).
  assert (HWp : 0 < vb) by (apply Qinv_lt_0_compat; exact HV).
  assert (Hvb1 : Qabs vb < pow2 1).
  { rewrite Qabs_pos by lra. change (pow2 1) with 2.
    set (B := Qabs (value b)) in *. nra. }
  assert (Hvblow : ~ vb == 0 -> pow2 (- ubits b) <= Qabs vb).
  { intros _. rewrite Qabs_pos by lra.
    pose proof (pow2_neg_mul (ubits b)) as E. pose proof (pow2_pos (- ubits b)).
    set (B := Qabs (value b)) in *. set (U := pow2 (ubits b)) in *.
    set (U' := pow2 (- ubits b)) in *. nra. }
  unfold Approximate. cbn [trackerOf].
  destruct (Approximate_with_spec D1 (S (next st)) (value a * vb)
              (approximate fuel (constructiveMultiplication (S (next st)) a ib)) p st2 HDt
              (range_valid p ltac:(lia)) Hinv2) as (z & st3 & Heq & Hz & Hinv3 & _).
  { rewrite approximate_mul_body, Hka. cbn [ib trackerOf].
    apply (mulBody_restricted D1 ka (next st) (value a) vb _ _ p st2
             (ubits a) 1 (dbits a) (ubits b) (Z.abs p + K + 3) K);
      try assumption; try lia.
    - apply child_evaluates; [apply approximate_spec; assumption | exact HDka | lia].
    - apply Inverse_evaluates; try assumption. lia.
    - apply (dbits_lower a Haalg). }
  exists z, st3. split; [exact Heq |]. split; [exact Hz | exact Hinv3].
Qed.

Lemma Divide_contract_witness :
  let a := constructiveInteger 0 47 in
  let b := constructiveInteger 1 17 in
  let D := fun k : nat => match k with O => 47 | _ => 17 end in
  let st := mkStore 2 ∅ None None in
  exists x st1 D1,
    Divide a b st = (Ok x, st1) /\ trackerInv D1 st1 /\
    (forall y, built D st y -> built D1 st1 y) /\
    forall fuel p st2,
      trackerInv D1 st2 -> (p <= 0)%Z ->
      (value a == 0 \/ pow2 (p - 3) <= Qabs (value a)) ->
      (Z.abs p + Z.max (Z.max (ubits a) (dbits a)) (Z.max (ubits b) 1) + 3 + slack a
       < 2 ^ 60)%Z ->
      (Z.abs p + Z.max (Z.max (ubits a) (dbits a)) (Z.max (ubits b) 1) + 7
       + 2 * Z.max (ubits b) (dbits b) + slack b < 2 ^ 60)%Z ->
      exists z st3,
        Approximate fuel x p st2 = (Ok (Some z), st3) /\
        Qabs (inject_Z z * pow2 p - value a / Qabs (value b)) < pow2 p /\
        trackerInv D1 st3.
Proof.
  intros a b D st.
  apply (Divide_contract D st a b).
  - intros k Hv. unfold trackerAt in Hv. cbn in Hv. rewrite lookup_empty in Hv. discriminate.
  - split; [exact I |]. split; [cbn; reflexivity | cbn; lia].
  - split; [exact I |]. split; [cbn; reflexivity | cbn; lia].
  - vm_compute. discriminate.
Defined.

Local Close Scope Q_scope.
